(** * B+ tree of [pkg/datastructures/bplus_tree.go]: shallow embedding

    The Go tree is a graph of heap nodes linked by [children], [next] and
    [parent] pointers and mutated in place.  The embedding keeps that shape:
    nodes live in an arena (a list indexed by address), a pointer is an
    address, and every method is a computation in a state-and-failure monad
    over the [BPlusTree] record.  A computation yields [None] when the Go
    code would stop with a run-time panic (nil dereference, index out of
    range, explicit [panic]) or when a loop has used up its fuel.

    The properties come in three groups: facts about one call on an
    arbitrary tree record (read-only methods, the update path of [Insert]);
    a shape invariant kept by every [Insert] and [Delete], from which no
    call on a reachable tree panics or runs out of fuel; and evaluations of
    the methods on integer-keyed trees. *)

From Stdlib Require Import ZArith Lia String.
From stdpp Require Import base tactics option numbers list.

Local Open Scope Z_scope.

(** ** Data model *)

(** A pointer [*TreeNode] that is known to be non-nil is an arena address;
    nullable pointer fields are [option ptr]. *)
Abbreviation ptr := nat.

(** The [error] result of the public methods: [nil] or [fmt.Errorf msg]. *)
Inductive error :=
| ErrNil
| Errorf (msg : string).

Section Model.
Context {K V : Type}.

(** Go's [any] for keys and values: [None] is the nil interface value. *)
Definition anyK := option K.
Definition anyV := option V.

(** [Comparator func(a, b any) int] *)
Definition Comparator := anyK → anyK → Z.

Record KeyValue := mkKV { Key : anyK; Value : anyV }.

Record TreeNode := mkNode {
  keys : list anyK;
  values : list KeyValue;
  children : list ptr;
  isLeaf : bool;
  next : option ptr;
  parent : option ptr
}.

Record BPlusTree := mkTree {
  heap : list TreeNode;
  root : ptr;
  order : Z;
  minKeys : Z;
  minChildren : Z;
  comparator : Comparator;
  count : Z
}.

(** Field assignments. *)
Definition set_keys (f : list anyK → list anyK) (n : TreeNode) : TreeNode :=
  mkNode (f (keys n)) (values n) (children n) (isLeaf n) (next n) (parent n).
Definition set_values (f : list KeyValue → list KeyValue) (n : TreeNode) : TreeNode :=
  mkNode (keys n) (f (values n)) (children n) (isLeaf n) (next n) (parent n).
Definition set_children (f : list ptr → list ptr) (n : TreeNode) : TreeNode :=
  mkNode (keys n) (values n) (f (children n)) (isLeaf n) (next n) (parent n).
Definition set_next (x : option ptr) (n : TreeNode) : TreeNode :=
  mkNode (keys n) (values n) (children n) (isLeaf n) x (parent n).
Definition set_parent (x : option ptr) (n : TreeNode) : TreeNode :=
  mkNode (keys n) (values n) (children n) (isLeaf n) (next n) x.

Definition set_heap (f : list TreeNode → list TreeNode) (t : BPlusTree) : BPlusTree :=
  mkTree (f (heap t)) (root t) (order t) (minKeys t) (minChildren t) (comparator t) (count t).
Definition set_root (r : ptr) (t : BPlusTree) : BPlusTree :=
  mkTree (heap t) r (order t) (minKeys t) (minChildren t) (comparator t) (count t).
Definition set_count (c : Z) (t : BPlusTree) : BPlusTree :=
  mkTree (heap t) (root t) (order t) (minKeys t) (minChildren t) (comparator t) c.

(** [count] is an [int64]: increments and decrements wrap. *)
Definition wrap64 (z : Z) : Z := (z + 2 ^ 63) mod 2 ^ 64 - 2 ^ 63.

(** ** The monad of tree methods *)

Definition M (A : Type) : Type := BPlusTree → option (A * BPlusTree).

Definition ret {A} (a : A) : M A := λ t, Some (a, t).
Definition bind {A B} (m : M A) (k : A → M B) : M B :=
  λ t, match m t with
       | Some (a, t') => k a t'
       | None => None
       end.
Definition panic {A} : M A := λ _, None.
Definition gets {A} (f : BPlusTree → A) : M A := λ t, Some (f t, t).
Definition modify (f : BPlusTree → BPlusTree) : M unit := λ t, Some (tt, f t).

End Model.

Arguments KeyValue : clear implicits.
Arguments TreeNode : clear implicits.
Arguments BPlusTree : clear implicits.
Arguments M : clear implicits.

(** [M] is a monad in stdpp's sense, so methods are written with
    [x ← m; k] and [m;; k]. *)
#[global] Instance M_ret {K V} : MRet (M K V) := @ret K V.
#[global] Instance M_bind {K V} : MBind (M K V) := λ A B k m, bind m k.

Section Ops.
Context {K V : Type}.
Abbreviation M := (M K V).
Abbreviation TreeNode := (TreeNode K V).
Abbreviation KeyValue := (KeyValue K V).
Abbreviation BPlusTree := (BPlusTree K V).
Abbreviation anyK := (@anyK K).
Abbreviation anyV := (@anyV V).

(** [*p] for reading: a dangling address panics. *)
Definition getNode (p : ptr) : M TreeNode :=
  λ t, match heap t !! p with
       | Some n => Some (n, t)
       | None => None
       end.

(** In-place update of the node at [p]. *)
Definition modNode (p : ptr) (f : TreeNode → TreeNode) : M unit :=
  λ t, match heap t !! p with
       | Some _ => Some (tt, set_heap (alter f p) t)
       | None => None
       end.

(** [&TreeNode{...}]: allocation at the end of the arena. *)
Definition newNode (n : TreeNode) : M ptr :=
  λ t, Some (length (heap t), set_heap (λ h, h ++ [n]) t).

(** [l[i]] with Go's bounds check. *)
Definition index {A} (l : list A) (i : nat) : M A :=
  match l !! i with
  | Some a => mret a
  | None => panic
  end.

(** The idiom [l = append(l, zero); copy(l[i+1:], l[i:]); l[i] = x],
    which panics on the slice expression when [i > len l]. *)
Definition insertAt {A} (i : nat) (x : A) (l : list A) : list A :=
  take i l ++ x :: drop i l.

(** [append(l[:i], l[i+1:]...)] *)
Definition removeAt {A} (i : nat) (l : list A) : list A :=
  take i l ++ drop (S i) l.

Definition guard (b : bool) : M unit := if b then mret tt else panic.

(** Position of [p] among [cs]: the loop
    [for i := 0; i < len(cs); i++ { if cs[i] == p { ... break } }]. *)
Fixpoint childPos (p : ptr) (cs : list ptr) : option nat :=
  match cs with
  | [] => None
  | c :: cs' => if Nat.eqb c p then Some 0%nat else S <$> childPos p cs'
  end.

(** The loop [for pos < len(cs) && cs[pos] != p { pos++ }]. *)
Fixpoint scanPos (p : ptr) (cs : list ptr) : nat :=
  match cs with
  | [] => 0%nat
  | c :: cs' => if Nat.eqb c p then 0%nat else S (scanPos p cs')
  end.

(** ** Descent: [findLeafNode] *)

(** [for idx < len(keys) && comparator(key, keys[idx]) >= 0 { idx++ }] *)
Fixpoint routeIndex (cmp : Comparator) (key : anyK) (ks : list anyK) : nat :=
  match ks with
  | [] => 0%nat
  | k :: ks' => if 0 <=? cmp key k then S (routeIndex cmp key ks') else 0%nat
  end.

Fixpoint findLeafFrom (fuel : nat) (node : ptr) (key : anyK) : M ptr :=
  match fuel with
  | O => panic
  | S fuel' =>
      n ← getNode node;
      if isLeaf n then mret node
      else
        cmp ← gets comparator;
        let idx := routeIndex cmp key (keys n) in
        let idx := if (length (children n) <=? idx)%nat
                   then (length (children n) - 1)%nat else idx in
        child ← index (children n) idx;
        findLeafFrom fuel' child key
  end.

Definition findLeafNode (key : anyK) : M ptr :=
  r ← gets root;
  fuel ← gets (λ t, length (heap t));
  findLeafFrom fuel r key.

(** First index [i] with [comparator(keys[i], key) == 0]: the [range]
    loops of [Insert], [Search] and [Delete]. *)
Fixpoint findKey (cmp : Comparator) (key : anyK) (ks : list anyK) : option nat :=
  match ks with
  | [] => None
  | k :: ks' => if cmp k key =? 0 then Some 0%nat else S <$> findKey cmp key ks'
  end.

(** [for insertPos < len(keys) && comparator(keys[insertPos], key) < 0] *)
Fixpoint insertPosition (cmp : Comparator) (key : anyK) (ks : list anyK) : nat :=
  match ks with
  | [] => 0%nat
  | k :: ks' => if cmp k key <? 0 then S (insertPosition cmp key ks') else 0%nat
  end.

(** ** Splitting *)

Fixpoint setParents (cs : list ptr) (p : ptr) : M unit :=
  match cs with
  | [] => mret tt
  | c :: cs' => modNode c (set_parent (Some p));; setParents cs' p
  end.

Fixpoint splitInternalNode (fuel : nat) (node : ptr) : M unit :=
  match fuel with
  | O => panic
  | S fuel' =>
      n ← getNode node;
      let splitPos := (length (keys n) / 2)%nat in
      midKey ← index (keys n) splitPos;
      guard (S splitPos <=? length (children n))%nat;;
      newN ← newNode (mkNode (drop (S splitPos) (keys n)) []
                             (drop (S splitPos) (children n))
                             false None (parent n));
      setParents (drop (S splitPos) (children n)) newN;;
      modNode node (λ x, set_children (take (S splitPos))
                           (set_keys (take splitPos) x));;
      match parent n with
      | None =>
          newRoot ← newNode (mkNode [midKey] [] [node; newN] false None None);
          modNode node (set_parent (Some newRoot));;
          modNode newN (set_parent (Some newRoot));;
          modify (set_root newRoot)
      | Some par =>
          p ← getNode par;
          match childPos node (children p) with
          | None => panic
          | Some nodePos =>
              guard (nodePos <=? length (keys p))%nat;;
              modNode par (λ x, set_children (insertAt (S nodePos) newN)
                                  (set_keys (insertAt nodePos midKey) x));;
              modNode newN (set_parent (Some par));;
              p' ← getNode par;
              ord ← gets order;
              if ord - 1 <? Z.of_nat (length (keys p'))
              then splitInternalNode fuel' par
              else mret tt
          end
      end
  end.

Definition splitLeafNode (leaf : ptr) : M unit :=
  l ← getNode leaf;
  let splitPos := (length (keys l) / 2)%nat in
  guard (splitPos <=? length (values l))%nat;;
  newLeaf ← newNode (mkNode (drop splitPos (keys l)) (drop splitPos (values l))
                            [] true (next l) (parent l));
  modNode leaf (λ x, set_next (Some newLeaf)
                       (set_values (take splitPos) (set_keys (take splitPos) x)));;
  sep ← index (drop splitPos (keys l)) 0;
  match parent l with
  | None =>
      newRoot ← newNode (mkNode [sep] [] [leaf; newLeaf] false None None);
      modNode leaf (set_parent (Some newRoot));;
      modNode newLeaf (set_parent (Some newRoot));;
      modify (set_root newRoot)
  | Some par =>
      p ← getNode par;
      match childPos leaf (children p) with
      | None => panic
      | Some leafPos =>
          guard (leafPos <=? length (keys p))%nat;;
          modNode par (λ x, set_children (insertAt (S leafPos) newLeaf)
                              (set_keys (insertAt leafPos sep) x));;
          modNode newLeaf (set_parent (Some par));;
          p' ← getNode par;
          ord ← gets order;
          fuel ← gets (λ t, length (heap t));
          if ord - 1 <? Z.of_nat (length (keys p'))
          then splitInternalNode fuel par
          else mret tt
      end
  end.

Definition insertIntoLeaf (leaf : ptr) (key : anyK) (value : anyV) : M unit :=
  l ← getNode leaf;
  cmp ← gets comparator;
  let insertPos := insertPosition cmp key (keys l) in
  guard (insertPos <=? length (values l))%nat;;
  modNode leaf (λ x, set_values (insertAt insertPos (mkKV key value))
                       (set_keys (insertAt insertPos key) x));;
  l' ← getNode leaf;
  ord ← gets order;
  if ord - 1 <? Z.of_nat (length (keys l'))
  then splitLeafNode leaf
  else mret tt.

(** ** Deletion and rebalancing *)

(** [len(parent.children[i].keys) > t.minKeys] *)
Definition hasSpare (cs : list ptr) (i : nat) : M bool :=
  s ← index cs i;
  sn ← getNode s;
  mk ← gets minKeys;
  mret (mk <? Z.of_nat (length (keys sn))).

(** [pos > 0 && len(parent.children[pos-1].keys) > t.minKeys] *)
Definition leftHasSpare (cs : list ptr) (pos : nat) : M bool :=
  match pos with
  | O => mret false
  | S pos' => hasSpare cs pos'
  end.

(** [pos < len(parent.children)-1 && len(parent.children[pos+1].keys) > t.minKeys] *)
Definition rightHasSpare (cs : list ptr) (pos : nat) : M bool :=
  if (S pos <? length cs)%nat then hasSpare cs (S pos) else mret false.

Definition derefParent (n : TreeNode) : M ptr :=
  match parent n with
  | Some par => mret par
  | None => panic
  end.

(** [l = l[:len(l)-1]] *)
Definition dropLast {A} (l : list A) : list A := take (length l - 1)%nat l.

(** [rebalanceInternalNode] and [deleteFromInternalNode] call each other;
    the first takes the second as an argument and the knot is tied on the
    fuel. *)
Definition rebalanceInternalNode
    (deleteFromInternalNode : ptr → nat → ptr → M unit) (node : ptr) : M unit :=
  n ← getNode node;
  par ← derefParent n;
  p ← getNode par;
  let pos := scanPos node (children p) in
  bl ← leftHasSpare (children p) pos;
  if (bl : bool) then
    leftSibling ← index (children p) (pos - 1)%nat;
    borrowedKey ← index (keys p) (pos - 1)%nat;
    modNode node (set_keys (λ ks, borrowedKey :: ks));;
    l ← getNode leftSibling;
    lastChild ← index (children l) (length (children l) - 1)%nat;
    modNode lastChild (set_parent (Some node));;
    modNode node (set_children (λ cs, lastChild :: cs));;
    l1 ← getNode leftSibling;
    guard (1 <=? length (keys l1))%nat;;
    guard (1 <=? length (children l1))%nat;;
    modNode leftSibling (λ x, set_children dropLast (set_keys dropLast x));;
    l2 ← getNode leftSibling;
    newSep ← index (keys l2) (length (keys l2) - 1)%nat;
    p1 ← getNode par;
    guard (pos - 1 <? length (keys p1))%nat;;
    modNode par (set_keys (λ ks, <[(pos - 1)%nat := newSep]> ks))
  else
    br ← rightHasSpare (children p) pos;
    if (br : bool) then
      rightSibling ← index (children p) (S pos);
      borrowedKey ← index (keys p) pos;
      modNode node (set_keys (λ ks, ks ++ [borrowedKey]));;
      r ← getNode rightSibling;
      firstChild ← index (children r) 0;
      modNode firstChild (set_parent (Some node));;
      modNode node (set_children (λ cs, cs ++ [firstChild]));;
      r1 ← getNode rightSibling;
      guard (1 <=? length (keys r1))%nat;;
      guard (1 <=? length (children r1))%nat;;
      modNode rightSibling (λ x, set_children (drop 1) (set_keys (drop 1) x));;
      r2 ← getNode rightSibling;
      newSep ← index (keys r2) 0;
      p1 ← getNode par;
      guard (pos <? length (keys p1))%nat;;
      modNode par (set_keys (λ ks, <[pos := newSep]> ks))
    else
      match pos with
      | S pos' =>
          leftSibling ← index (children p) pos';
          parentKey ← index (keys p) pos';
          modNode leftSibling (set_keys (λ ks, ks ++ [parentKey]));;
          n1 ← getNode node;
          modNode leftSibling (set_keys (λ ks, ks ++ keys n1));;
          n2 ← getNode node;
          modNode leftSibling (set_children (λ cs, cs ++ children n2));;
          n3 ← getNode node;
          setParents (children n3) leftSibling;;
          deleteFromInternalNode par pos' node
      | O =>
          rightSibling ← index (children p) (S pos);
          parentKey ← index (keys p) pos;
          modNode node (set_keys (λ ks, ks ++ [parentKey]));;
          r1 ← getNode rightSibling;
          modNode node (set_keys (λ ks, ks ++ keys r1));;
          r2 ← getNode rightSibling;
          modNode node (set_children (λ cs, cs ++ children r2));;
          r3 ← getNode rightSibling;
          setParents (children r3) node;;
          deleteFromInternalNode par pos rightSibling
      end.

Fixpoint deleteFromInternalNode (fuel : nat) (par : ptr) (pos : nat) (child : ptr)
    : M unit :=
  match fuel with
  | O => panic
  | S fuel' =>
      p ← getNode par;
      guard (S pos <=? length (keys p))%nat;;
      guard (S (S pos) <=? length (children p))%nat;;
      modNode par (λ x, set_children (removeAt (S pos)) (set_keys (removeAt pos) x));;
      p1 ← getNode par;
      mk ← gets minKeys;
      (if (Z.of_nat (length (keys p1)) <? mk) && bool_decide (parent p1 ≠ None)
       then rebalanceInternalNode (deleteFromInternalNode fuel') par
       else mret tt);;
      p2 ← getNode par;
      if (length (keys p2) =? 0)%nat && bool_decide (parent p2 = None)
      then
        c0 ← index (children p2) 0;
        modify (set_root c0);;
        modNode c0 (set_parent None)
      else mret tt
  end.

Definition rebalanceLeafNode (leaf : ptr) : M unit :=
  lf ← getNode leaf;
  par ← derefParent lf;
  p ← getNode par;
  fuel ← gets (λ t, length (heap t));
  let pos := scanPos leaf (children p) in
  bl ← leftHasSpare (children p) pos;
  if (bl : bool) then
    leftSibling ← index (children p) (pos - 1)%nat;
    l ← getNode leftSibling;
    borrowedKey ← index (keys l) (length (keys l) - 1)%nat;
    borrowedValue ← index (values l) (length (values l) - 1)%nat;
    modNode leaf (λ x, set_values (λ vs, borrowedValue :: vs)
                         (set_keys (λ ks, borrowedKey :: ks) x));;
    modNode leftSibling (λ x, set_values dropLast (set_keys dropLast x));;
    lf1 ← getNode leaf;
    newSep ← index (keys lf1) 0;
    p1 ← getNode par;
    guard (pos - 1 <? length (keys p1))%nat;;
    modNode par (set_keys (λ ks, <[(pos - 1)%nat := newSep]> ks))
  else
    br ← rightHasSpare (children p) pos;
    if (br : bool) then
      rightSibling ← index (children p) (S pos);
      r ← getNode rightSibling;
      borrowedKey ← index (keys r) 0;
      borrowedValue ← index (values r) 0;
      modNode leaf (λ x, set_values (λ vs, vs ++ [borrowedValue])
                           (set_keys (λ ks, ks ++ [borrowedKey]) x));;
      r1 ← getNode rightSibling;
      guard (1 <=? length (keys r1))%nat;;
      guard (1 <=? length (values r1))%nat;;
      modNode rightSibling (λ x, set_values (drop 1) (set_keys (drop 1) x));;
      r2 ← getNode rightSibling;
      newSep ← index (keys r2) 0;
      p1 ← getNode par;
      guard (pos <? length (keys p1))%nat;;
      modNode par (set_keys (λ ks, <[pos := newSep]> ks))
    else
      match pos with
      | S pos' =>
          leftSibling ← index (children p) pos';
          lf1 ← getNode leaf;
          modNode leftSibling (set_keys (λ ks, ks ++ keys lf1));;
          lf2 ← getNode leaf;
          modNode leftSibling (set_values (λ vs, vs ++ values lf2));;
          lf3 ← getNode leaf;
          modNode leftSibling (set_next (next lf3));;
          deleteFromInternalNode fuel par pos' leaf
      | O =>
          rightSibling ← index (children p) (S pos);
          r1 ← getNode rightSibling;
          modNode leaf (set_keys (λ ks, ks ++ keys r1));;
          r2 ← getNode rightSibling;
          modNode leaf (set_values (λ vs, vs ++ values r2));;
          r3 ← getNode rightSibling;
          modNode leaf (set_next (next r3));;
          deleteFromInternalNode fuel par pos rightSibling
      end.

Definition deleteFromLeaf (leaf : ptr) (idx : nat) : M unit :=
  l ← getNode leaf;
  guard (S idx <=? length (keys l))%nat;;
  guard (S idx <=? length (values l))%nat;;
  modNode leaf (λ x, set_values (removeAt idx) (set_keys (removeAt idx) x));;
  l' ← getNode leaf;
  mk ← gets minKeys;
  if (Z.of_nat (length (keys l')) <? mk) && bool_decide (parent l' ≠ None)
  then rebalanceLeafNode leaf
  else mret tt.

(** ** Public methods *)

(** [NewBPlusTree]: panics when [order < 3]. *)
Definition NewBPlusTree (order : Z) (comparator : Comparator) : option BPlusTree :=
  if order <? 3 then None
  else Some (mkTree [mkNode [] [] [] true None None] 0%nat
                    order (order ÷ 2 - 1) (order ÷ 2) comparator 0).

Definition Insert (key : anyK) (value : anyV) : M error :=
  match key with
  | None => mret (Errorf "key cannot be nil")
  | Some _ =>
      leaf ← findLeafNode key;
      l ← getNode leaf;
      cmp ← gets comparator;
      match findKey cmp key (keys l) with
      | Some i =>
          kv ← index (values l) i;
          modNode leaf (set_values (λ vs, <[i := mkKV (Key kv) value]> vs));;
          mret ErrNil
      | None =>
          insertIntoLeaf leaf key value;;
          modify (λ t, set_count (wrap64 (count t + 1)) t);;
          mret ErrNil
      end
  end.

Definition Search (key : anyK) : M (anyV * bool) :=
  match key with
  | None => mret (None, false)
  | Some _ =>
      leaf ← findLeafNode key;
      l ← getNode leaf;
      cmp ← gets comparator;
      match findKey cmp key (keys l) with
      | Some i =>
          kv ← index (values l) i;
          mret (Value kv, true)
      | None => mret (None, false)
      end
  end.

Definition Delete (key : anyK) : M bool :=
  match key with
  | None => mret false
  | Some _ =>
      leaf ← findLeafNode key;
      l ← getNode leaf;
      cmp ← gets comparator;
      match findKey cmp key (keys l) with
      | None => mret false
      | Some idx =>
          deleteFromLeaf leaf idx;;
          modify (λ t, set_count (wrap64 (count t - 1)) t);;
          mret true
      end
  end.

(** The leaf-chain walk of [RangeQuery]. *)
Definition inRange (cmp : Comparator) (start end_ : anyK) (key : anyK) : bool :=
  (0 <=? cmp key start) && (cmp key end_ <? 0).

(** [for i, key := range leaf.keys { if ... { result = append(result, leaf.values[i]) } }] *)
Fixpoint rangeLeaf (cmp : Comparator) (start end_ : anyK)
    (ks : list anyK) (vs : list KeyValue) (result : list KeyValue)
    : option (list KeyValue) :=
  match ks with
  | [] => Some result
  | k :: ks' =>
      if inRange cmp start end_ k then
        match vs with
        | [] => None
        | v :: vs' => rangeLeaf cmp start end_ ks' vs' (result ++ [v])
        end
      else rangeLeaf cmp start end_ ks' (tail vs) result
  end.

Fixpoint rangeChain (fuel : nat) (start end_ : anyK) (leaf : option ptr)
    (result : list KeyValue) : M (list KeyValue) :=
  match leaf with
  | None => mret result
  | Some p =>
      match fuel with
      | O => panic
      | S fuel' =>
          n ← getNode p;
          cmp ← gets comparator;
          match rangeLeaf cmp start end_ (keys n) (values n) result with
          | None => panic
          | Some result' => rangeChain fuel' start end_ (next n) result'
          end
      end
  end.

Definition RangeQuery (start end_ : anyK) : M (list KeyValue * error) :=
  match start, end_ with
  | Some _, Some _ =>
      cmp ← gets comparator;
      if 0 <=? cmp start end_
      then mret ([], Errorf "start must be less than end")
      else
        leaf ← findLeafNode start;
        fuel ← gets (λ t, length (heap t));
        result ← rangeChain fuel start end_ (Some leaf) [];
        mret (result, ErrNil)
  | _, _ => mret ([], Errorf "start and end cannot be nil")
  end.

(** [for !leaf.isLeaf { leaf = leaf.children[0] }] *)
Fixpoint leftmostLeaf (fuel : nat) (node : ptr) : M ptr :=
  match fuel with
  | O => panic
  | S fuel' =>
      n ← getNode node;
      if isLeaf n then mret node
      else
        c ← index (children n) 0;
        leftmostLeaf fuel' c
  end.

Fixpoint scanChain (fuel : nat) (leaf : option ptr) (result : list KeyValue)
    : M (list KeyValue) :=
  match leaf with
  | None => mret result
  | Some p =>
      match fuel with
      | O => panic
      | S fuel' =>
          n ← getNode p;
          scanChain fuel' (next n) (result ++ values n)
      end
  end.

Definition ScanAll : M (list KeyValue) :=
  r ← gets root;
  fuel ← gets (λ t, length (heap t));
  leaf ← leftmostLeaf fuel r;
  scanChain fuel (Some leaf) [].

Definition Size : M Z := gets count.

Fixpoint heightFrom (fuel : nat) (node : ptr) (height : Z) : M Z :=
  match fuel with
  | O => panic
  | S fuel' =>
      n ← getNode node;
      if isLeaf n then mret height
      else
        c ← index (children n) 0;
        heightFrom fuel' c (height + 1)
  end.

Definition Height : M Z :=
  r ← gets root;
  fuel ← gets (λ t, length (heap t));
  heightFrom fuel r 1.

(** ** Sequences of mutations *)

Inductive op :=
| OpInsert (key : anyK) (value : anyV)
| OpDelete (key : anyK).

Definition applyOp (o : op) : M unit :=
  match o with
  | OpInsert key value => Insert key value;; mret tt
  | OpDelete key => Delete key;; mret tt
  end.

Fixpoint applyOps (os : list op) : M unit :=
  match os with
  | [] => mret tt
  | o :: os' => applyOp o;; applyOps os'
  end.

(** The tree obtained from [NewBPlusTree order comparator] by the calls
    [os], when none of them panics. *)
Definition treeAfter (order : Z) (comparator : Comparator) (os : list op)
    : option BPlusTree :=
  t ← NewBPlusTree order comparator;
  snd <$> applyOps os t.

(** ** Observations used in the statements *)

(** Keys stored below [p], leaf by leaf from left to right. *)
Fixpoint subtreeKeys (fuel : nat) (h : list TreeNode) (p : ptr) : list anyK :=
  match fuel with
  | O => []
  | S fuel' =>
      match h !! p with
      | None => []
      | Some n =>
          if isLeaf n then keys n
          else flat_map (subtreeKeys fuel' h) (children n)
      end
  end.

(** Separator ordering at one Internal node with separators [ks] and
    children [cs]: keys below child [i] are less than [ks[i]] (when there is
    one) and at least [ks[i-1]] (when [i > 0]). *)
Definition childWithin (cmp : Comparator) (ks : list anyK) (i : nat)
    (below : list anyK) : bool :=
  forallb (λ k,
    match ks !! i with
    | Some hi => cmp k hi <? 0
    | None => true
    end &&
    match i with
    | O => true
    | S j => match ks !! j with
             | Some lo => 0 <=? cmp k lo
             | None => true
             end
    end) below.

Definition separatorsOrderedAt (fuel : nat) (t : BPlusTree) (n : TreeNode) : bool :=
  forallb (λ ic, childWithin (comparator t) (keys n) ic.1
                   (subtreeKeys fuel (heap t) ic.2))
          (imap pair (children n)).

(** The ordering holds at every Internal node below [p]. *)
Fixpoint separatorsOrdered (fuel : nat) (t : BPlusTree) (p : ptr) : bool :=
  match fuel with
  | O => true
  | S fuel' =>
      match heap t !! p with
      | None => true
      | Some n =>
          isLeaf n ||
          (separatorsOrderedAt fuel' t n &&
           forallb (separatorsOrdered fuel' t) (children n))
      end
  end.

(** Strictly increasing comparator order of a key sequence. *)
Fixpoint strictlyIncreasing (cmp : Comparator) (ks : list anyK) : bool :=
  match ks with
  | k1 :: ((k2 :: _) as rest) => (cmp k1 k2 <? 0) && strictlyIncreasing cmp rest
  | _ => true
  end.

End Ops.

(** ** The integer-keyed trees of the test-suite *)

Module IntTree.

(** [intComparator] of the tests, on [int] keys.  (On a nil left argument the
    Go type switch falls through to [return 0].) *)
Definition intComparator : @Comparator Z := λ a b,
  match a, b with
  | Some x, Some y => if x <? y then -1 else if y <? x then 1 else 0
  | _, _ => 0
  end.

(** [n] consecutive integers from [a]. *)
Fixpoint upto (n : nat) (a : Z) : list Z :=
  match n with
  | O => []
  | S n' => a :: upto n' (a + 1)
  end.

Definition insertAll (ks : list Z) : list (@op Z Z) :=
  map (λ k, OpInsert (Some k) (Some k)) ks.
Definition deleteAll (ks : list Z) : list (@op Z Z) :=
  map (λ k, OpDelete (Some k)) ks.

(** Order 4, keys 1..10 in ascending order, then [Delete] 8, 7 and 9.  The
    last call empties the leaf of 9, merges it with its right sibling and
    makes the parent borrow from the left Internal sibling. *)
Definition borrowLeftOps : list (@op Z Z) :=
  insertAll (upto 10 1) ++ deleteAll [8; 7; 9].

End IntTree.

(** * Shape invariant of reachable trees *)

Section Invariant.
Context {K V : Type}.
Implicit Types (h : list (TreeNode K V)) (t : BPlusTree K V) (n : TreeNode K V).
Implicit Types (p q c : ptr) (A B L : list ptr) (all : list (list ptr)).

(** Children and entries of the node at an address. *)
Definition kids h p : list ptr := from_option children [] (h !! p).
Definition vals h p : list (KeyValue K V) := from_option values [] (h !! p).

(** The entries of a leaf level, from left to right. *)
Definition entries h L : list (KeyValue K V) := L ≫= vals h.

(** A Leaf: no children, and its [keys] are the keys of its [values]. *)
Definition leafAt h p : Prop :=
  ∃ n, h !! p = Some n ∧ isLeaf n = true ∧ children n = [] ∧
       Key <$> values n = keys n.

(** An Internal node: one more child than separators. *)
Definition innerAt h p : Prop :=
  ∃ n, h !! p = Some n ∧ isLeaf n = false ∧
       length (children n) = S (length (keys n)).

(** The [parent] field of the node at [c]. *)
Definition parentOf h c : option (option ptr) := parent <$> h !! c.

(** [all] lists the nodes level by level, root level first: each level is
    the concatenation of the children of the level above, and the last
    level consists of leaves. *)
Definition levelsOK h all : Prop :=
  ∀ i A, all !! i = Some A →
    match all !! S i with
    | Some B => Forall (innerAt h) A ∧ B = A ≫= kids h
    | None => Forall (leafAt h) A
    end.

Definition hdOr (nxt : option ptr) L : option ptr :=
  match L with
  | [] => nxt
  | l :: _ => Some l
  end.

(** The leaves [L] are linked by [next] in this order, ending in [nxt]. *)
Fixpoint chainOK h L (nxt : option ptr) : Prop :=
  match L with
  | [] => True
  | l :: L' => (∃ n, h !! l = Some n ∧ next n = hdOr nxt L') ∧ chainOK h L' nxt
  end.

Definition leafLevel all : list ptr := List.last all [].

(** The shape invariant of a heap [h] with root [r].  [under] names the one
    Internal node that may momentarily be left without separator while a
    deletion is in progress. *)
Record Shape (under : option ptr) h (r : ptr) all : Prop := {
  sh_top : all !! 0%nat = Some [r];
  sh_levels : levelsOK h all;
  sh_nodup : NoDup (mjoin all);
  sh_root : parentOf h r = Some None;
  sh_parents : ∀ q c, q ∈ mjoin all → c ∈ kids h q → parentOf h c = Some (Some q);
  sh_chain : chainOK h (leafLevel all) None;
  sh_keys : ∀ p n, p ∈ mjoin all → h !! p = Some n → isLeaf n = false →
                   under ≠ Some p → (1 ≤ length (keys n))%nat
}.

Definition WF (under : option ptr) t all : Prop :=
  3 ≤ order t ∧ Shape under (heap t) (root t) all.

(** [count] agrees with the number of entries on the leaf level. *)
Definition counted t all : Prop :=
  count t = wrap64 (Z.of_nat (length (entries (heap t) (leafLevel all)))).

End Invariant.

(** * Properties *)

Section Basics.
Context {K V : Type}.
Implicit Types (t : BPlusTree K V) (n : TreeNode K V) (p : ptr).

Lemma bind_unfold {A B} (m : M K V A) (k : A → M K V B) t :
  (m ≫= k) t = match m t with
               | Some (a, t') => k a t'
               | None => None
               end.
Proof. reflexivity. Qed.

Lemma bind_Some {A B} (m : M K V A) (k : A → M K V B) t b t2 :
  (m ≫= k) t = Some (b, t2) ↔ ∃ a t1, m t = Some (a, t1) ∧ k a t1 = Some (b, t2).
Proof.
  rewrite bind_unfold. split.
  - destruct (m t) as [[a t1]|]; [eauto | discriminate].
  - intros (a & t1 & -> & ?). done.
Qed.

Lemma getNode_Some p t n t' :
  getNode p t = Some (n, t') ↔ heap t !! p = Some n ∧ t' = t.
Proof.
  unfold getNode. destruct (heap t !! p) as [n0|]; split.
  - by intros [= -> ->].
  - by intros [[= ->] ->].
  - intros [=].
  - by intros [[=] _].
Qed.

Lemma getNode_lookup p t n : heap t !! p = Some n → getNode p t = Some (n, t).
Proof. intros. by apply getNode_Some. Qed.

Lemma modNode_lookup p f t n :
  heap t !! p = Some n →
  modNode p f t = Some (tt, set_heap (alter f p) t).
Proof. unfold modNode. by intros ->. Qed.

Lemma index_Some {A} (l : list A) i a t t' :
  index l i t = Some (a, t') ↔ l !! i = Some a ∧ t' = t.
Proof.
  unfold index. destruct (l !! i) as [a0|]; split.
  - by intros [= -> ->].
  - by intros [[= ->] ->].
  - intros [=].
  - by intros [[=] _].
Qed.

End Basics.

(** Read-only computations: they hand back the state they were given. *)
Definition readOnly {K V A} (m : M K V A) : Prop :=
  ∀ t a t', m t = Some (a, t') → t' = t.

Section ReadOnly.
Context {K V : Type}.
Implicit Types (t : BPlusTree K V).

Lemma readOnly_ret {A} (a : A) : readOnly (mret a : M K V A).
Proof. intros t a' t' [= _ ->]. done. Qed.

Lemma readOnly_panic {A} : readOnly (panic : M K V A).
Proof. intros t a t' [=]. Qed.

Lemma readOnly_gets {A} (f : BPlusTree K V → A) : readOnly (gets f).
Proof. intros t a t' [= _ ->]. done. Qed.

Lemma readOnly_getNode p : readOnly (getNode (K:=K) (V:=V) p).
Proof. intros t a t' [_ ->]%getNode_Some. done. Qed.

Lemma readOnly_index {A} (l : list A) i : readOnly (index (K:=K) (V:=V) l i).
Proof. intros t a t' [_ ->]%index_Some. done. Qed.

Lemma readOnly_bind {A B} (m : M K V A) (k : A → M K V B) :
  readOnly m → (∀ a, readOnly (k a)) → readOnly (m ≫= k).
Proof.
  intros Hm Hk t b t2 (a & t1 & H1 & H2)%bind_Some.
  apply Hm in H1 as ->. by apply Hk in H2.
Qed.

Lemma readOnly_findLeafFrom fuel p key :
  readOnly (findLeafFrom (K:=K) (V:=V) fuel p key).
Proof.
  revert p. induction fuel as [|fuel IH]; intros p; simpl.
  - apply readOnly_panic.
  - apply readOnly_bind; [apply readOnly_getNode|]. intros n.
    destruct (isLeaf n); [apply readOnly_ret|].
    apply readOnly_bind; [apply readOnly_gets|]. intros cmp.
    apply readOnly_bind; [apply readOnly_index|]. intros c. apply IH.
Qed.

Lemma readOnly_findLeafNode key : readOnly (findLeafNode (K:=K) (V:=V) key).
Proof.
  unfold findLeafNode.
  apply readOnly_bind; [apply readOnly_gets|]. intros r.
  apply readOnly_bind; [apply readOnly_gets|]. intros fuel.
  apply readOnly_findLeafFrom.
Qed.

Lemma readOnly_rangeChain fuel start end_ leaf acc :
  readOnly (rangeChain (K:=K) (V:=V) fuel start end_ leaf acc).
Proof.
  revert leaf acc. induction fuel as [|fuel IH]; intros [p|] acc; simpl;
    try apply readOnly_ret; try apply readOnly_panic.
  apply readOnly_bind; [apply readOnly_getNode|]. intros n.
  apply readOnly_bind; [apply readOnly_gets|]. intros cmp.
  destruct (rangeLeaf _ _ _ _ _ _); [apply IH | apply readOnly_panic].
Qed.

Lemma readOnly_RangeQuery start end_ : readOnly (RangeQuery (K:=K) (V:=V) start end_).
Proof.
  unfold RangeQuery. destruct start, end_; try apply readOnly_ret.
  apply readOnly_bind; [apply readOnly_gets|]. intros cmp.
  destruct (0 <=? _); [apply readOnly_ret|].
  apply readOnly_bind; [apply readOnly_findLeafNode|]. intros leaf.
  apply readOnly_bind; [apply readOnly_gets|]. intros fuel.
  apply readOnly_bind; [apply readOnly_rangeChain|]. intros r. apply readOnly_ret.
Qed.

Lemma readOnly_Search key : readOnly (Search (K:=K) (V:=V) key).
Proof.
  unfold Search. destruct key; [|apply readOnly_ret].
  apply readOnly_bind; [apply readOnly_findLeafNode|]. intros leaf.
  apply readOnly_bind; [apply readOnly_getNode|]. intros l.
  apply readOnly_bind; [apply readOnly_gets|]. intros cmp.
  destruct (findKey _ _ _); [|apply readOnly_ret].
  apply readOnly_bind; [apply readOnly_index|]. intros kv. apply readOnly_ret.
Qed.

Lemma readOnly_leftmostLeaf fuel p : readOnly (leftmostLeaf (K:=K) (V:=V) fuel p).
Proof.
  revert p. induction fuel as [|fuel IH]; intros p; simpl.
  - apply readOnly_panic.
  - apply readOnly_bind; [apply readOnly_getNode|]. intros n.
    destruct (isLeaf n); [apply readOnly_ret|].
    apply readOnly_bind; [apply readOnly_index|]. intros c. apply IH.
Qed.

Lemma readOnly_scanChain fuel leaf acc :
  readOnly (scanChain (K:=K) (V:=V) fuel leaf acc).
Proof.
  revert leaf acc. induction fuel as [|fuel IH]; intros [p|] acc; simpl;
    try apply readOnly_ret; try apply readOnly_panic.
  apply readOnly_bind; [apply readOnly_getNode|]. intros n. apply IH.
Qed.

Lemma readOnly_ScanAll : readOnly (ScanAll (K:=K) (V:=V)).
Proof.
  unfold ScanAll.
  apply readOnly_bind; [apply readOnly_gets|]. intros r.
  apply readOnly_bind; [apply readOnly_gets|]. intros fuel.
  apply readOnly_bind; [apply readOnly_leftmostLeaf|]. intros leaf.
  apply readOnly_scanChain.
Qed.

End ReadOnly.

Section RangeQueryContract.
Context {K V : Type}.
Implicit Types (t : BPlusTree K V).

(** The call was rejected: it returned an error value. *)
Definition rejected {A} (r : option ((A * error) * BPlusTree K V)) : Prop :=
  ∃ a msg t', r = Some ((a, Errorf msg), t').

Lemma RangeQuery_reject t (start end_ : option K) :
  start = None ∨ end_ = None ∨ 0 ≤ comparator t start end_ →
  ∃ msg, RangeQuery start end_ t = Some (([], Errorf msg), t).
Proof.
  intros H. unfold RangeQuery.
  destruct start as [s|]; [destruct end_ as [e|]|]; try (eexists; reflexivity).
  destruct H as [[=]|[[=]|H]].
  rewrite bind_unfold. simpl. apply Z.leb_le in H. rewrite H.
  eexists; reflexivity.
Qed.

Lemma RangeQuery_accept t (start end_ : option K) :
  ¬ (start = None ∨ end_ = None ∨ 0 ≤ comparator t start end_) →
  ¬ rejected (RangeQuery start end_ t).
Proof.
  intros H (a & msg & t' & Hr). apply H. clear H. revert Hr. unfold RangeQuery.
  destruct start as [s|]; [destruct end_ as [e|]|]; auto.
  rewrite bind_unfold. simpl.
  destruct (0 <=? comparator t (Some s) (Some e)) eqn:E.
  { apply Z.leb_le in E. auto. }
  intros (leaf & t1 & _ & H)%bind_Some.
  apply bind_Some in H as (fuel & t2 & _ & H).
  apply bind_Some in H as (r & t3 & _ & H).
  discriminate H.
Qed.

End RangeQueryContract.

(** ** The update path of [Insert]: only one [Value] field changes *)

Section UpdatePath.
Context {K V : Type}.
Implicit Types (t : BPlusTree K V) (l : TreeNode K V) (kv : KeyValue K V).

(** [revalue t leaf f]: the heap of [t] with the [values] of [leaf] changed
    by [f]; keys, children and pointers stay. *)
Definition revalue t (leaf : ptr) (f : list (KeyValue K V) → list (KeyValue K V)) :=
  set_heap (alter (set_values f) leaf) t.

Section Frame.
Variables (t : BPlusTree K V) (leaf : ptr) (f : list (KeyValue K V) → list (KeyValue K V)).





Variable R : relation (KeyValue K V).
Hypothesis R_refl : ∀ x, R x x.
Hypothesis f_R : ∀ l, heap t !! leaf = Some l → Forall2 R (f (values l)) (values l).







End Frame.

(** [Search] finds [key]: the descent reaches a leaf that holds a
    comparator-equal key at index [i], with entry [kv]. *)
Lemma Search_found t key v :
  Search key t = Some ((v, true), t) ↔
  ∃ leaf l i kv,
    key ≠ None ∧ findLeafNode key t = Some (leaf, t) ∧ heap t !! leaf = Some l ∧
    findKey (comparator t) key (keys l) = Some i ∧ values l !! i = Some kv ∧
    Value kv = v.
Proof.
  unfold Search. destruct key as [k|]; [|split; [intros [=]|intros (?&?&?&?&?&_); done]].
  rewrite bind_unfold. split.
  - destruct (findLeafNode _ t) as [[leaf t1]|] eqn:E; [|done].
    pose proof (readOnly_findLeafNode _ _ _ _ E) as ->.
    rewrite bind_unfold. unfold getNode.
    destruct (heap t !! leaf) as [l|] eqn:El; [|done].
    rewrite bind_unfold. simpl.
    destruct (findKey _ _ _) as [i|] eqn:Ei; [|intros [=]].
    rewrite bind_unfold. unfold index. destruct (values l !! i) as [kv|] eqn:Ekv; [|done].
    intros [= <-]. by exists leaf, l, i, kv.
  - intros (leaf & l & i & kv & _ & -> & Hl & Hi & Hkv & <-).
    rewrite bind_unfold. unfold getNode. rewrite Hl.
    rewrite bind_unfold. simpl. rewrite Hi.
    rewrite bind_unfold. unfold index. by rewrite Hkv.
Qed.

(** [Search] does not find [key]. *)
Lemma Search_not_found t key :
  Search key t = Some ((None, false), t) ↔
  key = None ∨
  ∃ leaf l, findLeafNode key t = Some (leaf, t) ∧ heap t !! leaf = Some l ∧
            findKey (comparator t) key (keys l) = None.
Proof.
  unfold Search. destruct key as [k|]; [|split; auto].
  rewrite bind_unfold. split.
  - destruct (findLeafNode _ t) as [[leaf t1]|] eqn:E; [|done].
    pose proof (readOnly_findLeafNode _ _ _ _ E) as ->.
    rewrite bind_unfold. unfold getNode.
    destruct (heap t !! leaf) as [l|] eqn:El; [|done].
    rewrite bind_unfold. simpl.
    destruct (findKey _ _ _) as [i|] eqn:Ei; [|intros _; right; by exists leaf, l].
    rewrite bind_unfold. unfold index. destruct (values l !! i) as [kv|]; [|done].
    intros [=].
  - intros [[=]|(leaf & l & -> & Hl & Hi)].
    rewrite bind_unfold. unfold getNode. rewrite Hl.
    rewrite bind_unfold. simpl. by rewrite Hi.
Qed.

(** The state after [Insert key value] when [Search key] finds the key. *)
Definition updated t (leaf i : nat) kv (value : option V) :=
  revalue t leaf (λ vs, <[i := mkKV (Key kv) value]> vs).

Lemma Insert_update t key leaf l i kv value :
  key ≠ None → findLeafNode key t = Some (leaf, t) → heap t !! leaf = Some l →
  findKey (comparator t) key (keys l) = Some i → values l !! i = Some kv →
  Insert key value t = Some (ErrNil, updated t leaf i kv value).
Proof.
  intros Hk Hf Hl Hi Hkv. unfold Insert. destruct key as [k|]; [|done].
  rewrite bind_unfold, Hf. rewrite bind_unfold. unfold getNode. rewrite Hl.
  rewrite bind_unfold. simpl. rewrite Hi.
  rewrite bind_unfold. unfold index. rewrite Hkv. simpl.
  rewrite bind_unfold. unfold modNode. by rewrite Hl.
Qed.


End UpdatePath.

(** * Claims about one call *)

Section LocalClaims.
Context {K V : Type}.
Implicit Types (t : BPlusTree K V).

(** [RangeQuery(start, end)] is rejected exactly when [start] is nil, [end]
    is nil, or [start ≥ end] under the comparator, and a rejected call returns
    the error with no entries and the tree it was given. *)
Lemma RangeQuery_rejected_iff t (start end_ : option K) :
  (rejected (RangeQuery start end_ t) ↔
     start = None ∨ end_ = None ∨ 0 ≤ comparator t start end_) ∧
  (rejected (RangeQuery start end_ t) ↔
     ∃ msg, RangeQuery start end_ t = Some (([], Errorf msg), t)).
Proof.
  assert (rejected (RangeQuery start end_ t) →
          start = None ∨ end_ = None ∨ 0 ≤ comparator t start end_) as Hnec.
  { intros Hr. destruct (decide (start = None)) as [|Hs]; [auto|].
    destruct (decide (end_ = None)) as [|He]; [auto|].
    destruct (decide (0 ≤ comparator t start end_)) as [|Hc]; [auto|].
    exfalso. revert Hr. apply RangeQuery_accept. by intros [?|[?|?]]. }
  split; split; [done| |by intros ?%Hnec%RangeQuery_reject|].
  - intros H. destruct (RangeQuery_reject t start end_ H) as [msg Hm].
    by exists [], msg, t.
  - intros [msg Hm]. by exists [], msg, t.
Qed.




End LocalClaims.

(** * The invariant holds on every reachable tree *)

Section Shape.
Context {K V : Type}.
Implicit Types (h : list (TreeNode K V)) (t : BPlusTree K V) (n : TreeNode K V).
Implicit Types (p q c : ptr) (A B L : list ptr) (all : list (list ptr)).

Lemma NoDup_bounded_length (l : list nat) (n : nat) :
  NoDup l → (∀ x, x ∈ l → (x < n)%nat) → (length l ≤ n)%nat.
Proof.
  intros Hnd Hlt. trans (length (seq 0 n)); [|by rewrite length_seq].
  apply submseteq_length, NoDup_submseteq; [done|].
  intros x Hx. apply elem_of_seq. specialize (Hlt x Hx). lia.
Qed.

Lemma last_lookup_None {X} (l : list X) (d : X) i x :
  l !! i = Some x → l !! S i = None → List.last l d = x.
Proof.
  revert i. induction l as [|y l IH]; intros i Hi Hn; [done|].
  destruct i as [|i]; simpl in *.
  - simplify_eq. by destruct l.
  - destruct l as [|z l]; [done|]. by apply (IH i).
Qed.

Lemma last_elem_of {X} (l : list X) (d : X) : l ≠ [] → List.last l d ∈ l.
Proof.
  induction l as [|y l IH]; [done|]. intros _. destruct l as [|z l].
  - simpl. apply list_elem_of_here.
  - apply list_elem_of_further. by apply IH.
Qed.

Section Levels.
Variables (h : list (TreeNode K V)) (all : list (list ptr)).
Hypothesis Hlv : levelsOK h all.

Lemma level_leaf i A p :
  all !! i = Some A → all !! S i = None → p ∈ A → leafAt h p.
Proof.
  intros Hi Hn Hp. specialize (Hlv i A Hi). rewrite Hn in Hlv.
  rewrite Forall_forall in Hlv. auto.
Qed.

Lemma level_inner i A B p :
  all !! i = Some A → all !! S i = Some B → p ∈ A →
  innerAt h p ∧ B = A ≫= kids h.
Proof.
  intros Hi Hn Hp. specialize (Hlv i A Hi). rewrite Hn in Hlv.
  destruct Hlv as [Hf ->]. split; [|done]. rewrite Forall_forall in Hf. auto.
Qed.

Lemma level_node i A p :
  all !! i = Some A → p ∈ A → leafAt h p ∨ innerAt h p.
Proof.
  intros Hi Hp. destruct (all !! S i) as [B|] eqn:E.
  - right. by destruct (level_inner i A B p Hi E Hp).
  - left. by eapply level_leaf.
Qed.

Lemma level_lookup i A p : all !! i = Some A → p ∈ A → is_Some (h !! p).
Proof.
  intros Hi Hp. destruct (level_node i A p Hi Hp) as [(n&?&_)|(n&?&_)]; eauto.
Qed.

Lemma node_lookup p : p ∈ mjoin all → is_Some (h !! p).
Proof.
  intros (A & Hp & HA)%list_elem_of_join.
  apply list_elem_of_lookup in HA as [i Hi]. by eapply level_lookup.
Qed.

Lemma node_kind p : p ∈ mjoin all → leafAt h p ∨ innerAt h p.
Proof.
  intros (A & Hp & HA)%list_elem_of_join.
  apply list_elem_of_lookup in HA as [i Hi]. by eapply level_node.
Qed.

Lemma kids_child i A B p c :
  all !! i = Some A → all !! S i = Some B → p ∈ A → c ∈ kids h p → c ∈ B.
Proof.
  intros Hi Hn Hp Hc. destruct (level_inner i A B p Hi Hn Hp) as [_ ->].
  apply list_elem_of_bind. eauto.
Qed.

Lemma level_nonempty i A : all !! 0%nat ≠ Some [] → all !! i = Some A → A ≠ [].
Proof.
  intros H0. revert A. induction i as [|i IH]; intros A Hi; [congruence|].
  destruct (all !! i) as [P|] eqn:EP.
  2:{ apply lookup_lt_Some in Hi. apply lookup_ge_None in EP. lia. }
  specialize (IH P eq_refl). destruct P as [|p P]; [done|].
  destruct (level_inner i (p :: P) A p EP Hi) as [(n & Hn & _ & Har) ->];
    [apply list_elem_of_here|].
  rewrite bind_cons. unfold kids at 1. rewrite Hn. simpl.
  destruct (children n); [done|discriminate].
Qed.

End Levels.

Lemma leafLevel_lookup all i A :
  all !! i = Some A → all !! S i = None → leafLevel all = A.
Proof. apply last_lookup_None. Qed.

Lemma leafLevel_elem all : all ≠ [] → leafLevel all ∈ all.
Proof. apply last_elem_of. Qed.

Section WFfacts.
Variables (under : option ptr) (t : BPlusTree K V) (all : list (list ptr)).
Hypothesis Hwf : Shape under (heap t) (root t) all.

Lemma wf_nonempty i A : all !! i = Some A → A ≠ [].
Proof.
  eapply level_nonempty; [apply Hwf|]. by rewrite (sh_top _ _ _ _ Hwf).
Qed.

Lemma wf_all_nonempty : all ≠ [].
Proof. pose proof (sh_top _ _ _ _ Hwf). by destruct all. Qed.

Lemma wf_node_lt p : p ∈ mjoin all → (p < length (heap t))%nat.
Proof.
  intros Hp. destruct (node_lookup _ _ (sh_levels _ _ _ _ Hwf) p Hp) as [n Hn].
  by eapply lookup_lt_Some.
Qed.

Lemma wf_nodes_bounded : (length (mjoin all) ≤ length (heap t))%nat.
Proof. apply NoDup_bounded_length; [apply Hwf|apply wf_node_lt]. Qed.

Lemma wf_depth_bounded : (length all ≤ length (heap t))%nat.
Proof.
  etrans; [|apply wf_nodes_bounded].
  assert (∀ A, A ∈ all → A ≠ []) as Hne.
  { intros A [i Hi]%list_elem_of_lookup. by eapply wf_nonempty. }
  clear Hwf. induction all as [|A l IH]; [done|]. simpl. rewrite length_app.
  assert (A ≠ []) by (apply Hne; left).
  destruct A; [done|]. simpl.
  assert (length l ≤ length (mjoin l))%nat; [|lia].
  apply IH. intros B HB. apply Hne. by right.
Qed.

Lemma wf_leafLevel_bounded : (length (leafLevel all) ≤ length (heap t))%nat.
Proof.
  etrans; [|apply wf_nodes_bounded].
  pose proof (leafLevel_elem all wf_all_nonempty) as Hin.
  apply list_elem_of_split in Hin as (l1 & l2 & Heq). rewrite Heq at 2.
  rewrite join_app, length_app. simpl. rewrite length_app. lia.
Qed.

Lemma findLeafFrom_ok fuel key i A p :
  all !! i = Some A → p ∈ A → (length all - i ≤ fuel)%nat →
  ∃ leaf, findLeafFrom fuel p key t = Some (leaf, t) ∧ leaf ∈ leafLevel all.
Proof.
  revert i A p. induction fuel as [|fuel IH]; intros i A p Hi Hp Hfuel.
  { apply lookup_lt_Some in Hi. lia. }
  simpl. rewrite bind_unfold. destruct (all !! S i) as [B|] eqn:EB.
  - destruct (level_inner _ _ (sh_levels _ _ _ _ Hwf) i A B p Hi EB Hp)
      as [(n & Hn & Hleaf & Har) HB].
    rewrite (getNode_lookup _ _ _ Hn), Hleaf.
    rewrite bind_unfold. simpl. rewrite bind_unfold.
    set (idx := if (length (children n) <=? _)%nat then _ else _).
    assert (idx < length (children n))%nat as Hidx.
    { subst idx. destruct (Nat.leb_spec (length (children n))
        (routeIndex (comparator t) key (keys n))); lia. }
    apply lookup_lt_is_Some in Hidx as [c Hc].
    unfold index. rewrite Hc. simpl.
    apply (IH (S i) B c); [done| |lia].
    apply (kids_child _ _ (sh_levels _ _ _ _ Hwf) i A B p c Hi EB Hp).
    unfold kids. rewrite Hn. simpl. by eapply list_elem_of_lookup_2.
  - destruct (level_leaf _ _ (sh_levels _ _ _ _ Hwf) i A p Hi EB Hp)
      as (n & Hn & Hleaf & _).
    rewrite (getNode_lookup _ _ _ Hn), Hleaf. simpl.
    exists p. split; [done|]. by rewrite (leafLevel_lookup all i A).
Qed.

Lemma findLeafNode_ok key :
  ∃ leaf, findLeafNode key t = Some (leaf, t) ∧ leaf ∈ leafLevel all.
Proof.
  unfold findLeafNode. rewrite !bind_unfold. simpl. rewrite bind_unfold. simpl.
  apply (findLeafFrom_ok _ key 0 [root t]); [apply Hwf|apply list_elem_of_here|].
  pose proof wf_depth_bounded. lia.
Qed.

Lemma leftmostLeaf_ok fuel i p A :
  all !! i = Some (p :: A) → (length all - i ≤ fuel)%nat →
  ∃ l L, leafLevel all = l :: L ∧ leftmostLeaf fuel p t = Some (l, t).
Proof.
  revert i A p. induction fuel as [|fuel IH]; intros i A p Hi Hfuel.
  { apply lookup_lt_Some in Hi. lia. }
  simpl. rewrite bind_unfold. destruct (all !! S i) as [B|] eqn:EB.
  - destruct (level_inner _ _ (sh_levels _ _ _ _ Hwf) i _ B p Hi EB)
      as [(n & Hn & Hleaf & Har) HB]; [apply list_elem_of_here|].
    rewrite (getNode_lookup _ _ _ Hn), Hleaf. rewrite bind_unfold.
    destruct (children n) as [|c cs] eqn:Ecs; [done|]. simpl.
    apply (IH (S i) (cs ++ A ≫= kids (heap t)) c); [|lia].
    rewrite EB, HB, bind_cons. unfold kids at 1. rewrite Hn. simpl. by rewrite Ecs.
  - destruct (level_leaf _ _ (sh_levels _ _ _ _ Hwf) i _ p Hi EB)
      as (n & Hn & Hleaf & _); [apply list_elem_of_here|].
    rewrite (getNode_lookup _ _ _ Hn), Hleaf. simpl.
    exists p, A. by rewrite (leafLevel_lookup all i (p :: A)).
Qed.

Lemma scanChain_ok fuel L acc :
  chainOK (heap t) L None → (length L ≤ fuel)%nat →
  scanChain fuel (hdOr None L) acc t = Some (acc ++ entries (heap t) L, t).
Proof.
  revert fuel acc. induction L as [|l L IH]; intros fuel acc Hc Hfuel; simpl.
  { destruct fuel; simpl; by rewrite app_nil_r. }
  destruct fuel as [|fuel]; [simpl in Hfuel; lia|]. simpl.
  destruct Hc as [(n & Hn & Hnext) Hc].
  rewrite bind_unfold, (getNode_lookup _ _ _ Hn), Hnext.
  rewrite IH by (done || simpl in Hfuel; lia).
  unfold vals. rewrite Hn. simpl. by rewrite app_assoc.
Qed.

Lemma ScanAll_ok : ScanAll t = Some (entries (heap t) (leafLevel all), t).
Proof.
  unfold ScanAll. rewrite !bind_unfold. simpl. rewrite bind_unfold. simpl.
  rewrite bind_unfold.
  destruct (leftmostLeaf_ok (length (heap t)) 0 (root t) [])
    as (l & L & HL & ->); [apply Hwf|pose proof wf_depth_bounded; lia|].
  pose proof (scanChain_ok (length (heap t)) (leafLevel all) []
                (sh_chain _ _ _ _ Hwf) wf_leafLevel_bounded) as Hs.
  rewrite HL in Hs at 1. apply Hs.
Qed.

End WFfacts.

End Shape.

(** ** List surgery used by splits and merges *)

Section ListSurgery.
Context {X : Type} `{EqDecision X}.
Implicit Types (l : list X) (x y : X).

(** [l] with [y] inserted right after the first occurrence of [x]. *)
Fixpoint insertAfter x y l : list X :=
  match l with
  | [] => []
  | z :: l' => if decide (z = x) then z :: y :: l' else z :: insertAfter x y l'
  end.

(** [l] without the occurrences of [x]. *)
Definition without x l : list X := filter (λ z, z ≠ x) l.

Lemma insertAfter_app_l x y l1 l2 :
  x ∈ l1 → insertAfter x y (l1 ++ l2) = insertAfter x y l1 ++ l2.
Proof.
  induction l1 as [|z l1 IH]; intros Hx; [by apply elem_of_nil in Hx|].
  simpl. destruct (decide (z = x)); [done|].
  apply elem_of_cons in Hx as [->|Hx]; [done|]. by rewrite IH.
Qed.

Lemma insertAfter_app_r x y l1 l2 :
  x ∉ l1 → insertAfter x y (l1 ++ l2) = l1 ++ insertAfter x y l2.
Proof.
  induction l1 as [|z l1 IH]; intros Hx; [done|].
  simpl. apply not_elem_of_cons in Hx as [Hne Hx].
  destruct (decide (z = x)); [done|]. by rewrite IH.
Qed.

Lemma insertAfter_notin x y l : x ∉ l → insertAfter x y l = l.
Proof.
  intros Hx. rewrite <-(app_nil_r l) at 1. rewrite insertAfter_app_r by done.
  by rewrite app_nil_r.
Qed.

Lemma insertAfter_middle x y l1 l2 :
  x ∉ l1 → insertAfter x y (l1 ++ x :: l2) = l1 ++ x :: y :: l2.
Proof. intros Hx. rewrite insertAfter_app_r by done. simpl. by rewrite decide_True. Qed.

Lemma insertAfter_Permutation x y l : x ∈ l → insertAfter x y l ≡ₚ y :: l.
Proof.
  induction l as [|z l IH]; intros Hx; [by apply elem_of_nil in Hx|].
  simpl. destruct (decide (z = x)) as [->|Hne].
  - apply Permutation_swap.
  - apply elem_of_cons in Hx as [->|Hx]; [done|].
    rewrite IH by done. apply Permutation_swap.
Qed.

Lemma insertAfter_length x y l : x ∈ l → length (insertAfter x y l) = S (length l).
Proof. intros Hx. by rewrite (insertAfter_Permutation x y l Hx). Qed.

Lemma elem_of_insertAfter x y l z :
  x ∈ l → z ∈ insertAfter x y l ↔ z = y ∨ z ∈ l.
Proof. intros Hx. rewrite (insertAfter_Permutation x y l Hx). apply elem_of_cons. Qed.

Lemma bind_ext_in {Z Y} (f g : Z → list Y) (l : list Z) :
  (∀ z, z ∈ l → f z = g z) → l ≫= f = l ≫= g.
Proof.
  induction l as [|z l IH]; intros Hfg; [done|].
  rewrite !bind_cons, Hfg by left. f_equal. apply IH. intros w Hw. apply Hfg. by right.
Qed.

(** Splitting one element of [l] in two keeps the concatenation when the
    two parts make up the original. *)
Lemma bind_insertAfter_split {Y} (f f' : X → list Y) x y l :
  NoDup l → x ∈ l → f' x ++ f' y = f x →
  (∀ z, z ∈ l → z ≠ x → f' z = f z) →
  insertAfter x y l ≫= f' = l ≫= f.
Proof.
  induction l as [|z l IH]; intros Hnd Hx Hxy Hf; [done|].
  apply NoDup_cons in Hnd as [Hz Hnd]. simpl.
  destruct (decide (z = x)) as [->|Hne].
  - rewrite !bind_cons, (assoc_L (++)), Hxy. f_equal.
    apply bind_ext_in. intros w Hw.
    apply Hf; [by right|]. intros ->. done.
  - apply elem_of_cons in Hx as [->|Hx]; [done|].
    rewrite !bind_cons, Hf by (done || left). f_equal.
    apply IH; auto. intros w Hw. apply Hf. by right.
Qed.

(** Inserting after [x] inside the image of one element. *)
Lemma bind_insertAfter {Z} `{EqDecision Z} (g g' : Z → list X)
    (w : Z) x y (l : list Z) :
  NoDup (l ≫= g) → w ∈ l → x ∈ g w → g' w = insertAfter x y (g w) →
  (∀ z, z ∈ l → z ≠ w → g' z = g z) →
  l ≫= g' = insertAfter x y (l ≫= g).
Proof.
  induction l as [|z l IH]; intros Hnd Hw Hx Hg' Hg; [by apply elem_of_nil in Hw|].
  rewrite !bind_cons in *. apply NoDup_app in Hnd as (Hnd1 & Hdisj & Hnd2).
  destruct (decide (z = w)) as [->|Hne].
  - rewrite Hg', insertAfter_app_l by done. f_equal.
    apply bind_ext_in. intros u Hu. apply Hg; [by right|].
    intros ->. apply (Hdisj x Hx). apply list_elem_of_bind. eauto.
  - apply elem_of_cons in Hw as [->|Hw]; [done|].
    rewrite Hg by (done || left). rewrite insertAfter_app_r.
    + f_equal. apply IH; auto. intros u Hu. apply Hg. by right.
    + intros Hxz. apply (Hdisj x Hxz). apply list_elem_of_bind. eauto.
Qed.

Lemma without_notin x l : x ∉ l → without x l = l.
Proof.
  intros Hx. unfold without. induction l as [|z l IH]; [done|].
  apply not_elem_of_cons in Hx as [Hne Hx].
  rewrite filter_cons_True by done. by rewrite IH.
Qed.

Lemma without_app x l1 l2 : without x (l1 ++ l2) = without x l1 ++ without x l2.
Proof. apply filter_app. Qed.

Lemma without_middle x l1 l2 :
  x ∉ l1 → x ∉ l2 → without x (l1 ++ x :: l2) = l1 ++ l2.
Proof.
  intros H1 H2. rewrite without_app. unfold without at 2.
  rewrite filter_cons_False by (by intros ?).
  fold (without x l2). by rewrite !without_notin.
Qed.

Lemma elem_of_without x l z : z ∈ without x l ↔ z ∈ l ∧ z ≠ x.
Proof. unfold without. rewrite list_elem_of_filter. tauto. Qed.

Lemma NoDup_without x l : NoDup l → NoDup (without x l).
Proof. apply NoDup_filter. Qed.

Lemma without_length x l :
  NoDup l → x ∈ l → S (length (without x l)) = length l.
Proof.
  intros Hnd Hx. apply list_elem_of_split in Hx as (l1 & l2 & ->).
  apply NoDup_app in Hnd as (_ & Hd & Hnd2). apply NoDup_cons in Hnd2 as [Hx2 _].
  rewrite without_middle; [|intros ?; eapply Hd; eauto; left|done].
  rewrite !length_app. simpl. lia.
Qed.

(** Removing [x] inside the image of one element. *)
Lemma bind_without {Z} (g g' : Z → list X) (w : Z) x (l : list Z) :
  NoDup (l ≫= g) → NoDup l → w ∈ l → x ∈ g w → g' w = without x (g w) →
  (∀ z, z ∈ l → z ≠ w → g' z = g z) →
  l ≫= g' = without x (l ≫= g).
Proof.
  induction l as [|z l IH]; intros Hnd Hndl Hw Hx Hg' Hg; [by apply elem_of_nil in Hw|].
  rewrite !bind_cons in *. apply NoDup_app in Hnd as (Hnd1 & Hdisj & Hnd2).
  apply NoDup_cons in Hndl as [Hzl Hndl]. rewrite without_app.
  apply elem_of_cons in Hw as [->|Hw].
  - rewrite Hg'. f_equal. rewrite without_notin.
    + apply bind_ext_in. intros u Hu. apply Hg; [by right|].
      intros ->. done.
    + by apply Hdisj.
  - assert (z ≠ w) by (intros ->; done).
    rewrite Hg by (done || left). rewrite (without_notin x (g z)).
    + f_equal. apply IH; auto. intros u Hu. apply Hg. by right.
    + intros Hxz. apply (Hdisj x Hxz). apply list_elem_of_bind. eauto.
Qed.

Lemma removeAt_without l i x :
  NoDup l → l !! i = Some x → removeAt i l = without x l.
Proof.
  intros Hnd Hi. unfold removeAt.
  rewrite <-(take_drop_middle l i x Hi) at 3.
  rewrite <-(take_drop_middle l i x Hi) in Hnd.
  apply NoDup_app in Hnd as (_ & Hd & Hnd2). apply NoDup_cons in Hnd2 as [Hx2 _].
  rewrite without_middle; [done| |done]. intros ?. eapply Hd; eauto. left.
Qed.

End ListSurgery.

Section ListPos.
Implicit Types (cs : list ptr) (p : ptr).

Lemma childPos_Some p cs i :
  childPos p cs = Some i → cs !! i = Some p ∧ p ∉ take i cs.
Proof.
  revert i. induction cs as [|c cs IH]; intros i; simpl; [done|].
  destruct (Nat.eqb_spec c p) as [->|Hne].
  - intros [= <-]. split; [done|]. simpl. apply not_elem_of_nil.
  - destruct (childPos p cs) as [j|] eqn:E; [|done]. simpl. intros [= <-].
    destruct (IH j eq_refl) as [H1 H2]. split; [done|]. simpl.
    by apply not_elem_of_cons.
Qed.

Lemma childPos_elem p cs : p ∈ cs → is_Some (childPos p cs).
Proof.
  induction cs as [|c cs IH]; intros Hp; [by apply elem_of_nil in Hp|].
  simpl. destruct (Nat.eqb_spec c p) as [->|Hne]; [eauto|].
  apply elem_of_cons in Hp as [->|Hp]; [done|].
  destruct (IH Hp) as [j ->]. simpl. eauto.
Qed.

Lemma childPos_insertAt p (a : ptr) cs i :
  childPos p cs = Some i → insertAt (S i) a cs = insertAfter p a cs.
Proof.
  revert i. induction cs as [|c cs IH]; intros i; simpl; [done|].
  unfold insertAt in *. destruct (Nat.eqb_spec c p) as [->|Hne].
  - intros [= <-]. simpl. by rewrite decide_True by done.
  - destruct (childPos p cs) as [j|] eqn:E; [|done]. simpl. intros [= <-].
    rewrite decide_False by done. simpl. f_equal. by apply IH.
Qed.

Lemma scanPos_lookup p cs : p ∈ cs → cs !! scanPos p cs = Some p ∧ p ∉ take (scanPos p cs) cs.
Proof.
  induction cs as [|c cs IH]; intros Hp; [by apply elem_of_nil in Hp|].
  simpl. destruct (Nat.eqb_spec c p) as [->|Hne].
  - split; [done|]. simpl. apply not_elem_of_nil.
  - apply elem_of_cons in Hp as [->|Hp]; [done|].
    destruct (IH Hp). split; [done|]. simpl. by apply not_elem_of_cons.
Qed.

End ListPos.

Section Frames.
Context {K V : Type}.
Implicit Types (h : list (TreeNode K V)) (t : BPlusTree K V) (n : TreeNode K V).
Implicit Types (p q c : ptr) (A B L : list ptr) (all : list (list ptr)).

Lemma hdOr_app nxt X Y : hdOr nxt (X ++ Y) = hdOr (hdOr nxt Y) X.
Proof. by destruct X. Qed.

Lemma chainOK_app h X Y nxt :
  chainOK h (X ++ Y) nxt ↔ chainOK h X (hdOr nxt Y) ∧ chainOK h Y nxt.
Proof.
  induction X as [|x X IH]; simpl; [tauto|].
  rewrite IH, hdOr_app. tauto.
Qed.

Lemma chainOK_frame h h' L nxt :
  (∀ l n, l ∈ L → h !! l = Some n → ∃ n', h' !! l = Some n' ∧ next n' = next n) →
  chainOK h L nxt → chainOK h' L nxt.
Proof.
  induction L as [|l L IH]; intros Hf; simpl; [done|].
  intros [(n & Hn & Hnext) Hc]. split.
  - destruct (Hf l n) as (n' & Hn' & Hnext'); [left|done|].
    exists n'. split; [done|congruence].
  - apply IH; [|done]. intros l0 n0 Hl0. apply Hf. by right.
Qed.

(** Two nodes with the same place in the tree: only keys and entries may
    differ, the number of separators of an Internal node is kept, and a Leaf
    keeps its keys in step with its entries. *)
Definition sameLinks n n' : Prop :=
  isLeaf n' = isLeaf n ∧ children n' = children n ∧ parent n' = parent n ∧
  next n' = next n ∧
  (isLeaf n = false → length (keys n') = length (keys n)) ∧
  (isLeaf n = true → Key <$> values n = keys n → Key <$> values n' = keys n').

Lemma sameLinks_refl n : sameLinks n n.
Proof. repeat split; auto. Qed.

Lemma Shape_frame under h h' r all :
  Shape under h r all →
  (∀ q n, q ∈ mjoin all → h !! q = Some n → ∃ n', h' !! q = Some n' ∧ sameLinks n n') →
  Shape under h' r all.
Proof.
  intros [Htop Hlv Hnd Hroot Hpar Hchain Hkeys] Hf.
  assert (∀ i A q, all !! i = Some A → q ∈ A → q ∈ mjoin all) as Hin.
  { intros i A q Hi Hq. apply list_elem_of_join. exists A. split; [done|].
    by eapply list_elem_of_lookup_2. }
  assert (∀ q, q ∈ mjoin all → kids h' q = kids h q) as Hkids.
  { intros q Hq. destruct (node_lookup _ _ Hlv q Hq) as [n Hn].
    destruct (Hf q n Hq Hn) as (n' & Hn' & _ & Hc & _).
    unfold kids. by rewrite Hn, Hn'. }
  assert (∀ q, q ∈ mjoin all → parentOf h' q = parentOf h q) as Hpo.
  { intros q Hq. destruct (node_lookup _ _ Hlv q Hq) as [n Hn].
    destruct (Hf q n Hq Hn) as (n' & Hn' & _ & _ & Hc & _).
    unfold parentOf. rewrite Hn, Hn'. simpl. by rewrite Hc. }
  assert (r ∈ mjoin all) as Hrin by (apply (Hin 0%nat [r] r Htop); left).
  split; try done.
  - intros i A Hi. specialize (Hlv i A Hi).
    destruct (all !! S i) as [B|] eqn:EB.
    + destruct Hlv as [Hinner HB]. split.
      * rewrite Forall_forall in Hinner |- *. intros q Hq.
        destruct (Hinner q Hq) as (n & Hn & Hleaf & Har).
        destruct (Hf q n (Hin _ _ _ Hi Hq) Hn) as (n' & Hn' & Hl' & Hc' & _ & _ & Hk' & _).
        exists n'. split; [done|]. split; [congruence|].
        rewrite Hc', Hk' by done. done.
      * rewrite HB. symmetry. apply bind_ext_in. intros q Hq. apply Hkids. eauto.
    + rewrite Forall_forall in Hlv |- *. intros q Hq.
      destruct (Hlv q Hq) as (n & Hn & Hleaf & Hcs & Hkv).
      destruct (Hf q n (Hin _ _ _ Hi Hq) Hn) as (n' & Hn' & Hl' & Hc' & _ & _ & _ & Hkv').
      exists n'. split; [done|]. split; [congruence|]. split; [congruence|]. by apply Hkv'.
  - by rewrite Hpo.
  - intros q c Hq Hc. rewrite Hkids in Hc by done.
    pose proof (Hpar q c Hq Hc) as Hpc. rewrite <-Hpc.
    unfold parentOf in Hpc |- *. destruct (h !! c) as [cn|] eqn:Ecn; [|done].
    destruct (h' !! c) as [cn'|] eqn:Ecn'.
    2:{ exfalso. assert (c ∈ mjoin all) as Hcin; [|by destruct (Hf c cn Hcin Ecn) as (?&?&_); simplify_eq].
        apply list_elem_of_join in Hq as (A & HqA & HA).
        apply list_elem_of_lookup in HA as [i Hi].
        pose proof (Hlv i A Hi) as Hl. destruct (all !! S i) as [B|] eqn:EB.
        - destruct Hl as [_ ->]. apply (Hin (S i) _ c EB). apply list_elem_of_bind. eauto.
        - rewrite Forall_forall in Hl. destruct (Hl q HqA) as (n & Hn & _ & Hcs & _).
          unfold kids in Hc. rewrite Hn in Hc. simpl in Hc. rewrite Hcs in Hc.
          by apply elem_of_nil in Hc. }
    simpl. f_equal.
    assert (c ∈ mjoin all) as Hcin.
    { apply list_elem_of_join in Hq as (A & HqA & HA).
      apply list_elem_of_lookup in HA as [i Hi].
      pose proof (Hlv i A Hi) as Hl. destruct (all !! S i) as [B|] eqn:EB.
      - destruct Hl as [_ ->]. apply (Hin (S i) _ c EB). apply list_elem_of_bind. eauto.
      - rewrite Forall_forall in Hl. destruct (Hl q HqA) as (n & Hn & _ & Hcs & _).
        unfold kids in Hc. rewrite Hn in Hc. simpl in Hc. rewrite Hcs in Hc.
        by apply elem_of_nil in Hc. }
    destruct (Hf c cn Hcin Ecn) as (cn2 & Hcn2 & _ & _ & Hp2 & _). by simplify_eq.
  - eapply chainOK_frame; [|done]. intros l n Hl Hn.
    destruct (Hf l n) as (n' & Hn' & _ & _ & _ & Hnx & _); [|done|eauto].
    apply list_elem_of_join. exists (leafLevel all). split; [done|].
    apply leafLevel_elem. intros ->. done.
  - intros p n' Hp Hn' Hleaf Hu.
    destruct (node_lookup _ _ Hlv p Hp) as [n Hn].
    destruct (Hf p n Hp Hn) as (n2 & Hn2 & Hl2 & _ & _ & _ & Hk2 & _).
    simplify_eq. rewrite Hl2 in Hleaf. rewrite Hk2 by done. by eapply Hkeys.
Qed.

(** In-place change of one node that keeps its links. *)
Lemma Shape_alter under h r all p g :
  Shape under h r all →
  (∀ n, h !! p = Some n → sameLinks n (g n)) →
  Shape under (alter g p h) r all.
Proof.
  intros Hs Hg. eapply Shape_frame; [done|]. intros q n Hq Hn.
  destruct (decide (p = q)) as [->|Hne].
  - exists (g n). rewrite list_lookup_alter_eq, Hn. split; [done|]. by apply Hg.
  - exists n. rewrite list_lookup_alter_ne by done. split; [done|apply sameLinks_refl].
Qed.

(** Entries of a level after an in-place change of one of its leaves. *)
Lemma entries_alter_length h L p g n :
  NoDup L → p ∈ L → h !! p = Some n →
  (length (entries (alter g p h) L) + length (values n) =
   length (entries h L) + length (values (g n)))%nat.
Proof.
  intros Hnd Hp Hn. apply list_elem_of_split in Hp as (L1 & L2 & ->).
  apply NoDup_app in Hnd as (_ & Hd & Hnd2). apply NoDup_cons in Hnd2 as [Hp2 _].
  unfold entries. rewrite !bind_app, !bind_cons, !length_app.
  assert (∀ X, p ∉ X → X ≫= vals (alter g p h) = X ≫= vals h) as Hext.
  { intros X HX. apply bind_ext_in. intros q Hq. unfold vals.
    rewrite list_lookup_alter_ne; [done|]. intros ->. done. }
  rewrite !Hext; [|done|intros ?; eapply Hd; eauto; left].
  unfold vals at 2 5. rewrite list_lookup_alter_eq, Hn. simpl. lia.
Qed.

Lemma entries_alter_split h L1 p L2 g n :
  NoDup (L1 ++ p :: L2) → h !! p = Some n →
  entries h (L1 ++ p :: L2) = entries h L1 ++ values n ++ entries h L2 ∧
  entries (alter g p h) (L1 ++ p :: L2) = entries h L1 ++ values (g n) ++ entries h L2.
Proof.
  intros Hnd Hn.
  apply NoDup_app in Hnd as (_ & Hd & Hnd2). apply NoDup_cons in Hnd2 as [Hp2 _].
  unfold entries. rewrite !bind_app, !bind_cons.
  assert (∀ X, p ∉ X → X ≫= vals (alter g p h) = X ≫= vals h) as Hext.
  { intros X HX. apply bind_ext_in. intros q Hq. unfold vals.
    rewrite list_lookup_alter_ne; [done|]. intros ->. done. }
  rewrite !Hext; [|done|intros ?; eapply Hd; eauto; left].
  assert (vals h p = values n) as -> by (unfold vals; by rewrite Hn).
  assert (vals (alter g p h) p = values (g n)) as ->.
  { unfold vals. by rewrite list_lookup_alter_eq, Hn. }
  done.
Qed.

Lemma entries_alter_other h L p g :
  p ∉ L → entries (alter g p h) L = entries h L.
Proof.
  intros Hp. apply bind_ext_in. intros q Hq. unfold vals.
  rewrite list_lookup_alter_ne; [done|]. intros ->. done.
Qed.

Lemma entries_alter_same h L p g :
  (∀ n, h !! p = Some n → values (g n) = values n) →
  entries (alter g p h) L = entries h L.
Proof.
  intros Hg. apply bind_ext_in. intros q Hq. unfold vals.
  destruct (decide (p = q)) as [->|Hne].
  - rewrite list_lookup_alter_eq. destruct (h !! q) as [n|] eqn:E; [|done].
    simpl. by apply Hg.
  - by rewrite list_lookup_alter_ne.
Qed.

End Frames.

Section LevelLists.
Implicit Types (X Y : list ptr) (all : list (list ptr)).

Lemma level_in all i X x : all !! i = Some X → x ∈ X → x ∈ mjoin all.
Proof.
  intros Hi Hx. apply list_elem_of_join. exists X. split; [done|].
  by eapply list_elem_of_lookup_2.
Qed.

End LevelLists.

(** [q ∈ mjoin all] from a level that holds [q]. *)
Ltac solve_in :=
  lazymatch goal with
  | |- ?q ∈ mjoin ?all =>
      match goal with
      | H1 : all !! _ = Some ?X, H2 : q ∈ ?X |- _ =>
          exact (level_in all _ X q H1 H2)
      end
  end.

Section LevelLists2.
Implicit Types (X Y : list ptr) (all : list (list ptr)).

Lemma levels_NoDup all i X : NoDup (mjoin all) → all !! i = Some X → NoDup X.
Proof.
  intros Hnd Hi. rewrite <-(take_drop_middle all i X Hi), join_app in Hnd.
  simpl in Hnd. apply NoDup_app in Hnd as (_ & _ & Hnd).
  by apply NoDup_app in Hnd as (Hnd & _).
Qed.

Lemma levels_disjoint all i k X Y x :
  NoDup (mjoin all) → all !! i = Some X → all !! k = Some Y →
  x ∈ X → x ∈ Y → i = k.
Proof.
  revert i k. induction all as [|Z all IH]; intros i k Hnd Hi Hk HX HY; [done|].
  simpl in Hnd. apply NoDup_app in Hnd as (_ & Hd & Hnd).
  destruct i as [|i], k as [|k]; simpl in *; simplify_eq; auto.
  - exfalso. apply (Hd x HX). by eapply level_in.
  - exfalso. apply (Hd x HY). by eapply level_in.
Qed.

Lemma lookup_level_insert all i X' k :
  (i < length all)%nat →
  (<[i := X']> all) !! k = if decide (k = i) then Some X' else all !! k.
Proof.
  intros Hi. destruct (decide (k = i)) as [->|Hne].
  - by apply list_lookup_insert_eq.
  - by apply list_lookup_insert_ne.
Qed.

Lemma mjoin_insert_Permutation all i X X' y :
  all !! i = Some X → X' ≡ₚ y :: X →
  mjoin (<[i := X']> all) ≡ₚ y :: mjoin all.
Proof.
  intros Hi HX. rewrite <-(take_drop_middle all i X Hi) at 2.
  rewrite insert_take_drop by (by eapply lookup_lt_Some).
  rewrite !join_app. simpl. rewrite HX. simpl.
  symmetry. apply Permutation_middle.
Qed.

Lemma mjoin_insert_subseteq all i X X' x :
  all !! i = Some X → X' ⊆ X → x ∈ mjoin (<[i := X']> all) → x ∈ mjoin all.
Proof.
  intros Hi HX. rewrite <-(take_drop_middle all i X Hi) at 2.
  rewrite insert_take_drop by (by eapply lookup_lt_Some).
  rewrite !join_app. simpl. rewrite !elem_of_app.
  intros [?|[?|?]]; auto.
Qed.

Lemma mjoin_insert_NoDup all i X X' :
  all !! i = Some X → NoDup X' → X' ⊆ X →
  NoDup (mjoin all) → NoDup (mjoin (<[i := X']> all)).
Proof.
  intros Hi HX' Hsub. rewrite <-(take_drop_middle all i X Hi) at 1.
  rewrite insert_take_drop by (by eapply lookup_lt_Some).
  rewrite !join_app. simpl. rewrite !NoDup_app.
  intros (H1 & H2 & H3 & H4 & H5). split; [done|]. split.
  { intros x Hx. specialize (H2 x Hx). rewrite elem_of_app in *.
    intros [?|?]; apply H2; auto. }
  split; [done|]. split; [|done]. intros x Hx. apply H4. auto.
Qed.

Lemma last_insert {Z} (l : list Z) (d : Z) i x :
  (i < length l)%nat →
  List.last (<[i := x]> l) d = if decide (S i = length l) then x else List.last l d.
Proof.
  revert i. induction l as [|y l IH]; intros i Hi; [simpl in Hi; lia|].
  destruct i as [|i].
  - destruct l as [|z l]; [done|]. simpl. done.
  - simpl in Hi. destruct l as [|z l]; [simpl in Hi; lia|].
    specialize (IH i ltac:(lia)).
    change (<[S i:=x]> (y :: z :: l)) with (y :: <[i:=x]> (z :: l)).
    destruct (<[i:=x]> (z :: l)) as [|w l'] eqn:E.
    { apply (f_equal length) in E. rewrite length_insert in E. done. }
    change (List.last (y :: w :: l') d) with (List.last (w :: l') d).
    change (List.last (y :: z :: l) d) with (List.last (z :: l) d).
    rewrite IH. destruct (decide (S i = length (z :: l))), (decide (S (S i) = length (y :: z :: l)));
      simpl in *; (done || lia).
Qed.

Lemma leafLevel_insert all i X' :
  (i < length all)%nat →
  leafLevel (<[i := X']> all) = if decide (S i = length all) then X' else leafLevel all.
Proof. apply last_insert. Qed.

Lemma leafLevel_last_index all i X :
  all !! i = Some X → S i = length all → leafLevel all = X.
Proof.
  intros Hi Hl. apply (leafLevel_lookup all i X Hi).
  apply lookup_ge_None. lia.
Qed.

Lemma NoDup_bind_elem {Z} (f : ptr → list Z) (l : list ptr) x :
  NoDup (l ≫= f) → x ∈ l → NoDup (f x).
Proof.
  intros Hnd Hx. apply list_elem_of_split in Hx as (l1 & l2 & ->).
  rewrite bind_app, bind_cons in Hnd.
  apply NoDup_app in Hnd as (_ & _ & Hnd). by apply NoDup_app in Hnd as (Hnd & _).
Qed.

Lemma bind_disjoint {Z} (f : ptr → list Z) (l : list ptr) x y z :
  NoDup (l ≫= f) → NoDup l → x ∈ l → y ∈ l → z ∈ f x → z ∈ f y → x = y.
Proof.
  induction l as [|w l IH]; intros Hnd Hl Hx Hy Hzx Hzy; [by apply elem_of_nil in Hx|].
  rewrite bind_cons in Hnd. apply NoDup_app in Hnd as (_ & Hd & Hnd).
  apply NoDup_cons in Hl as [Hw Hl].
  apply elem_of_cons in Hx as [->|Hx]; apply elem_of_cons in Hy as [->|Hy]; auto.
  - exfalso. apply (Hd z Hzx). apply list_elem_of_bind. eauto.
  - exfalso. apply (Hd z Hzy). apply list_elem_of_bind. eauto.
Qed.

End LevelLists2.

Section ShapeFacts.
Context {K V : Type}.
Implicit Types (h : list (TreeNode K V)) (n : TreeNode K V).
Implicit Types (p q c : ptr) (A B L : list ptr) (all : list (list ptr)).

Lemma kids_in_nodes h all q c :
  levelsOK h all → q ∈ mjoin all → c ∈ kids h q → c ∈ mjoin all.
Proof.
  intros Hlv (A & HqA & HA)%list_elem_of_join Hc.
  apply list_elem_of_lookup in HA as [i Hi].
  pose proof (Hlv i A Hi) as Hl. destruct (all !! S i) as [B|] eqn:EB.
  - destruct Hl as [_ ->]. apply (level_in all (S i) _ c EB).
    apply list_elem_of_bind. eauto.
  - rewrite Forall_forall in Hl. destruct (Hl q HqA) as (n & Hn & _ & Hcs & _).
    unfold kids in Hc. rewrite Hn in Hc. simpl in Hc. rewrite Hcs in Hc.
    by apply elem_of_nil in Hc.
Qed.

Lemma kids_lookup h q n : h !! q = Some n → kids h q = children n.
Proof. unfold kids. by intros ->. Qed.

Lemma vals_lookup h q n : h !! q = Some n → vals h q = values n.
Proof. unfold vals. by intros ->. Qed.

Lemma parentOf_lookup h q n : h !! q = Some n → parentOf h q = Some (parent n).
Proof. unfold parentOf. by intros ->. Qed.

Lemma parent_unique under h r all q1 q2 c :
  Shape under h r all → q1 ∈ mjoin all → q2 ∈ mjoin all →
  c ∈ kids h q1 → c ∈ kids h q2 → q1 = q2.
Proof.
  intros Hs H1 H2 Hc1 Hc2.
  pose proof (sh_parents _ _ _ _ Hs q1 c H1 Hc1) as E1.
  pose proof (sh_parents _ _ _ _ Hs q2 c H2 Hc2) as E2. congruence.
Qed.

(** A child of a node of level [i] sits on level [i + 1]. *)
Lemma child_level h all i A q c :
  levelsOK h all → all !! i = Some A → q ∈ A → c ∈ kids h q →
  ∃ B, all !! S i = Some B ∧ c ∈ B.
Proof.
  intros Hlv Hi Hq Hc. pose proof (Hlv i A Hi) as Hl.
  destruct (all !! S i) as [B|] eqn:EB.
  - destruct Hl as [_ ->]. eexists. split; [done|]. apply list_elem_of_bind. eauto.
  - rewrite Forall_forall in Hl. destruct (Hl q Hq) as (n & Hn & _ & Hcs & _).
    rewrite (kids_lookup _ _ _ Hn), Hcs in Hc. by apply elem_of_nil in Hc.
Qed.

(** The node on level [i + 1] has its parent on level [i]. *)
Lemma parent_level under h r all i B c n pp :
  Shape under h r all → all !! S i = Some B → c ∈ B →
  h !! c = Some n → parent n = Some pp →
  ∃ A, all !! i = Some A ∧ pp ∈ A ∧ c ∈ kids h pp.
Proof.
  intros Hs HB Hc Hn Hp.
  destruct (all !! i) as [A|] eqn:EA.
  2:{ apply lookup_lt_Some in HB. apply lookup_ge_None in EA. lia. }
  pose proof (sh_levels _ _ _ _ Hs i A EA) as Hl. rewrite HB in Hl.
  destruct Hl as [_ ->]. apply list_elem_of_bind in Hc as (q & Hcq & Hq).
  pose proof (sh_parents _ _ _ _ Hs q c (level_in _ _ _ _ EA Hq) Hcq) as E.
  rewrite (parentOf_lookup _ _ _ Hn), Hp in E. simplify_eq. eauto.
Qed.

(** The root is the only node without parent. *)
Lemma root_level under h r all i A c n :
  Shape under h r all → all !! i = Some A → c ∈ A →
  h !! c = Some n → parent n = None → i = 0%nat ∧ c = r.
Proof.
  intros Hs HA Hc Hn Hp. destruct i as [|i].
  - rewrite (sh_top _ _ _ _ Hs) in HA. simplify_eq.
    by apply list_elem_of_singleton in Hc.
  - destruct (all !! i) as [P|] eqn:EP.
    2:{ apply lookup_lt_Some in HA. apply lookup_ge_None in EP. lia. }
    pose proof (sh_levels _ _ _ _ Hs i P EP) as Hl. rewrite HA in Hl.
    destruct Hl as [_ ->]. apply list_elem_of_bind in Hc as (q & Hcq & Hq).
    pose proof (sh_parents _ _ _ _ Hs q c (level_in _ _ _ _ EP Hq) Hcq) as E.
    rewrite (parentOf_lookup _ _ _ Hn), Hp in E. done.
Qed.

End ShapeFacts.

(** ** A node [p] below [pp] is split in two: [p] and the new node [a] *)

Section SplitInner.
Context {K V : Type}.

Record SplitPre (under : option ptr) (h h' : list (TreeNode K V)) (r : ptr)
    (all : list (list ptr))
    (j : nat) (P A : list ptr) (pp p a : ptr)
    (npp np npp' np' na : TreeNode K V) : Prop := {
  sp_Hu : under = None ∨ under = Some pp;
  sp_Hs : Shape under h r all;
  sp_HP : all !! j = Some P;
  sp_HA : all !! S j = Some A;
  sp_Hpp : pp ∈ P;
  sp_hpp : h !! pp = Some npp;
  sp_Hpc : p ∈ children npp;
  sp_hp : h !! p = Some np;
  sp_ha : a ∉ mjoin all;
  sp_h'p : h' !! p = Some np';
  sp_h'a : h' !! a = Some na;
  sp_h'pp : h' !! pp = Some npp';
  sp_Hmv : ∀ c cn, c ∈ children na → h !! c = Some cn →
  h' !! c = Some (set_parent (Some a) cn);
  sp_Hfr : ∀ q, q ∈ mjoin all → q ≠ p → q ≠ pp → q ∉ children na →
  h' !! q = h !! q;
  sp_Epp1 : isLeaf npp' = false;
  sp_Epp2 : children npp' = insertAfter p a (children npp);
  sp_Epp3 : length (keys npp') = S (length (keys npp));
  sp_Epp4 : parent npp' = parent npp;
  sp_Ep1 : isLeaf np' = isLeaf np;
  sp_Ep2 : parent np' = parent np;
  sp_Ea1 : isLeaf na = isLeaf np;
  sp_Ea2 : parent na = parent np;
  sp_Eleaf : isLeaf np = true →
  children np' = [] ∧ children na = [] ∧
  Key <$> values np' = keys np' ∧ Key <$> values na = keys na ∧
  next np' = Some a ∧ next na = next np ∧ values np' ++ values na = values np;
  sp_Einner : isLeaf np = false →
  children np' ++ children na = children np ∧
  length (children np') = S (length (keys np')) ∧
  length (children na) = S (length (keys na)) ∧
  (1 ≤ length (keys np'))%nat ∧ (1 ≤ length (keys na))%nat
}.

Variables (under : option ptr) (h h' : list (TreeNode K V)) (r : ptr).
Variable all : list (list ptr).
Variables (j : nat) (P A : list ptr) (pp p a : ptr).
Variables (npp np npp' np' na : TreeNode K V).
Local Abbreviation pre := (SplitPre under h h' r all j P A pp p a npp np npp' np' na).

Ltac si_open Hpre :=
  pose proof Hpre as [Hu Hs HP HA Hpp hpp Hpc hp ha h'p h'a h'pp Hmv Hfr Epp1 Epp2 Epp3 Epp4 Ep1 Ep2 Ea1 Ea2 Eleaf Einner].

Local Abbreviation all' := (<[S j := insertAfter p a A]> all).

Lemma si_lv (Hpre : pre) : levelsOK h all.
Proof. si_open Hpre. apply Hs. Qed.

Lemma si_nd (Hpre : pre) : NoDup (mjoin all).
Proof. si_open Hpre. apply Hs. Qed.

Lemma si_A (Hpre : pre) : A = P ≫= kids h.
Proof. si_open Hpre. pose proof ((si_lv Hpre) j P HP) as Hl. rewrite HA in Hl. by destruct Hl. Qed.

Lemma si_pA (Hpre : pre) : p ∈ A.
Proof. si_open Hpre.
  rewrite (si_A Hpre). apply list_elem_of_bind. exists pp. split; [|done].
  by rewrite (kids_lookup _ _ _ hpp).
Qed.

Lemma si_pin (Hpre : pre) : p ∈ mjoin all.
Proof. si_open Hpre. eapply level_in; [apply HA|apply (si_pA Hpre)]. Qed.

Lemma si_ppin (Hpre : pre) : pp ∈ mjoin all.
Proof. si_open Hpre. eapply level_in; [apply HP|apply Hpp]. Qed.

Lemma si_fresh (Hpre : pre) : a ∉ mjoin all.
Proof. si_open Hpre.
  done.
Qed.

Lemma si_p_pp (Hpre : pre) : p ≠ pp.
Proof. si_open Hpre.
  intros Heq. assert (p ∈ P) as HpP by (rewrite Heq; exact Hpp).
  pose proof (levels_disjoint all (S j) j A P p (si_nd Hpre) HA HP (si_pA Hpre) HpP). lia.
Qed.

Lemma si_leaf_kids (Hpre : pre) : isLeaf np = true → children np = [].
Proof. si_open Hpre.
  intros Hl. destruct (node_kind _ _ (si_lv Hpre) p (si_pin Hpre)) as [(n & Hn & _ & Hc & _)|(n & Hn & Hi & _)];
    simplify_eq; [done|congruence].
Qed.

Lemma si_split_kids (Hpre : pre) : children np' ++ children na = children np.
Proof. si_open Hpre.
  destruct (isLeaf np) eqn:E.
  - destruct (Eleaf eq_refl) as (-> & -> & _). by rewrite (si_leaf_kids Hpre).
  - by destruct (Einner eq_refl).
Qed.

Lemma si_moved (Hpre : pre) c :
  c ∈ children na → c ∈ kids h p ∧ ∃ B, all !! S (S j) = Some B ∧ c ∈ B.
Proof. si_open Hpre.
  intros Hc. assert (c ∈ kids h p) as Hk.
  { rewrite (kids_lookup _ _ _ hp), <-(si_split_kids Hpre). apply elem_of_app. by right. }
  split; [done|]. eapply child_level; [apply (si_lv Hpre)|apply HA|apply (si_pA Hpre)|done].
Qed.

Lemma si_moved_in (Hpre : pre) c : c ∈ children na → c ∈ mjoin all.
Proof. si_open Hpre. intros (_ & B & HB & Hc)%(si_moved Hpre). solve_in. Qed.

Lemma si_moved_ne (Hpre : pre) c : c ∈ children na → c ≠ p ∧ c ≠ pp ∧ c ≠ a.
Proof. si_open Hpre.
  intros Hc. destruct ((si_moved Hpre) c Hc) as (_ & B & HB & HcB). repeat split.
  - intros ->. pose proof (levels_disjoint all _ _ _ _ p (si_nd Hpre) HB HA HcB (si_pA Hpre)). lia.
  - intros ->. pose proof (levels_disjoint all _ _ _ _ pp (si_nd Hpre) HB HP HcB Hpp). lia.
  - intros ->. apply (si_fresh Hpre). solve_in.
Qed.

(** Nodes other than [p] and [pp] keep everything but, for the children
    handed to [a], their parent. *)
Lemma si_other (Hpre : pre) q :
  q ∈ mjoin all → q ≠ p → q ≠ pp →
  ∃ n, h !! q = Some n ∧
       h' !! q = Some (if decide (q ∈ children na) then set_parent (Some a) n else n).
Proof. si_open Hpre.
  intros Hq H1 H2. destruct (node_lookup _ _ (si_lv Hpre) q Hq) as [n Hn].
  exists n. split; [done|]. destruct (decide (q ∈ children na)) as [Hin|Hout].
  - by apply Hmv.
  - rewrite Hfr by done. done.
Qed.

Lemma si_kids_other (Hpre : pre) q :
  q ∈ mjoin all → q ≠ p → q ≠ pp → kids h' q = kids h q.
Proof. si_open Hpre.
  intros Hq H1 H2. destruct ((si_other Hpre) q Hq H1 H2) as (n & Hn & Hn').
  rewrite (kids_lookup _ _ _ Hn), (kids_lookup _ _ _ Hn'). by destruct (decide _).
Qed.

Lemma si_vals_other (Hpre : pre) q :
  q ∈ mjoin all → q ≠ p → q ≠ pp → vals h' q = vals h q.
Proof. si_open Hpre.
  intros Hq H1 H2. destruct ((si_other Hpre) q Hq H1 H2) as (n & Hn & Hn').
  rewrite (vals_lookup _ _ _ Hn), (vals_lookup _ _ _ Hn'). by destruct (decide _).
Qed.

Lemma si_inner_other (Hpre : pre) q :
  q ∈ mjoin all → q ≠ p → q ≠ pp → innerAt h q → innerAt h' q.
Proof. si_open Hpre.
  intros Hq H1 H2 (n & Hn & Hl & Har). destruct ((si_other Hpre) q Hq H1 H2) as (n0 & Hn0 & Hn').
  simplify_eq. eexists. split; [done|]. by destruct (decide _).
Qed.

Lemma si_leaf_other (Hpre : pre) q :
  q ∈ mjoin all → q ≠ p → q ≠ pp → leafAt h q → leafAt h' q.
Proof. si_open Hpre.
  intros Hq H1 H2 (n & Hn & Hl & Hc & Hkv). destruct ((si_other Hpre) q Hq H1 H2) as (n0 & Hn0 & Hn').
  simplify_eq. eexists. split; [done|]. by destruct (decide _).
Qed.

Lemma si_parent_keep (Hpre : pre) q :
  q ∈ mjoin all → q ∉ children na → parentOf h' q = parentOf h q.
Proof. si_open Hpre.
  intros Hq Hout. destruct (decide (q = p)) as [->|H1].
  { rewrite (parentOf_lookup _ _ _ hp), (parentOf_lookup _ _ _ h'p). by rewrite Ep2. }
  destruct (decide (q = pp)) as [->|H2].
  { rewrite (parentOf_lookup _ _ _ hpp), (parentOf_lookup _ _ _ h'pp). by rewrite Epp4. }
  unfold parentOf. by rewrite Hfr.
Qed.

Lemma si_parent_moved (Hpre : pre) c : c ∈ children na → parentOf h' c = Some (Some a).
Proof. si_open Hpre.
  intros Hc. destruct (node_lookup _ _ (si_lv Hpre) c ((si_moved_in Hpre) c Hc)) as [cn Hcn].
  by rewrite (parentOf_lookup _ _ _ (Hmv c cn Hc Hcn)).
Qed.

Lemma si_kids_pp (Hpre : pre) : kids h' pp = insertAfter p a (kids h pp).
Proof. si_open Hpre. by rewrite (kids_lookup _ _ _ hpp), (kids_lookup _ _ _ h'pp). Qed.

Lemma si_kids_split (Hpre : pre) : kids h' p ++ kids h' a = kids h p.
Proof. si_open Hpre.
  rewrite (kids_lookup _ _ _ hp), (kids_lookup _ _ _ h'p), (kids_lookup _ _ _ h'a).
  apply (si_split_kids Hpre).
Qed.

Lemma si_ndA (Hpre : pre) : NoDup A.
Proof. si_open Hpre. eapply levels_NoDup; [apply (si_nd Hpre)|apply HA]. Qed.

Lemma si_level_ne (Hpre : pre) k X q :
  all !! k = Some X → q ∈ X → k ≠ S j → q ≠ p.
Proof. si_open Hpre.
  intros Hk Hq Hne ->. apply Hne.
  apply (levels_disjoint all _ _ _ _ p (si_nd Hpre) Hk HA Hq (si_pA Hpre)).
Qed.

Lemma si_level_nepp (Hpre : pre) k X q :
  all !! k = Some X → q ∈ X → k ≠ j → q ≠ pp.
Proof. si_open Hpre.
  intros Hk Hq Hne ->. apply Hne.
  apply (levels_disjoint all _ _ _ _ pp (si_nd Hpre) Hk HP Hq Hpp).
Qed.

Lemma si_A_pp (Hpre : pre) q : q ∈ A → q ≠ pp.
Proof. si_open Hpre. intros Hq. eapply (si_level_nepp Hpre); [apply HA|done|lia]. Qed.

Lemma si_levels (Hpre : pre) : levelsOK h' all'.
Proof. si_open Hpre.
  assert (S j < length all)%nat as Hlt by (by eapply lookup_lt_Some).
  intros k X Hk.
  rewrite lookup_level_insert in Hk by done. rewrite lookup_level_insert by done.
  destruct (decide (k = S j)) as [->|Hk1].
  - simplify_eq. rewrite decide_False by lia.
    pose proof ((si_lv Hpre) (S j) A HA) as Hl.
    destruct (all !! S (S j)) as [B|] eqn:EB.
    + destruct Hl as [Hin HB]. rewrite Forall_forall in Hin.
      assert (isLeaf np = false) as Hnl.
      { destruct (Hin p (si_pA Hpre)) as (n & Hn & ? & _). by simplify_eq. }
      destruct (Einner Hnl) as (_ & Har1 & Har2 & _). split.
      * rewrite Forall_forall.
        intros q [->|Hq]%(elem_of_insertAfter _ _ _ _ (si_pA Hpre)).
        { exists na. split; [done|]. split; [congruence|done]. }
        destruct (decide (q = p)) as [->|Hne].
        { exists np'. split; [done|]. split; [congruence|done]. }
        apply (si_inner_other Hpre); auto.
        -- solve_in.
        -- by apply (si_A_pp Hpre).
      * rewrite HB. symmetry. apply bind_insertAfter_split.
        -- apply (si_ndA Hpre).
        -- apply (si_pA Hpre).
        -- apply (si_kids_split Hpre).
        -- intros q Hq Hne. apply (si_kids_other Hpre); auto.
           ++ solve_in.
           ++ by apply (si_A_pp Hpre).
    + rewrite Forall_forall in Hl |- *.
      assert (isLeaf np = true) as Hnl.
      { destruct (Hl p (si_pA Hpre)) as (n & Hn & ? & _). by simplify_eq. }
      destruct (Eleaf Hnl) as (Hc1 & Hc2 & Hkv1 & Hkv2 & _).
      intros q [->|Hq]%(elem_of_insertAfter _ _ _ _ (si_pA Hpre)).
      { exists na. split; [done|]. split; [congruence|done]. }
      destruct (decide (q = p)) as [->|Hne].
      { exists np'. split; [done|]. split; [congruence|done]. }
      apply (si_leaf_other Hpre); auto.
      * solve_in.
      * by apply (si_A_pp Hpre).
  - destruct (decide (S k = S j)) as [Hk2|Hk2].
    + assert (k = j) as -> by lia. simplify_eq. split.
      * pose proof ((si_lv Hpre) j P HP) as Hl. rewrite HA in Hl. destruct Hl as [Hin _].
        rewrite Forall_forall in Hin |- *. intros q Hq.
        destruct (decide (q = pp)) as [->|Hne].
        { destruct (Hin pp Hq) as (n & Hn & _ & Har). simplify_eq.
          exists npp'. split; [done|]. split; [done|].
          rewrite Epp2, Epp3, insertAfter_length by done. by rewrite Har. }
        apply (si_inner_other Hpre); auto.
        -- solve_in.
        -- eapply (si_level_ne Hpre); [apply HP|done|lia].
      * symmetry. rewrite (si_A Hpre) at 1. eapply (bind_insertAfter _ _ pp).
        -- rewrite <-(si_A Hpre). apply (si_ndA Hpre).
        -- done.
        -- by rewrite (kids_lookup _ _ _ hpp).
        -- apply (si_kids_pp Hpre).
        -- intros q Hq Hne. apply (si_kids_other Hpre); auto.
           ++ solve_in.
           ++ eapply (si_level_ne Hpre); [apply HP|done|lia].
    + assert (k ≠ j) as Hkj by lia. pose proof ((si_lv Hpre) k X Hk) as Hl.
      destruct (all !! S k) as [Y|] eqn:EY.
      * destruct Hl as [Hin HY]. split.
        -- rewrite Forall_forall in Hin |- *. intros q Hq.
           apply (si_inner_other Hpre); auto.
           ++ solve_in.
           ++ exact (si_level_ne Hpre k X q Hk Hq Hk1).
           ++ exact (si_level_nepp Hpre k X q Hk Hq Hkj).
        -- rewrite HY. symmetry. apply bind_ext_in. intros q Hq.
           apply (si_kids_other Hpre).
           ++ solve_in.
           ++ exact (si_level_ne Hpre k X q Hk Hq Hk1).
           ++ exact (si_level_nepp Hpre k X q Hk Hq Hkj).
      * rewrite Forall_forall in Hl |- *. intros q Hq.
        apply (si_leaf_other Hpre); auto.
        -- solve_in.
        -- exact (si_level_ne Hpre k X q Hk Hq Hk1).
        -- exact (si_level_nepp Hpre k X q Hk Hq Hkj).
Qed.

Lemma si_nodes (Hpre : pre) q : q ∈ mjoin all' → q = a ∨ q ∈ mjoin all.
Proof. si_open Hpre.
  rewrite (mjoin_insert_Permutation all (S j) A _ a HA
             (insertAfter_Permutation p a A (si_pA Hpre))).
  apply elem_of_cons.
Qed.

Lemma si_nodup (Hpre : pre) : NoDup (mjoin all').
Proof. si_open Hpre.
  rewrite (mjoin_insert_Permutation all (S j) A _ a HA
             (insertAfter_Permutation p a A (si_pA Hpre))).
  apply NoDup_cons. split; [apply (si_fresh Hpre)|apply (si_nd Hpre)].
Qed.

Lemma si_parents (Hpre : pre) q c :
  q ∈ mjoin all' → c ∈ kids h' q → parentOf h' c = Some (Some q).
Proof. si_open Hpre.
  intros Hq Hc. destruct (si_nodes Hpre q Hq) as [->|Hqin].
  { rewrite (kids_lookup _ _ _ h'a) in Hc. by apply (si_parent_moved Hpre). }
  destruct (decide (q = p)) as [->|Hqp].
  { rewrite (kids_lookup _ _ _ h'p) in Hc.
    assert (c ∈ kids h p) as Hcp.
    { rewrite (kids_lookup _ _ _ hp), <-(si_split_kids Hpre). apply elem_of_app. by left. }
    assert (c ∉ children na) as Hout.
    { intros Hcna.
      assert (NoDup (children np' ++ children na)) as Hnd.
      { rewrite (si_split_kids Hpre), <-(kids_lookup _ _ _ hp).
        destruct (child_level _ _ _ _ _ _ (si_lv Hpre) HA (si_pA Hpre) Hcp) as (B & HB & _).
        pose proof ((si_lv Hpre) (S j) A HA) as Hl. rewrite HB in Hl. destruct Hl as [_ ->].
        eapply NoDup_bind_elem; [|apply (si_pA Hpre)].
        eapply levels_NoDup; [apply (si_nd Hpre)|apply HB]. }
      apply NoDup_app in Hnd as (_ & Hd & _). by apply (Hd c). }
    rewrite (si_parent_keep Hpre); [|by eapply kids_in_nodes; [apply (si_lv Hpre)|apply (si_pin Hpre)|]|done].
    by apply (sh_parents _ _ _ _ Hs). }
  destruct (decide (q = pp)) as [->|Hqpp].
  { rewrite (si_kids_pp Hpre) in Hc.
    apply elem_of_insertAfter in Hc as [->|Hc]; [| |by rewrite (kids_lookup _ _ _ hpp)].
    - rewrite (parentOf_lookup _ _ _ h'a), Ea2.
      rewrite <-(parentOf_lookup _ _ _ hp). apply (sh_parents _ _ _ _ Hs); [done|].
      by rewrite (kids_lookup _ _ _ hpp).
    - assert (c ∈ mjoin all) as Hcin
        by (eapply kids_in_nodes; [apply (si_lv Hpre)|apply Hqin|done]).
      rewrite (si_parent_keep Hpre); [by apply (sh_parents _ _ _ _ Hs)|done|].
      intros Hcna. destruct (si_moved Hpre c Hcna) as (Hcp & _).
      apply (si_p_pp Hpre). by eapply (parent_unique _ _ _ _ p pp c Hs); [apply (si_pin Hpre)| | |]. }
  rewrite (si_kids_other Hpre) in Hc by done.
  assert (c ∈ mjoin all) as Hcin
    by (eapply kids_in_nodes; [apply (si_lv Hpre)|apply Hqin|done]).
  rewrite (si_parent_keep Hpre); [by apply (sh_parents _ _ _ _ Hs)|done|].
  intros Hcna. destruct (si_moved Hpre c Hcna) as (Hcp & _).
  apply Hqp. by eapply (parent_unique _ _ _ _ q p c Hs); [|apply (si_pin Hpre)| |].
Qed.

Lemma si_root (Hpre : pre) : parentOf h' r = Some None.
Proof. si_open Hpre.
  assert (r ∈ mjoin all) as Hr.
  { apply (level_in all 0 [r] r (sh_top _ _ _ _ Hs)). left. }
  rewrite (si_parent_keep Hpre); [apply Hs|done|].
  intros Hc. destruct (si_moved Hpre r Hc) as (_ & B & HB & HrB).
  assert (r ∈ [r]) as Hrr by left.
  pose proof (levels_disjoint all _ _ _ _ r (si_nd Hpre) HB (sh_top _ _ _ _ Hs) HrB Hrr).
  lia.
Qed.

Lemma si_keys (Hpre : pre) q n :
  q ∈ mjoin all' → h' !! q = Some n → isLeaf n = false → (1 ≤ length (keys n))%nat.
Proof. si_open Hpre.
  intros Hq Hn Hl. destruct (si_nodes Hpre q Hq) as [->|Hqin].
  { simplify_eq. rewrite Ea1 in Hl. by destruct (Einner Hl) as (_ & _ & _ & _ & ?). }
  destruct (decide (q = p)) as [->|Hqp].
  { simplify_eq. rewrite Ep1 in Hl. by destruct (Einner Hl) as (_ & _ & _ & ? & _). }
  destruct (decide (q = pp)) as [->|Hqpp].
  { simplify_eq. rewrite Epp3. lia. }
  destruct (si_other Hpre q Hqin Hqp Hqpp) as (n0 & Hn0 & Hn').
  rewrite Hn in Hn'. simplify_eq.
  assert (1 ≤ length (keys n0))%nat as Hk.
  { apply (sh_keys _ _ _ _ Hs q n0 Hqin Hn0); [by destruct (decide _)|].
    destruct Hu as [->| ->]; [done|congruence]. }
  by destruct (decide _).
Qed.

(** [p] is on the leaf level exactly when it is a Leaf. *)
Lemma si_leaf_level (Hpre : pre) :
  (S (S j) = length all ∧ isLeaf np = true ∧ leafLevel all = A) ∨
  (S (S j) ≠ length all ∧ isLeaf np = false ∧
   ∀ q, q ∈ leafLevel all → q ≠ p ∧ q ≠ pp).
Proof. si_open Hpre.
  pose proof ((si_lv Hpre) (S j) A HA) as Hl.
  destruct (all !! S (S j)) as [B|] eqn:EB.
  - right. destruct Hl as [Hin HB]. rewrite Forall_forall in Hin.
    destruct (Hin p (si_pA Hpre)) as (n & Hn & ? & _). simplify_eq.
    pose proof (lookup_lt_Some _ _ _ EB). split; [lia|]. split; [done|].
    intros q Hq.
    assert (∃ k, all !! k = Some (leafLevel all) ∧ all !! S k = None) as (k & Hk & Hk').
    { exists (pred (length all)). split.
      - unfold leafLevel. rewrite <-last_lookup. destruct all as [|X l] using rev_ind; [done|].
        by rewrite last_snoc, List.last_last.
      - apply lookup_ge_None. lia. }
    split.
    + apply (si_level_ne Hpre k _ q Hk Hq). intros ->. congruence.
    + apply (si_level_nepp Hpre k _ q Hk Hq). intros ->. congruence.
  - left. rewrite Forall_forall in Hl.
    destruct (Hl p (si_pA Hpre)) as (n & Hn & ? & _). simplify_eq.
    apply lookup_ge_None in EB. pose proof (lookup_lt_Some _ _ _ HA).
    split; [lia|]. split; [done|]. apply (leafLevel_lookup all (S j) A HA).
    apply lookup_ge_None. lia.
Qed.

Lemma si_leafLevel (Hpre : pre) :
  leafLevel all' = if decide (S (S j) = length all) then insertAfter p a A
                   else leafLevel all.
Proof. si_open Hpre. apply leafLevel_insert. by eapply lookup_lt_Some. Qed.

Lemma si_chain (Hpre : pre) : chainOK h' (leafLevel all') None.
Proof. si_open Hpre.
  rewrite (si_leafLevel Hpre).
  destruct (si_leaf_level Hpre) as [(Hlen & Hleaf & HL)|(Hlen & Hleaf & HL)].
  - rewrite decide_True by done.
    pose proof (sh_chain _ _ _ _ Hs) as Hc. rewrite HL in Hc.
    destruct (Eleaf Hleaf) as (_ & Hcna & _ & _ & Hnx1 & Hnx2 & _).
    destruct (list_elem_of_split_l A p (si_pA Hpre)) as (X & Y & HXY & HpX).
    pose proof (si_ndA Hpre) as Hnd. rewrite HXY in Hnd, Hc |- *.
    apply NoDup_app in Hnd as (_ & Hd & HndY). apply NoDup_cons in HndY as [HpY _].
    rewrite insertAfter_middle by done.
    apply chainOK_app in Hc as [HcX HcY]. simpl in HcX, HcY.
    destruct HcY as [(n & Hn & Hnx) HcY]. assert (n = np) as -> by congruence.
    assert (∀ Z nxt, Z ⊆ A → p ∉ Z → chainOK h Z nxt → chainOK h' Z nxt) as Hframe.
    { intros Z nxt HZ HpZ. apply chainOK_frame. intros l n0 Hl Hn0.
      exists n0. split; [|done]. rewrite Hfr; auto.
      - apply (level_in all (S j) A l HA). by apply HZ.
      - intros ->. done.
      - apply (si_A_pp Hpre). by apply HZ.
      - rewrite Hcna. apply not_elem_of_nil. }
    apply chainOK_app. split.
    + apply Hframe; [|done|done]. intros x Hx. rewrite HXY. apply elem_of_app. by left.
    + simpl. split; [eauto|]. split; [exists na; split; [done|congruence]|].
      apply Hframe; [|done|done]. intros x Hx. rewrite HXY. apply elem_of_app.
      right. by right.
  - rewrite decide_False by done.
    eapply chainOK_frame; [|apply Hs]. intros l n Hl Hn.
    destruct (HL l Hl) as [H1 H2].
    assert (l ∈ mjoin all) as Hlin.
    { apply list_elem_of_join. exists (leafLevel all). split; [done|].
      apply leafLevel_elem. intros Hall. rewrite Hall in HA. done. }
    destruct (si_other Hpre l Hlin H1 H2) as (n0 & Hn0 & Hn').
    simplify_eq. eexists. split; [done|]. by destruct (decide _).
Qed.

Lemma si_entries (Hpre : pre) :
  entries h' (leafLevel all') = entries h (leafLevel all).
Proof. si_open Hpre.
  rewrite (si_leafLevel Hpre).
  destruct (si_leaf_level Hpre) as [(Hlen & Hleaf & HL)|(Hlen & Hleaf & HL)].
  - rewrite decide_True by done. rewrite HL.
    destruct (Eleaf Hleaf) as (_ & Hcna & _ & _ & _ & _ & Hvals).
    apply bind_insertAfter_split.
    + apply (si_ndA Hpre).
    + apply (si_pA Hpre).
    + by rewrite (vals_lookup _ _ _ h'p), (vals_lookup _ _ _ h'a), (vals_lookup _ _ _ hp).
    + intros q Hq Hne. apply (si_vals_other Hpre); [solve_in|done|by apply (si_A_pp Hpre)].
  - rewrite decide_False by done. apply bind_ext_in. intros q Hq.
    destruct (HL q Hq) as [H1 H2]. apply (si_vals_other Hpre); [|done|done].
    apply list_elem_of_join. exists (leafLevel all). split; [done|].
    apply leafLevel_elem. intros Hall. rewrite Hall in HA. done.
Qed.

Theorem Shape_split_inner (Hpre : pre) :
  Shape None h' r all' ∧ entries h' (leafLevel all') = entries h (leafLevel all).
Proof. si_open Hpre.
  split; [|apply (si_entries Hpre)]. split.
  - rewrite list_lookup_insert_ne by lia. apply Hs.
  - apply (si_levels Hpre).
  - apply (si_nodup Hpre).
  - apply (si_root Hpre).
  - apply (si_parents Hpre).
  - apply (si_chain Hpre).
  - intros q n Hq Hn Hl _. by eapply (si_keys Hpre).
Qed.

End SplitInner.

Section RootChange.
Context {K V : Type}.
Implicit Types (h : list (TreeNode K V)) (n : TreeNode K V).
Implicit Types (p q c : ptr) (A B L : list ptr) (all : list (list ptr)).

Lemma leafLevel_cons X all : all ≠ [] → leafLevel (X :: all) = leafLevel all.
Proof. by destruct all. Qed.

Lemma leafLevel_in_nodes all q : q ∈ leafLevel all → q ∈ mjoin all.
Proof.
  intros Hq. destruct all as [|X l]; [by apply elem_of_nil in Hq|].
  apply list_elem_of_join. exists (leafLevel (X :: l)). split; [done|].
  by apply leafLevel_elem.
Qed.

(** A new root [rt] above the old root [r], with [r] as its only child. *)
Lemma Shape_push_root h h1 r rt all nrt :
  Shape None h r all → rt ∉ mjoin all →
  h1 !! rt = Some nrt → isLeaf nrt = false → children nrt = [r] →
  keys nrt = [] → parent nrt = None →
  (∀ q n, q ∈ mjoin all → h !! q = Some n →
     h1 !! q = Some (if decide (q = r) then set_parent (Some rt) n else n)) →
  Shape (Some rt) h1 rt ([rt] :: all) ∧
  entries h1 (leafLevel ([rt] :: all)) = entries h (leafLevel all).
Proof.
  intros Hs Hrt Hnrt Hleaf Hcs Hks Hpar Hq.
  pose proof (sh_levels _ _ _ _ Hs) as Hlv.
  assert (all ≠ []) as Hne by (pose proof (sh_top _ _ _ _ Hs); by destruct all).
  assert (∀ q, q ∈ mjoin all → ∃ n, h !! q = Some n ∧
            h1 !! q = Some (if decide (q = r) then set_parent (Some rt) n else n)) as Hq'.
  { intros q Hin. destruct (node_lookup _ _ Hlv q Hin) as [n Hn]. eauto. }
  assert (∀ q, q ∈ mjoin all → kids h1 q = kids h q) as Hkids.
  { intros q Hin. destruct (Hq' q Hin) as (n & Hn & Hn1).
    rewrite (kids_lookup _ _ _ Hn), (kids_lookup _ _ _ Hn1). by destruct (decide _). }
  assert (∀ q, q ∈ mjoin all → vals h1 q = vals h q) as Hvals.
  { intros q Hin. destruct (Hq' q Hin) as (n & Hn & Hn1).
    rewrite (vals_lookup _ _ _ Hn), (vals_lookup _ _ _ Hn1). by destruct (decide _). }
  split; [split|].
  - done.
  - intros k X Hk. destruct k as [|k]; simpl in *.
    + simplify_eq. rewrite (sh_top _ _ _ _ Hs). split.
      * apply Forall_singleton. exists nrt. split; [done|]. split; [done|].
        by rewrite Hcs, Hks.
      * simpl. by rewrite (kids_lookup _ _ _ Hnrt), Hcs.
    + pose proof (Hlv k X Hk) as Hl. destruct (all !! S k) as [Y|] eqn:EY.
      * destruct Hl as [Hin ->]. split.
        -- rewrite Forall_forall in Hin |- *. intros q HqX.
           destruct (Hin q HqX) as (n & Hn & ? & ?).
           eexists. split; [apply (Hq q n); [solve_in|done]|].
           by destruct (decide _).
        -- apply bind_ext_in. intros q HqX. symmetry. apply Hkids. solve_in.
      * rewrite Forall_forall in Hl |- *. intros q HqX.
        destruct (Hl q HqX) as (n & Hn & ? & ? & ?).
        eexists. split; [apply (Hq q n); [solve_in|done]|].
        by destruct (decide _).
  - simpl. apply NoDup_cons. split; [done|apply Hs].
  - by rewrite (parentOf_lookup _ _ _ Hnrt), Hpar.
  - intros q c [->|Hin]%elem_of_cons Hc.
    + rewrite (kids_lookup _ _ _ Hnrt), Hcs in Hc. apply list_elem_of_singleton in Hc as ->.
      assert (r ∈ mjoin all) as Hr by (apply (level_in all 0 [r] r (sh_top _ _ _ _ Hs)); left).
      destruct (Hq' r Hr) as (n & Hn & Hn1). rewrite (parentOf_lookup _ _ _ Hn1).
      by rewrite decide_True.
    + simpl in Hin. rewrite Hkids in Hc by done.
      pose proof (sh_parents _ _ _ _ Hs q c Hin Hc) as Hp.
      assert (c ∈ mjoin all) as Hcin by (by eapply kids_in_nodes).
      destruct (Hq' c Hcin) as (n & Hn & Hn1). rewrite (parentOf_lookup _ _ _ Hn1).
      rewrite (parentOf_lookup _ _ _ Hn) in Hp. destruct (decide (c = r)) as [->|]; [|done].
      pose proof (sh_root _ _ _ _ Hs) as Hr. rewrite (parentOf_lookup _ _ _ Hn) in Hr. congruence.
  - rewrite leafLevel_cons by done. eapply chainOK_frame; [|apply Hs].
    intros l n Hl Hn. eexists. split; [apply (Hq l n); [by apply leafLevel_in_nodes|done]|].
    by destruct (decide _).
  - intros q n [->|Hin]%elem_of_cons Hn Hl Hu; [done|]. simpl in Hin.
    destruct (Hq' q Hin) as (n0 & Hn0 & Hn1). rewrite Hn in Hn1. simplify_eq.
    assert (1 ≤ length (keys n0))%nat; [|by destruct (decide _)].
    apply (sh_keys _ _ _ _ Hs q n0 Hin Hn0); [by destruct (decide _)|done].
  - rewrite leafLevel_cons by done. apply bind_ext_in. intros q Hin.
    apply Hvals. by apply leafLevel_in_nodes.
Qed.

(** The root [r] has a single child [c0], which becomes the root. *)
Lemma Shape_collapse h h' r c0 all nr :
  Shape (Some r) h r all →
  h !! r = Some nr → isLeaf nr = false → children nr = [c0] →
  (∀ q n, q ∈ mjoin all → q ≠ r → h !! q = Some n →
     h' !! q = Some (if decide (q = c0) then set_parent None n else n)) →
  Shape None h' c0 (tail all) ∧
  entries h' (leafLevel (tail all)) = entries h (leafLevel all).
Proof.
  intros Hs Hnr Hleaf Hcs Hq.
  pose proof (sh_levels _ _ _ _ Hs) as Hlv.
  pose proof (sh_top _ _ _ _ Hs) as Htop.
  destruct all as [|X0 rest]; [done|]. simpl in Htop. simplify_eq. simpl tail.
  pose proof (sh_nodup _ _ _ _ Hs) as Hnd. simpl in Hnd.
  apply NoDup_cons in Hnd as [Hr Hnd].
  assert (∀ q, q ∈ mjoin rest → q ∈ mjoin ([r] :: rest) ∧ q ≠ r) as Hin.
  { intros q Hin. split; [by right|]. by intros ->. }
  assert (∀ q, q ∈ mjoin rest → ∃ n, h !! q = Some n ∧
            h' !! q = Some (if decide (q = c0) then set_parent None n else n)) as Hq'.
  { intros q [Hin1 Hin2]%Hin. destruct (node_lookup _ _ Hlv q Hin1) as [n Hn]. eauto. }
  assert (∀ q, q ∈ mjoin rest → kids h' q = kids h q) as Hkids.
  { intros q Hqin. destruct (Hq' q Hqin) as (n & Hn & Hn1).
    rewrite (kids_lookup _ _ _ Hn), (kids_lookup _ _ _ Hn1). by destruct (decide _). }
  assert (∀ q, q ∈ mjoin rest → vals h' q = vals h q) as Hvals.
  { intros q Hqin. destruct (Hq' q Hqin) as (n & Hn & Hn1).
    rewrite (vals_lookup _ _ _ Hn), (vals_lookup _ _ _ Hn1). by destruct (decide _). }
  assert (∃ rest', rest = [c0] :: rest') as [rest' ->].
  { pose proof (Hlv 0%nat [r] eq_refl) as Hl. simpl in Hl. destruct rest as [|B rest'].
    - simpl in Hl. apply Forall_singleton in Hl as (n & Hn & ? & _). congruence.
    - destruct Hl as [_ ->]. simpl. rewrite (kids_lookup _ _ _ Hnr), Hcs. eauto. }
  assert (c0 ∈ mjoin ([c0] :: rest')) as Hc0 by left.
  split; [split|].
  - done.
  - intros k X Hk. pose proof (Hlv (S k) X Hk) as Hl. simpl in Hl |- *.
    destruct (rest' !! k) as [Y|] eqn:EY.
    + destruct Hl as [Hinn ->]. split.
      * rewrite Forall_forall in Hinn |- *. intros q HqX.
        destruct (Hinn q HqX) as (n & Hn & ? & ?).
        destruct (Hq' q) as (n0 & Hn0 & Hn1); [solve_in|]. simplify_eq.
        eexists. split; [done|]. by destruct (decide _).
      * apply bind_ext_in. intros q HqX. symmetry. apply Hkids. solve_in.
    + rewrite Forall_forall in Hl |- *. intros q HqX.
      destruct (Hl q HqX) as (n & Hn & ? & ? & ?).
      destruct (Hq' q) as (n0 & Hn0 & Hn1); [solve_in|]. simplify_eq.
      eexists. split; [done|]. by destruct (decide _).
  - done.
  - destruct (Hq' c0 Hc0) as (n & Hn & Hn1). rewrite (parentOf_lookup _ _ _ Hn1).
    by rewrite decide_True.
  - intros q c Hqin Hc. rewrite Hkids in Hc by done.
    destruct (Hin q Hqin) as [Hq1 Hq2].
    pose proof (sh_parents _ _ _ _ Hs q c Hq1 Hc) as Hp.
    assert (c ∈ mjoin ([r] :: [c0] :: rest')) as Hcin by (by eapply kids_in_nodes).
    assert (c ≠ c0) as Hcc.
    { intros ->. apply Hq2. symmetry.
      eapply (parent_unique _ _ _ _ r q c0 Hs); [left|done| |done].
      rewrite (kids_lookup _ _ _ Hnr), Hcs. left. }
    assert (c ≠ r) as Hcr.
    { intros ->. pose proof (sh_root _ _ _ _ Hs) as E. congruence. }
    destruct (Hq' c) as (n & Hn & Hn1).
    { apply elem_of_cons in Hcin as [?|?]; done. }
    rewrite (parentOf_lookup _ _ _ Hn1). rewrite (parentOf_lookup _ _ _ Hn) in Hp.
    by rewrite decide_False.
  - rewrite <-(leafLevel_cons [r]) by done. eapply chainOK_frame; [|apply Hs].
    intros l n Hl Hn.
    assert (l ∈ mjoin ([c0] :: rest')) as Hlin.
    { rewrite leafLevel_cons in Hl by done. by apply leafLevel_in_nodes. }
    destruct (Hq' l Hlin) as (n0 & Hn0 & Hn1). simplify_eq.
    eexists. split; [done|]. by destruct (decide _).
  - intros q n Hqin Hn Hl _. destruct (Hin q Hqin) as [Hq1 Hq2].
    destruct (Hq' q Hqin) as (n0 & Hn0 & Hn1). rewrite Hn in Hn1. simplify_eq.
    assert (1 ≤ length (keys n0))%nat; [|by destruct (decide _)].
    apply (sh_keys _ _ _ _ Hs q n0 Hq1 Hn0); [by destruct (decide _)|congruence].
  - rewrite (leafLevel_cons [r]) by done. apply bind_ext_in. intros q Hqin.
    apply Hvals. by apply leafLevel_in_nodes.
Qed.

End RootChange.

Section Adjacent.
Context {X : Type}.
Implicit Types (l : list X).

Lemma adjacent_lookup l i x y :
  l !! i = Some x → l !! S i = Some y →
  l = take i l ++ x :: y :: drop (S (S i)) l.
Proof.
  intros Hx Hy. rewrite <-(take_drop_middle l i x Hx) at 1. do 2 f_equal.
  symmetry. apply drop_S in Hy. by destruct (drop (S i) l); simplify_eq.
Qed.

Lemma bind_adjacent {Z} (g : Z → list X) (w : Z) (l : list Z) C1 C2 x y :
  w ∈ l → g w = C1 ++ x :: y :: C2 →
  ∃ L1 L2, l ≫= g = L1 ++ x :: y :: L2.
Proof.
  intros (l1 & l2 & ->)%list_elem_of_split Hg.
  rewrite bind_app, bind_cons, Hg.
  exists ((l1 ≫= g) ++ C1), (C2 ++ (l2 ≫= g)). by rewrite <-!(assoc_L (++)).
Qed.

End Adjacent.

(** ** A node [s] absorbs its right neighbour [v], which leaves the tree *)

Section Remove.
Context {K V : Type}.

Record RemovePre (under : option ptr) (h h' : list (TreeNode K V)) (r : ptr)
    (all : list (list ptr)) (j : nat) (P A : list ptr) (pp s v : ptr)
    (npp ns nv npp' ns' : TreeNode K V) : Prop := {
  rp_Hu : under = None ∨ under = Some s ∨ under = Some v;
  rp_Hs : Shape under h r all;
  rp_HP : all !! j = Some P;
  rp_HA : all !! S j = Some A;
  rp_Hpp : pp ∈ P;
  rp_hpp : h !! pp = Some npp;
  rp_Hadj : ∃ C1 C2, children npp = C1 ++ s :: v :: C2;
  rp_hs : h !! s = Some ns;
  rp_hv : h !! v = Some nv;
  rp_h's : h' !! s = Some ns';
  rp_h'pp : h' !! pp = Some npp';
  rp_Hmv : ∀ c cn, c ∈ children nv → h !! c = Some cn →
    h' !! c = Some (set_parent (Some s) cn);
  rp_Hfr : ∀ q, q ∈ mjoin all → q ≠ s → q ≠ v → q ≠ pp → q ∉ children nv →
    h' !! q = h !! q;
  rp_Epp1 : isLeaf npp' = false;
  rp_Epp2 : children npp' = without v (children npp);
  rp_Epp3 : S (length (keys npp')) = length (keys npp);
  rp_Epp4 : parent npp' = parent npp;
  rp_Es1 : isLeaf ns' = isLeaf ns;
  rp_Es2 : parent ns' = parent ns;
  rp_Es3 : children ns' = children ns ++ children nv;
  rp_Eleaf : isLeaf ns = true →
    Key <$> values ns' = keys ns' ∧ next ns' = next nv ∧
    values ns' = values ns ++ values nv;
  rp_Einner : isLeaf ns = false →
    length (keys ns') = S (length (keys ns) + length (keys nv))
}.

Variables (under : option ptr) (h h' : list (TreeNode K V)) (r : ptr).
Variable all : list (list ptr).
Variables (j : nat) (P A : list ptr) (pp s v : ptr).
Variables (npp ns nv npp' ns' : TreeNode K V).
Local Abbreviation pre := (RemovePre under h h' r all j P A pp s v npp ns nv npp' ns').
Local Abbreviation all' := (<[S j := without v A]> all).

Ltac rm_open Hpre :=
  pose proof Hpre as [Hu Hs HP HA Hpp hpp Hadj hs hv h's h'pp Hmv Hfr
                      Epp1 Epp2 Epp3 Epp4 Es1 Es2 Es3 Eleaf Einner].

Lemma rm_lv (Hpre : pre) : levelsOK h all.
Proof. rm_open Hpre. apply Hs. Qed.

Lemma rm_nd (Hpre : pre) : NoDup (mjoin all).
Proof. rm_open Hpre. apply Hs. Qed.

Lemma rm_A (Hpre : pre) : A = P ≫= kids h.
Proof. rm_open Hpre. pose proof (rm_lv Hpre j P HP) as Hl. rewrite HA in Hl. by destruct Hl. Qed.

Lemma rm_ndA (Hpre : pre) : NoDup A.
Proof. rm_open Hpre. eapply levels_NoDup; [apply (rm_nd Hpre)|apply HA]. Qed.

Lemma rm_split (Hpre : pre) :
  ∃ X Y, A = X ++ s :: v :: Y ∧ (s ∉ X) ∧ (v ∉ X) ∧ (s ∉ Y) ∧ (v ∉ Y) ∧ s ≠ v.
Proof. rm_open Hpre.
  destruct Hadj as (C1 & C2 & HC).
  destruct (bind_adjacent (kids h) pp P C1 C2 s v Hpp) as (X & Y & HXY).
  { by rewrite (kids_lookup _ _ _ hpp). }
  rewrite <-(rm_A Hpre) in HXY. exists X, Y. split; [done|].
  pose proof (rm_ndA Hpre) as Hnd. rewrite HXY in Hnd.
  apply NoDup_app in Hnd as (_ & Hd & Hnd).
  apply NoDup_cons in Hnd as [Hs1 Hnd]. apply NoDup_cons in Hnd as [Hv1 _].
  repeat split.
  - intros Hx. apply (Hd s Hx). left.
  - intros Hx. apply (Hd v Hx). right. left.
  - intros Hx. apply Hs1. by right.
  - done.
  - intros ->. apply Hs1. left.
Qed.

Lemma rm_sA (Hpre : pre) : s ∈ A.
Proof.
  destruct (rm_split Hpre) as (X & Y & -> & _). apply elem_of_app. right. left.
Qed.

Lemma rm_vA (Hpre : pre) : v ∈ A.
Proof.
  destruct (rm_split Hpre) as (X & Y & -> & _). apply elem_of_app. right. right. left.
Qed.

Lemma rm_sv (Hpre : pre) : s ≠ v.
Proof. by destruct (rm_split Hpre) as (X & Y & _ & _ & _ & _ & _ & ?). Qed.

Lemma rm_without (Hpre : pre) :
  ∃ X Y, A = X ++ s :: v :: Y ∧ without v A = X ++ s :: Y ∧
         (s ∉ X) ∧ (v ∉ X) ∧ (s ∉ Y) ∧ (v ∉ Y).
Proof.
  destruct (rm_split Hpre) as (X & Y & HA & H1 & H2 & H3 & H4 & H5).
  exists X, Y. split; [done|]. split; [|done].
  rewrite HA. change (X ++ s :: v :: Y) with (X ++ [s] ++ v :: Y).
  rewrite (assoc_L (++)), without_middle; [by rewrite <-(assoc_L (++))| |done].
  rewrite elem_of_app, list_elem_of_singleton. intros [?|?]; congruence.
Qed.

Lemma rm_level_ne k X q (Hpre : pre) :
  all !! k = Some X → q ∈ X → k ≠ S j → q ≠ s ∧ q ≠ v.
Proof. rm_open Hpre.
  intros Hk Hq Hne. split; intros ->; apply Hne.
  - apply (levels_disjoint all _ _ _ _ s (rm_nd Hpre) Hk HA Hq (rm_sA Hpre)).
  - apply (levels_disjoint all _ _ _ _ v (rm_nd Hpre) Hk HA Hq (rm_vA Hpre)).
Qed.

Lemma rm_level_nepp k X q (Hpre : pre) :
  all !! k = Some X → q ∈ X → k ≠ j → q ≠ pp.
Proof. rm_open Hpre.
  intros Hk Hq Hne ->. apply Hne.
  apply (levels_disjoint all _ _ _ _ pp (rm_nd Hpre) Hk HP Hq Hpp).
Qed.

Lemma rm_A_pp (Hpre : pre) q : q ∈ A → q ≠ pp.
Proof. rm_open Hpre. intros Hq. eapply (rm_level_nepp _ _ _ Hpre); [apply HA|done|lia]. Qed.

Lemma rm_sin (Hpre : pre) : s ∈ mjoin all.
Proof. rm_open Hpre. apply (level_in all (S j) A s HA (rm_sA Hpre)). Qed.

Lemma rm_vin (Hpre : pre) : v ∈ mjoin all.
Proof. rm_open Hpre. apply (level_in all (S j) A v HA (rm_vA Hpre)). Qed.

(** [s] and [v] are of the same kind. *)
Lemma rm_kind (Hpre : pre) :
  (all !! S (S j) = None ∧ isLeaf ns = true ∧ isLeaf nv = true ∧
   children ns = [] ∧ children nv = [] ∧ leafLevel all = A) ∨
  (∃ B, all !! S (S j) = Some B ∧ isLeaf ns = false ∧ isLeaf nv = false ∧
        length (children ns) = S (length (keys ns)) ∧
        length (children nv) = S (length (keys nv)) ∧ B = A ≫= kids h).
Proof. rm_open Hpre.
  pose proof (rm_lv Hpre (S j) A HA) as Hl.
  destruct (all !! S (S j)) as [B|] eqn:EB.
  - right. destruct Hl as [Hin HB]. rewrite Forall_forall in Hin.
    destruct (Hin s (rm_sA Hpre)) as (n1 & Hn1 & ? & ?).
    destruct (Hin v (rm_vA Hpre)) as (n2 & Hn2 & ? & ?).
    assert (n1 = ns) as -> by congruence. assert (n2 = nv) as -> by congruence.
    exists B. done.
  - left. rewrite Forall_forall in Hl.
    destruct (Hl s (rm_sA Hpre)) as (n1 & Hn1 & ? & ? & ?).
    destruct (Hl v (rm_vA Hpre)) as (n2 & Hn2 & ? & ? & ?).
    assert (n1 = ns) as -> by congruence. assert (n2 = nv) as -> by congruence.
    repeat split; try done. by apply (leafLevel_lookup all (S j) A HA).
Qed.

Lemma rm_moved (Hpre : pre) c :
  c ∈ children nv → c ∈ kids h v ∧ ∃ B, all !! S (S j) = Some B ∧ c ∈ B.
Proof. rm_open Hpre.
  intros Hc. assert (c ∈ kids h v) as Hk by (by rewrite (kids_lookup _ _ _ hv)).
  split; [done|]. eapply child_level; [apply (rm_lv Hpre)|apply HA|apply (rm_vA Hpre)|done].
Qed.

Lemma rm_moved_in (Hpre : pre) c : c ∈ children nv → c ∈ mjoin all.
Proof. intros (_ & B & HB & Hc)%(rm_moved Hpre). by eapply level_in. Qed.

Lemma rm_other (Hpre : pre) q :
  q ∈ mjoin all → q ≠ s → q ≠ v → q ≠ pp →
  ∃ n, h !! q = Some n ∧
       h' !! q = Some (if decide (q ∈ children nv) then set_parent (Some s) n else n).
Proof. rm_open Hpre.
  intros Hq H1 H2 H3. destruct (node_lookup _ _ (rm_lv Hpre) q Hq) as [n Hn].
  exists n. split; [done|]. destruct (decide (q ∈ children nv)) as [Hin|Hout].
  - by apply Hmv.
  - rewrite Hfr by done. done.
Qed.

Lemma rm_kids_other (Hpre : pre) q :
  q ∈ mjoin all → q ≠ s → q ≠ v → q ≠ pp → kids h' q = kids h q.
Proof.
  intros Hq H1 H2 H3. destruct (rm_other Hpre q Hq H1 H2 H3) as (n & Hn & Hn').
  rewrite (kids_lookup _ _ _ Hn), (kids_lookup _ _ _ Hn'). by destruct (decide _).
Qed.

Lemma rm_vals_other (Hpre : pre) q :
  q ∈ mjoin all → q ≠ s → q ≠ v → q ≠ pp → vals h' q = vals h q.
Proof.
  intros Hq H1 H2 H3. destruct (rm_other Hpre q Hq H1 H2 H3) as (n & Hn & Hn').
  rewrite (vals_lookup _ _ _ Hn), (vals_lookup _ _ _ Hn'). by destruct (decide _).
Qed.

Lemma rm_inner_other (Hpre : pre) q :
  q ∈ mjoin all → q ≠ s → q ≠ v → q ≠ pp → innerAt h q → innerAt h' q.
Proof.
  intros Hq H1 H2 H3 (n & Hn & Hl & Har).
  destruct (rm_other Hpre q Hq H1 H2 H3) as (n0 & Hn0 & Hn').
  assert (n0 = n) as -> by congruence. eexists. split; [done|]. by destruct (decide _).
Qed.

Lemma rm_leaf_other (Hpre : pre) q :
  q ∈ mjoin all → q ≠ s → q ≠ v → q ≠ pp → leafAt h q → leafAt h' q.
Proof.
  intros Hq H1 H2 H3 (n & Hn & Hl & Hc & Hkv).
  destruct (rm_other Hpre q Hq H1 H2 H3) as (n0 & Hn0 & Hn').
  assert (n0 = n) as -> by congruence. eexists. split; [done|]. by destruct (decide _).
Qed.

Lemma rm_parent_keep (Hpre : pre) q :
  q ∈ mjoin all → q ≠ v → q ∉ children nv → parentOf h' q = parentOf h q.
Proof. rm_open Hpre.
  intros Hq Hqv Hout. destruct (decide (q = s)) as [->|H1].
  { rewrite (parentOf_lookup _ _ _ hs), (parentOf_lookup _ _ _ h's). by rewrite Es2. }
  destruct (decide (q = pp)) as [->|H2].
  { rewrite (parentOf_lookup _ _ _ hpp), (parentOf_lookup _ _ _ h'pp). by rewrite Epp4. }
  unfold parentOf. by rewrite Hfr.
Qed.

Lemma rm_parent_moved (Hpre : pre) c : c ∈ children nv → parentOf h' c = Some (Some s).
Proof. rm_open Hpre.
  intros Hc. destruct (node_lookup _ _ (rm_lv Hpre) c (rm_moved_in Hpre c Hc)) as [cn Hcn].
  by rewrite (parentOf_lookup _ _ _ (Hmv c cn Hc Hcn)).
Qed.

Lemma rm_kids_pp (Hpre : pre) : kids h' pp = without v (kids h pp).
Proof. rm_open Hpre. by rewrite (kids_lookup _ _ _ hpp), (kids_lookup _ _ _ h'pp). Qed.

Lemma rm_kids_s (Hpre : pre) : kids h' s = kids h s ++ kids h v.
Proof. rm_open Hpre.
  by rewrite (kids_lookup _ _ _ hs), (kids_lookup _ _ _ h's), (kids_lookup _ _ _ hv).
Qed.

Lemma rm_v_kids_pp (Hpre : pre) : v ∈ kids h pp ∧ s ∈ kids h pp.
Proof. rm_open Hpre.
  destruct Hadj as (C1 & C2 & HC). rewrite (kids_lookup _ _ _ hpp), HC.
  rewrite !elem_of_app, !elem_of_cons. auto.
Qed.

(** Merging the images of two neighbours keeps the concatenation. *)
Lemma rm_bind_merge (Hpre : pre) {Z} (f f' : ptr → list Z) :
  f' s = f s ++ f v →
  (∀ q, q ∈ A → q ≠ s → q ≠ v → f' q = f q) →
  without v A ≫= f' = A ≫= f.
Proof.
  intros Hfs Hf. destruct (rm_without Hpre) as (X & Y & HA & -> & H1 & H2 & H3 & H4).
  rewrite HA in Hf |- *. rewrite !bind_app, !bind_cons, Hfs, <-(assoc_L (++)).
  f_equal; [|f_equal; f_equal]; apply bind_ext_in; intros q Hq; apply Hf.
  - apply elem_of_app. by left.
  - by intros ->.
  - by intros ->.
  - apply elem_of_app. right. right. by right.
  - by intros ->.
  - by intros ->.
Qed.

Lemma rm_levels (Hpre : pre) : levelsOK h' all'.
Proof. rm_open Hpre.
  assert (S j < length all)%nat as Hlt by (by eapply lookup_lt_Some).
  intros k X Hk.
  rewrite lookup_level_insert in Hk by done. rewrite lookup_level_insert by done.
  destruct (decide (k = S j)) as [->|Hk1].
  - assert (X = without v A) as -> by congruence. rewrite decide_False by lia.
    destruct (rm_kind Hpre) as [(EB & Hl1 & Hl2 & Hc1 & Hc2 & _)|(B & EB & Hl1 & Hl2 & Ha1 & Ha2 & HB)];
      rewrite EB.
    + pose proof (rm_lv Hpre (S j) A HA) as Hl. rewrite EB in Hl.
      rewrite Forall_forall in Hl |- *. intros q [Hq Hqv]%elem_of_without.
      destruct (decide (q = s)) as [->|Hne].
      { destruct (Eleaf Hl1) as (Hkv & _). exists ns'. split; [done|].
        split; [congruence|]. split; [|done]. by rewrite Es3, Hc1, Hc2. }
      apply (rm_leaf_other Hpre); auto; [solve_in|by apply (rm_A_pp Hpre)].
    + pose proof (rm_lv Hpre (S j) A HA) as Hl. rewrite EB in Hl. destruct Hl as [Hin _].
      rewrite Forall_forall in Hin. split.
      * rewrite Forall_forall. intros q [Hq Hqv]%elem_of_without.
        destruct (decide (q = s)) as [->|Hne].
        { exists ns'. split; [done|]. split; [congruence|].
          rewrite Es3, length_app, (Einner Hl1), Ha1, Ha2. lia. }
        apply (rm_inner_other Hpre); auto; [solve_in|by apply (rm_A_pp Hpre)].
      * rewrite HB. symmetry. apply (rm_bind_merge Hpre); [apply (rm_kids_s Hpre)|].
        intros q Hq H1 H2. apply (rm_kids_other Hpre); auto; [solve_in|by apply (rm_A_pp Hpre)].
  - destruct (decide (S k = S j)) as [Hk2|Hk2].
    + assert (k = j) as -> by lia. assert (X = P) as -> by congruence. split.
      * pose proof (rm_lv Hpre j P HP) as Hl. rewrite HA in Hl. destruct Hl as [Hin _].
        rewrite Forall_forall in Hin |- *. intros q Hq.
        destruct (decide (q = pp)) as [->|Hne].
        { destruct (Hin pp Hq) as (n & Hn & _ & Har). assert (n = npp) as -> by congruence.
          exists npp'. split; [done|]. split; [done|].
          destruct (rm_v_kids_pp Hpre) as [Hv _]. rewrite (kids_lookup _ _ _ hpp) in Hv.
          assert (NoDup (children npp)) as Hnd.
          { rewrite <-(kids_lookup _ _ _ hpp). eapply NoDup_bind_elem; [|apply Hpp].
            rewrite <-(rm_A Hpre). apply (rm_ndA Hpre). }
          pose proof (without_length v (children npp) Hnd Hv). rewrite Epp2. lia. }
        destruct (rm_level_ne j P q Hpre HP Hq) as [? ?]; [lia|].
        apply (rm_inner_other Hpre); auto. solve_in.
      * symmetry. rewrite (rm_A Hpre) at 1.
        assert (NoDup P) as HndP by (eapply levels_NoDup; [apply (rm_nd Hpre)|apply HP]).
        eapply (bind_without _ _ pp); auto.
        -- rewrite <-(rm_A Hpre). apply (rm_ndA Hpre).
        -- apply (rm_v_kids_pp Hpre).
        -- apply (rm_kids_pp Hpre).
        -- intros q Hq Hne. destruct (rm_level_ne j P q Hpre HP Hq) as [? ?]; [lia|].
           apply (rm_kids_other Hpre); auto. solve_in.
    + assert (k ≠ j) as Hkj by lia. pose proof (rm_lv Hpre k X Hk) as Hl.
      destruct (all !! S k) as [Y|] eqn:EY.
      * destruct Hl as [Hin HY]. split.
        -- rewrite Forall_forall in Hin |- *. intros q Hq.
           destruct (rm_level_ne k X q Hpre Hk Hq Hk1) as [? ?].
           apply (rm_inner_other Hpre); auto; [solve_in|].
           exact (rm_level_nepp k X q Hpre Hk Hq Hkj).
        -- rewrite HY. symmetry. apply bind_ext_in. intros q Hq.
           destruct (rm_level_ne k X q Hpre Hk Hq Hk1) as [? ?].
           apply (rm_kids_other Hpre); auto; [solve_in|].
           exact (rm_level_nepp k X q Hpre Hk Hq Hkj).
      * rewrite Forall_forall in Hl |- *. intros q Hq.
        destruct (rm_level_ne k X q Hpre Hk Hq Hk1) as [? ?].
        apply (rm_leaf_other Hpre); auto; [solve_in|].
        exact (rm_level_nepp k X q Hpre Hk Hq Hkj).
Qed.

Lemma rm_sub (Hpre : pre) : without v A ⊆ A.
Proof. intros q [? _]%elem_of_without. done. Qed.

Lemma rm_nodes (Hpre : pre) q : q ∈ mjoin all' → q ∈ mjoin all ∧ q ≠ v.
Proof. rm_open Hpre.
  intros Hq. split.
  - eapply mjoin_insert_subseteq; [apply HA|apply (rm_sub Hpre)|done].
  - intros ->. apply list_elem_of_join in Hq as (X & HvX & HX).
    apply list_elem_of_lookup in HX as [k Hk].
    rewrite lookup_level_insert in Hk by (by eapply lookup_lt_Some).
    destruct (decide (k = S j)) as [->|Hne].
    + assert (X = without v A) as -> by congruence.
      by apply elem_of_without in HvX as [_ ?].
    + by destruct (rm_level_ne k X v Hpre Hk HvX Hne).
Qed.

Lemma rm_nodup (Hpre : pre) : NoDup (mjoin all').
Proof. rm_open Hpre.
  eapply mjoin_insert_NoDup; [apply HA| |apply (rm_sub Hpre)|apply (rm_nd Hpre)].
  apply NoDup_without, (rm_ndA Hpre).
Qed.

Lemma rm_ndB (Hpre : pre) q : q ∈ A → NoDup (kids h q).
Proof. rm_open Hpre.
  intros Hq. pose proof (rm_lv Hpre (S j) A HA) as Hl.
  destruct (all !! S (S j)) as [B|] eqn:EB.
  - destruct Hl as [_ HB]. eapply NoDup_bind_elem; [|apply Hq].
    rewrite <-HB. eapply levels_NoDup; [apply (rm_nd Hpre)|apply EB].
  - rewrite Forall_forall in Hl. destruct (Hl q Hq) as (n & Hn & _ & Hc & _).
    rewrite (kids_lookup _ _ _ Hn), Hc. apply NoDup_nil_2.
Qed.

Lemma rm_parents (Hpre : pre) q c :
  q ∈ mjoin all' → c ∈ kids h' q → parentOf h' c = Some (Some q).
Proof. rm_open Hpre.
  intros [Hqin Hqv]%(rm_nodes Hpre) Hc.
  destruct (decide (q = s)) as [->|Hqs].
  { rewrite (rm_kids_s Hpre) in Hc. apply elem_of_app in Hc as [Hc|Hc].
    - assert (c ∈ mjoin all) as Hcin
        by (eapply kids_in_nodes; [apply (rm_lv Hpre)|apply Hqin|done]).
      rewrite (rm_parent_keep Hpre); [by apply (sh_parents _ _ _ _ Hs)|done| |].
      + intros ->. destruct (child_level _ _ _ _ _ _ (rm_lv Hpre) HA (rm_sA Hpre) Hc)
          as (B & HB & HvB).
        pose proof (levels_disjoint all _ _ _ _ v (rm_nd Hpre) HB HA HvB (rm_vA Hpre)). lia.
      + intros Hcv. apply (rm_sv Hpre).
        eapply (parent_unique _ _ _ _ s v c Hs); [done|apply (rm_vin Hpre)|done|].
        by rewrite (kids_lookup _ _ _ hv).
    - rewrite (kids_lookup _ _ _ hv) in Hc. by apply (rm_parent_moved Hpre). }
  destruct (decide (q = pp)) as [->|Hqpp].
  { rewrite (rm_kids_pp Hpre) in Hc. apply elem_of_without in Hc as [Hc Hcv].
    assert (c ∈ mjoin all) as Hcin
      by (eapply kids_in_nodes; [apply (rm_lv Hpre)|apply Hqin|done]).
    rewrite (rm_parent_keep Hpre); [by apply (sh_parents _ _ _ _ Hs)|done|done|].
    intros Hcna. destruct (rm_moved Hpre c Hcna) as (_ & B & HB & HcB).
    destruct (child_level _ _ _ _ _ _ (rm_lv Hpre) HP Hpp Hc) as (A' & HA' & HcA).
    pose proof (levels_disjoint all _ _ _ _ c (rm_nd Hpre) HB HA' HcB HcA). lia. }
  rewrite (rm_kids_other Hpre) in Hc by done.
  assert (c ∈ mjoin all) as Hcin
    by (eapply kids_in_nodes; [apply (rm_lv Hpre)|apply Hqin|done]).
  rewrite (rm_parent_keep Hpre); [by apply (sh_parents _ _ _ _ Hs)|done| |].
  - intros ->. apply Hqpp.
    eapply (parent_unique _ _ _ _ q pp v Hs); [done| |done|apply (rm_v_kids_pp Hpre)].
    solve_in.
  - intros Hcna. destruct (rm_moved Hpre c Hcna) as (Hcp & _).
    apply Hqv. by eapply (parent_unique _ _ _ _ q v c Hs); [|apply (rm_vin Hpre)| |].
Qed.

Lemma rm_root (Hpre : pre) : parentOf h' r = Some None.
Proof. rm_open Hpre.
  assert (r ∈ [r]) as Hrr by left.
  assert (r ∈ mjoin all) as Hr by (apply (level_in all 0 [r] r (sh_top _ _ _ _ Hs) Hrr)).
  rewrite (rm_parent_keep Hpre); [apply Hs|done| |].
  - intros Heq. assert (r ∈ A) as HrA by (rewrite Heq; apply (rm_vA Hpre)).
    pose proof (levels_disjoint all _ _ _ _ r (rm_nd Hpre) HA (sh_top _ _ _ _ Hs)
                  HrA Hrr). lia.
  - intros Hc. destruct (rm_moved Hpre r Hc) as (_ & B & HB & HrB).
    pose proof (levels_disjoint all _ _ _ _ r (rm_nd Hpre) HB (sh_top _ _ _ _ Hs) HrB Hrr).
    lia.
Qed.

Lemma rm_keys (Hpre : pre) q n :
  q ∈ mjoin all' → h' !! q = Some n → isLeaf n = false → Some pp ≠ Some q →
  (1 ≤ length (keys n))%nat.
Proof. rm_open Hpre.
  intros [Hqin Hqv]%(rm_nodes Hpre) Hn Hl Hqpp.
  destruct (decide (q = s)) as [->|Hqs].
  { assert (n = ns') as -> by congruence. rewrite Es1 in Hl. rewrite (Einner Hl). lia. }
  assert (q ≠ pp) as Hqpp' by congruence.
  destruct (rm_other Hpre q Hqin Hqs Hqv Hqpp') as (n0 & Hn0 & Hn').
  rewrite Hn in Hn'.
  assert (1 ≤ length (keys n0))%nat as Hk.
  { apply (sh_keys _ _ _ _ Hs q n0 Hqin Hn0).
    - destruct (decide _); simplify_eq; done.
    - destruct Hu as [->|[->| ->]]; congruence. }
  destruct (decide _); simplify_eq; done.
Qed.

Lemma rm_leafLevel (Hpre : pre) :
  leafLevel all' = if decide (S (S j) = length all) then without v A
                   else leafLevel all.
Proof. rm_open Hpre. apply leafLevel_insert. by eapply lookup_lt_Some. Qed.

Lemma rm_leaf_level (Hpre : pre) :
  (S (S j) = length all ∧ isLeaf ns = true ∧ leafLevel all = A) ∨
  (S (S j) ≠ length all ∧ isLeaf ns = false ∧
   ∀ q, q ∈ leafLevel all → q ≠ s ∧ q ≠ v ∧ q ≠ pp).
Proof. rm_open Hpre.
  pose proof (lookup_lt_Some _ _ _ HA).
  destruct (rm_kind Hpre) as [(EB & Hl1 & _ & _ & _ & HL)|(B & EB & Hl1 & _)].
  - left. apply lookup_ge_None in EB. split; [lia|done].
  - right. pose proof (lookup_lt_Some _ _ _ EB). split; [lia|]. split; [done|].
    intros q Hq.
    assert (∃ k, all !! k = Some (leafLevel all) ∧ all !! S k = None) as (k & Hk & Hk').
    { exists (pred (length all)). split.
      - unfold leafLevel. rewrite <-last_lookup.
        destruct all as [|X l] using rev_ind; [done|].
        by rewrite last_snoc, List.last_last.
      - apply lookup_ge_None. lia. }
    assert (k ≠ S j) as Hk1 by (intros ->; congruence).
    assert (k ≠ j) as Hk2 by (intros ->; congruence).
    destruct (rm_level_ne k _ q Hpre Hk Hq Hk1). split; [done|]. split; [done|].
    exact (rm_level_nepp k _ q Hpre Hk Hq Hk2).
Qed.

Lemma rm_chain (Hpre : pre) : chainOK h' (leafLevel all') None.
Proof. rm_open Hpre.
  rewrite (rm_leafLevel Hpre).
  destruct (rm_leaf_level Hpre) as [(Hlen & Hleaf & HL)|(Hlen & Hleaf & HL)].
  - rewrite decide_True by done.
    pose proof (sh_chain _ _ _ _ Hs) as Hc. rewrite HL in Hc.
    destruct (Eleaf Hleaf) as (_ & Hnx & _).
    destruct (rm_kind Hpre) as [(_ & _ & _ & _ & Hcv & _)|(B & _ & ? & _)]; [|congruence].
    destruct (rm_without Hpre) as (X & Y & HXY & -> & H1 & H2 & H3 & H4).
    rewrite HXY in Hc.
    apply chainOK_app in Hc as [HcX HcY]. simpl in HcX, HcY.
    destruct HcY as [(n1 & Hn1 & Hnx1) [(n2 & Hn2 & Hnx2) HcY]].
    assert (n2 = nv) as -> by congruence.
    assert (∀ Z nxt, Z ⊆ A → s ∉ Z → v ∉ Z → chainOK h Z nxt → chainOK h' Z nxt) as Hframe.
    { intros Z nxt HZ HsZ HvZ. apply chainOK_frame. intros l n0 Hl Hn0.
      exists n0. split; [|done]. rewrite Hfr; auto.
      - apply (level_in all (S j) A l HA). by apply HZ.
      - by intros ->.
      - by intros ->.
      - apply (rm_A_pp Hpre). by apply HZ.
      - rewrite Hcv. apply not_elem_of_nil. }
    apply chainOK_app. split.
    + apply Hframe; [|done|done|done]. intros x Hx. rewrite HXY. apply elem_of_app. by left.
    + simpl. split; [exists ns'; split; [done|congruence]|].
      apply Hframe; [|done|done|done]. intros x Hx. rewrite HXY. apply elem_of_app.
      right. right. by right.
  - rewrite decide_False by done.
    eapply chainOK_frame; [|apply Hs]. intros l n Hl Hn.
    destruct (HL l Hl) as (H1 & H2 & H3).
    destruct (rm_other Hpre l (leafLevel_in_nodes _ _ Hl) H1 H2 H3) as (n0 & Hn0 & Hn').
    assert (n0 = n) as -> by congruence. eexists. split; [done|]. by destruct (decide _).
Qed.

Lemma rm_entries (Hpre : pre) :
  entries h' (leafLevel all') = entries h (leafLevel all).
Proof. rm_open Hpre.
  rewrite (rm_leafLevel Hpre).
  destruct (rm_leaf_level Hpre) as [(Hlen & Hleaf & HL)|(Hlen & Hleaf & HL)].
  - rewrite decide_True by done. rewrite HL.
    destruct (Eleaf Hleaf) as (_ & _ & Hvals).
    apply (rm_bind_merge Hpre).
    + by rewrite (vals_lookup _ _ _ h's), (vals_lookup _ _ _ hs), (vals_lookup _ _ _ hv).
    + intros q Hq H1 H2. apply (rm_vals_other Hpre); auto; [solve_in|by apply (rm_A_pp Hpre)].
  - rewrite decide_False by done. apply bind_ext_in. intros q Hq.
    destruct (HL q Hq) as (H1 & H2 & H3). apply (rm_vals_other Hpre); auto.
    by apply leafLevel_in_nodes.
Qed.

Theorem Shape_remove (Hpre : pre) :
  Shape (Some pp) h' r all' ∧ entries h' (leafLevel all') = entries h (leafLevel all).
Proof. rm_open Hpre.
  split; [|apply (rm_entries Hpre)]. split.
  - rewrite list_lookup_insert_ne by lia. apply Hs.
  - apply (rm_levels Hpre).
  - apply (rm_nodup Hpre).
  - apply (rm_root Hpre).
  - apply (rm_parents Hpre).
  - apply (rm_chain Hpre).
  - apply (rm_keys Hpre).
Qed.

End Remove.

(** ** Two neighbouring Internal nodes [x], [y] share out their children anew *)

Section Redistribute.
Context {K V : Type}.

Record RedistPre (under : option ptr) (h h' : list (TreeNode K V)) (r : ptr)
    (all : list (list ptr)) (i : nat) (A : list ptr) (x y : ptr)
    (nx ny nx' ny' : TreeNode K V) : Prop := {
  dp_Hu : under = None ∨ under = Some x ∨ under = Some y;
  dp_Hs : Shape under h r all;
  dp_HA : all !! i = Some A;
  dp_Hadj : ∃ X Y, A = X ++ x :: y :: Y;
  dp_hx : h !! x = Some nx;
  dp_hy : h !! y = Some ny;
  dp_lx : isLeaf nx = false;
  dp_h'x : h' !! x = Some nx';
  dp_h'y : h' !! y = Some ny';
  dp_Ex : isLeaf nx' = false ∧ parent nx' = parent nx ∧
          length (children nx') = S (length (keys nx')) ∧ (1 ≤ length (keys nx'))%nat;
  dp_Ey : isLeaf ny' = false ∧ parent ny' = parent ny ∧
          length (children ny') = S (length (keys ny')) ∧ (1 ≤ length (keys ny'))%nat;
  dp_Ekids : children nx' ++ children ny' = children nx ++ children ny;
  dp_Hcx : ∀ c cn, c ∈ children nx' → h !! c = Some cn →
    h' !! c = Some (set_parent (Some x) cn);
  dp_Hcy : ∀ c cn, c ∈ children ny' → h !! c = Some cn →
    h' !! c = Some (set_parent (Some y) cn);
  dp_Hfr : ∀ q n, q ∈ mjoin all → q ≠ x → q ≠ y →
    q ∉ children nx ++ children ny → h !! q = Some n →
    ∃ n', h' !! q = Some n' ∧ sameLinks n n' ∧ values n' = values n
}.

Variables (under : option ptr) (h h' : list (TreeNode K V)) (r : ptr).
Variable all : list (list ptr).
Variables (i : nat) (A : list ptr) (x y : ptr).
Variables (nx ny nx' ny' : TreeNode K V).
Local Abbreviation pre := (RedistPre under h h' r all i A x y nx ny nx' ny').

Ltac rd_open Hpre :=
  pose proof Hpre as [Hu Hs HA Hadj hx hy lx h'x h'y Ex Ey Ekids Hcx Hcy Hfr].

Lemma rd_lv (Hpre : pre) : levelsOK h all.
Proof. rd_open Hpre. apply Hs. Qed.

Lemma rd_nd (Hpre : pre) : NoDup (mjoin all).
Proof. rd_open Hpre. apply Hs. Qed.

Lemma rd_split (Hpre : pre) :
  ∃ X Y, A = X ++ x :: y :: Y ∧ (x ∉ X) ∧ (y ∉ X) ∧ (x ∉ Y) ∧ (y ∉ Y) ∧ x ≠ y.
Proof. rd_open Hpre.
  destruct Hadj as (X & Y & HXY). exists X, Y. split; [done|].
  assert (NoDup A) as Hnd by (eapply levels_NoDup; [apply (rd_nd Hpre)|apply HA]).
  rewrite HXY in Hnd.
  apply NoDup_app in Hnd as (_ & Hd & Hnd).
  apply NoDup_cons in Hnd as [Hs1 Hnd]. apply NoDup_cons in Hnd as [Hv1 _].
  repeat split.
  - intros Hx. apply (Hd x Hx). left.
  - intros Hx. apply (Hd y Hx). right. left.
  - intros Hx. apply Hs1. by right.
  - done.
  - intros ->. apply Hs1. left.
Qed.

Lemma rd_xA (Hpre : pre) : x ∈ A.
Proof.
  destruct (rd_split Hpre) as (X & Y & -> & _). apply elem_of_app. right. left.
Qed.

Lemma rd_yA (Hpre : pre) : y ∈ A.
Proof.
  destruct (rd_split Hpre) as (X & Y & -> & _). apply elem_of_app. right. right. left.
Qed.

Lemma rd_xin (Hpre : pre) : x ∈ mjoin all.
Proof. rd_open Hpre. apply (level_in all i A x HA (rd_xA Hpre)). Qed.

Lemma rd_yin (Hpre : pre) : y ∈ mjoin all.
Proof. rd_open Hpre. apply (level_in all i A y HA (rd_yA Hpre)). Qed.

Lemma rd_B (Hpre : pre) :
  ∃ B, all !! S i = Some B ∧ B = A ≫= kids h ∧ Forall (innerAt h) A.
Proof. rd_open Hpre.
  pose proof (rd_lv Hpre i A HA) as Hl. destruct (all !! S i) as [B|] eqn:EB.
  - exists B. by destruct Hl.
  - rewrite Forall_forall in Hl. destruct (Hl x (rd_xA Hpre)) as (n & Hn & ? & _).
    congruence.
Qed.

Lemma rd_ly (Hpre : pre) : isLeaf ny = false.
Proof. rd_open Hpre.
  destruct (rd_B Hpre) as (B & _ & _ & Hin). rewrite Forall_forall in Hin.
  destruct (Hin y (rd_yA Hpre)) as (n & Hn & ? & _). congruence.
Qed.

Lemma rd_level_ne k X q (Hpre : pre) :
  all !! k = Some X → q ∈ X → k ≠ i → q ≠ x ∧ q ≠ y.
Proof. rd_open Hpre.
  intros Hk Hq Hne. split; intros ->; apply Hne.
  - apply (levels_disjoint all _ _ _ _ x (rd_nd Hpre) Hk HA Hq (rd_xA Hpre)).
  - apply (levels_disjoint all _ _ _ _ y (rd_nd Hpre) Hk HA Hq (rd_yA Hpre)).
Qed.

Lemma rd_child (Hpre : pre) c :
  c ∈ children nx ++ children ny →
  c ∈ mjoin all ∧ c ≠ x ∧ c ≠ y ∧ (c ∈ kids h x ∨ c ∈ kids h y).
Proof. rd_open Hpre.
  intros Hc. destruct (rd_B Hpre) as (B & HB & HBA & _).
  assert (c ∈ kids h x ∨ c ∈ kids h y) as Hk.
  { rewrite (kids_lookup _ _ _ hx), (kids_lookup _ _ _ hy). by apply elem_of_app. }
  assert (c ∈ B) as HcB.
  { rewrite HBA. apply list_elem_of_bind.
    destruct Hk; [exists x|exists y]; (split; [done|]).
    - apply (rd_xA Hpre).
    - apply (rd_yA Hpre). }
  split; [solve_in|]. destruct (rd_level_ne (S i) B c Hpre HB HcB) as [? ?]; [lia|done].
Qed.

(** What every node other than [x] and [y] keeps. *)
Lemma rd_other (Hpre : pre) q :
  q ∈ mjoin all → q ≠ x → q ≠ y →
  ∃ n n', h !! q = Some n ∧ h' !! q = Some n' ∧
    isLeaf n' = isLeaf n ∧ children n' = children n ∧ next n' = next n ∧
    values n' = values n ∧
    (isLeaf n = false → length (keys n') = length (keys n)) ∧
    (isLeaf n = true → Key <$> values n = keys n → Key <$> values n' = keys n') ∧
    (q ∉ children nx ++ children ny → parent n' = parent n).
Proof. rd_open Hpre.
  intros Hq H1 H2. destruct (node_lookup _ _ (rd_lv Hpre) q Hq) as [n Hn].
  destruct (decide (q ∈ children nx ++ children ny)) as [Hin|Hout].
  - rewrite <-Ekids in Hin. apply elem_of_app in Hin as [Hin|Hin].
    + exists n, (set_parent (Some x) n). split; [done|]. split; [by apply Hcx|].
      repeat split; try done. intros Hout. exfalso. apply Hout.
      rewrite <-Ekids. apply elem_of_app. by left.
    + exists n, (set_parent (Some y) n). split; [done|]. split; [by apply Hcy|].
      repeat split; try done. intros Hout. exfalso. apply Hout.
      rewrite <-Ekids. apply elem_of_app. by right.
  - destruct (Hfr q n Hq H1 H2 Hout Hn) as (n' & Hn' & (E1 & E2 & E3 & E4 & E5 & E6) & E7).
    exists n, n'. repeat split; done.
Qed.

Lemma rd_kids_other (Hpre : pre) q :
  q ∈ mjoin all → q ≠ x → q ≠ y → kids h' q = kids h q.
Proof.
  intros Hq H1 H2. destruct (rd_other Hpre q Hq H1 H2) as (n & n' & Hn & Hn' & _ & E & _).
  by rewrite (kids_lookup _ _ _ Hn), (kids_lookup _ _ _ Hn').
Qed.

Lemma rd_vals_other (Hpre : pre) q :
  q ∈ mjoin all → q ≠ x → q ≠ y → vals h' q = vals h q.
Proof.
  intros Hq H1 H2.
  destruct (rd_other Hpre q Hq H1 H2) as (n & n' & Hn & Hn' & _ & _ & _ & E & _).
  by rewrite (vals_lookup _ _ _ Hn), (vals_lookup _ _ _ Hn').
Qed.

Lemma rd_inner_other (Hpre : pre) q :
  q ∈ mjoin all → q ≠ x → q ≠ y → innerAt h q → innerAt h' q.
Proof.
  intros Hq H1 H2 (n & Hn & Hl & Har).
  destruct (rd_other Hpre q Hq H1 H2) as (n0 & n' & Hn0 & Hn' & E1 & E2 & _ & _ & E3 & _).
  assert (n0 = n) as -> by congruence. exists n'. split; [done|]. split; [congruence|].
  rewrite E2, E3 by done. done.
Qed.

Lemma rd_leaf_other (Hpre : pre) q :
  q ∈ mjoin all → q ≠ x → q ≠ y → leafAt h q → leafAt h' q.
Proof.
  intros Hq H1 H2 (n & Hn & Hl & Hc & Hkv).
  destruct (rd_other Hpre q Hq H1 H2) as (n0 & n' & Hn0 & Hn' & E1 & E2 & _ & _ & _ & E3 & _).
  assert (n0 = n) as -> by congruence. exists n'. split; [done|]. split; [congruence|].
  split; [congruence|]. by apply E3.
Qed.

Lemma rd_levels (Hpre : pre) : levelsOK h' all.
Proof. rd_open Hpre.
  intros k X Hk. destruct (decide (k = i)) as [->|Hne].
  - assert (X = A) as -> by congruence.
    destruct (rd_B Hpre) as (B & HB & HBA & Hin). rewrite HB.
    rewrite Forall_forall in Hin. split.
    + rewrite Forall_forall. intros q Hq.
      destruct (decide (q = x)) as [->|H1].
      { exists nx'. split; [done|]. by destruct Ex as (? & _ & ? & _). }
      destruct (decide (q = y)) as [->|H2].
      { exists ny'. split; [done|]. by destruct Ey as (? & _ & ? & _). }
      apply (rd_inner_other Hpre); auto. solve_in.
    + rewrite HBA. destruct (rd_split Hpre) as (X & Y & HXY & H1 & H2 & H3 & H4 & H5).
      rewrite HXY. rewrite !bind_app, !bind_cons.
      rewrite (kids_lookup _ _ _ hx), (kids_lookup _ _ _ hy),
        (kids_lookup _ _ _ h'x), (kids_lookup _ _ _ h'y).
      rewrite !(assoc_L (++) (children _) (children _)), Ekids.
      f_equal; [|f_equal]; apply bind_ext_in; intros q Hq; symmetry;
        apply (rd_kids_other Hpre).
      * apply (level_in all i _ q HA). rewrite HXY. apply elem_of_app. by left.
      * by intros ->.
      * by intros ->.
      * apply (level_in all i _ q HA). rewrite HXY. apply elem_of_app. right. right. by right.
      * by intros ->.
      * by intros ->.
  - pose proof (rd_lv Hpre k X Hk) as Hl. destruct (all !! S k) as [Y|] eqn:EY.
    + destruct Hl as [Hin HY]. split.
      * rewrite Forall_forall in Hin |- *. intros q Hq.
        destruct (rd_level_ne k X q Hpre Hk Hq Hne) as [? ?].
        apply (rd_inner_other Hpre); auto. solve_in.
      * rewrite HY. symmetry. apply bind_ext_in. intros q Hq.
        destruct (rd_level_ne k X q Hpre Hk Hq Hne) as [? ?].
        apply (rd_kids_other Hpre); auto. solve_in.
    + rewrite Forall_forall in Hl |- *. intros q Hq.
      destruct (rd_level_ne k X q Hpre Hk Hq Hne) as [? ?].
      apply (rd_leaf_other Hpre); auto. solve_in.
Qed.

Lemma rd_parent_keep (Hpre : pre) q :
  q ∈ mjoin all → q ∉ children nx ++ children ny → parentOf h' q = parentOf h q.
Proof. rd_open Hpre.
  intros Hq Hout. destruct (decide (q = x)) as [->|H1].
  { rewrite (parentOf_lookup _ _ _ hx), (parentOf_lookup _ _ _ h'x).
    by destruct Ex as (_ & -> & _). }
  destruct (decide (q = y)) as [->|H2].
  { rewrite (parentOf_lookup _ _ _ hy), (parentOf_lookup _ _ _ h'y).
    by destruct Ey as (_ & -> & _). }
  destruct (rd_other Hpre q Hq H1 H2) as (n & n' & Hn & Hn' & _ & _ & _ & _ & _ & _ & E).
  rewrite (parentOf_lookup _ _ _ Hn), (parentOf_lookup _ _ _ Hn'). by rewrite E.
Qed.

Lemma rd_parents (Hpre : pre) q c :
  q ∈ mjoin all → c ∈ kids h' q → parentOf h' c = Some (Some q).
Proof. rd_open Hpre.
  intros Hqin Hc.
  assert (∀ c, c ∈ children nx' ++ children ny' →
            ∃ cn, h !! c = Some cn) as Hlk.
  { intros c0 Hc0. rewrite Ekids in Hc0.
    destruct (rd_child Hpre c0 Hc0) as (Hin & _).
    apply (node_lookup _ _ (rd_lv Hpre) c0 Hin). }
  destruct (decide (q = x)) as [->|H1].
  { rewrite (kids_lookup _ _ _ h'x) in Hc.
    destruct (Hlk c) as [cn Hcn]; [apply elem_of_app; by left|].
    by rewrite (parentOf_lookup _ _ _ (Hcx c cn Hc Hcn)). }
  destruct (decide (q = y)) as [->|H2].
  { rewrite (kids_lookup _ _ _ h'y) in Hc.
    destruct (Hlk c) as [cn Hcn]; [apply elem_of_app; by right|].
    by rewrite (parentOf_lookup _ _ _ (Hcy c cn Hc Hcn)). }
  rewrite (rd_kids_other Hpre) in Hc by done.
  assert (c ∈ mjoin all) as Hcin
    by (eapply kids_in_nodes; [apply (rd_lv Hpre)|apply Hqin|done]).
  rewrite (rd_parent_keep Hpre); [by apply (sh_parents _ _ _ _ Hs)|done|].
  intros Hcc. destruct (rd_child Hpre c Hcc) as (_ & _ & _ & [Hk|Hk]).
  - apply H1. by eapply (parent_unique _ _ _ _ q x c Hs); [|apply (rd_xin Hpre)| |].
  - apply H2. by eapply (parent_unique _ _ _ _ q y c Hs); [|apply (rd_yin Hpre)| |].
Qed.

Lemma rd_top_ne (Hpre : pre) q : q ∈ [r] → q ≠ x ∧ q ≠ y ∧ q ∉ children nx ++ children ny.
Proof. rd_open Hpre.
  intros Hq. pose proof (sh_top _ _ _ _ Hs) as Htop.
  assert (i ≠ 0%nat) as Hi.
  { intros Hi0. destruct (rd_split Hpre) as (X & Y & HXY & _).
    assert (A = [r]) as HAr by (rewrite Hi0 in HA; congruence). rewrite HAr in HXY.
    apply (f_equal length) in HXY. rewrite length_app in HXY. simpl in HXY. lia. }
  assert (q ≠ x ∧ q ≠ y) as [? ?].
  { split; intros ->.
    - apply Hi. apply (levels_disjoint all _ _ _ _ x (rd_nd Hpre) HA Htop (rd_xA Hpre) Hq).
    - apply Hi. apply (levels_disjoint all _ _ _ _ y (rd_nd Hpre) HA Htop (rd_yA Hpre) Hq). }
  split; [done|]. split; [done|]. intros Hc.
  destruct (rd_child Hpre q Hc) as (_ & _ & _ & Hk).
  pose proof (sh_root _ _ _ _ Hs) as Hr. apply list_elem_of_singleton in Hq as ->.
  destruct Hk as [Hk|Hk].
  - pose proof (sh_parents _ _ _ _ Hs x r (rd_xin Hpre) Hk). congruence.
  - pose proof (sh_parents _ _ _ _ Hs y r (rd_yin Hpre) Hk). congruence.
Qed.

Lemma rd_leaf_ne (Hpre : pre) q : q ∈ leafLevel all → q ≠ x ∧ q ≠ y.
Proof. rd_open Hpre.
  intros Hq.
  assert (∃ k, all !! k = Some (leafLevel all) ∧ all !! S k = None) as (k & Hk & Hk').
  { exists (pred (length all)). pose proof (lookup_lt_Some _ _ _ HA). split.
    - unfold leafLevel. rewrite <-last_lookup.
      destruct all as [|X l] using rev_ind; [done|].
      by rewrite last_snoc, List.last_last.
    - apply lookup_ge_None. lia. }
  apply (rd_level_ne k _ q Hpre Hk Hq). intros ->.
  destruct (rd_B Hpre) as (B & HB & _). congruence.
Qed.

Theorem Shape_redistribute (Hpre : pre) :
  Shape None h' r all ∧ entries h' (leafLevel all) = entries h (leafLevel all).
Proof. rd_open Hpre.
  assert (r ∈ [r]) as Hrr by left.
  assert (r ∈ mjoin all) as Hr by (apply (level_in all 0 [r] r (sh_top _ _ _ _ Hs) Hrr)).
  split; [split|].
  - apply Hs.
  - apply (rd_levels Hpre).
  - apply Hs.
  - destruct (rd_top_ne Hpre r Hrr) as (_ & _ & ?).
    rewrite (rd_parent_keep Hpre); [apply Hs|done|done].
  - apply (rd_parents Hpre).
  - eapply chainOK_frame; [|apply Hs]. intros l n Hl Hn.
    destruct (rd_leaf_ne Hpre l Hl) as [H1 H2].
    destruct (rd_other Hpre l (leafLevel_in_nodes _ _ Hl) H1 H2)
      as (n0 & n' & Hn0 & Hn' & _ & _ & E & _).
    assert (n0 = n) as -> by congruence. eauto.
  - intros q n Hq Hn Hl _.
    destruct (decide (q = x)) as [->|H1].
    { assert (n = nx') as -> by congruence. by destruct Ex as (_ & _ & _ & ?). }
    destruct (decide (q = y)) as [->|H2].
    { assert (n = ny') as -> by congruence. by destruct Ey as (_ & _ & _ & ?). }
    destruct (rd_other Hpre q Hq H1 H2) as (n0 & n' & Hn0 & Hn' & E1 & _ & _ & _ & E2 & _).
    assert (n' = n) as -> by congruence. rewrite E1 in Hl. rewrite E2 by done.
    apply (sh_keys _ _ _ _ Hs q n0 Hq Hn0 Hl).
    destruct Hu as [->|[->| ->]]; congruence.
  - apply bind_ext_in. intros q Hq. destruct (rd_leaf_ne Hpre q Hq) as [H1 H2].
    apply (rd_vals_other Hpre); auto. by apply leafLevel_in_nodes.
Qed.

End Redistribute.

(** ** Running the methods step by step *)

Section Run.
Context {K V : Type}.
Implicit Types (t : BPlusTree K V) (n : TreeNode K V) (h : list (TreeNode K V)).

Lemma run_getNode {A} p t n (k : TreeNode K V → M K V A) :
  heap t !! p = Some n → (getNode p ≫= k) t = k n t.
Proof. intros H. by rewrite bind_unfold, (getNode_lookup _ _ _ H). Qed.

Lemma run_modNode {A} p f t n (k : unit → M K V A) :
  heap t !! p = Some n → (modNode p f ≫= k) t = k tt (set_heap (alter f p) t).
Proof. intros H. by rewrite bind_unfold, (modNode_lookup _ _ _ _ H). Qed.

Lemma run_newNode {A} n t (k : ptr → M K V A) :
  (newNode n ≫= k) t = k (length (heap t)) (set_heap (λ h, h ++ [n]) t).
Proof. done. Qed.

Lemma run_gets {A B} (f : BPlusTree K V → B) t (k : B → M K V A) :
  (gets f ≫= k) t = k (f t) t.
Proof. done. Qed.

Lemma run_modify {A} (f : BPlusTree K V → BPlusTree K V) t (k : unit → M K V A) :
  (modify f ≫= k) t = k tt (f t).
Proof. done. Qed.

Lemma run_ret {A B} (a : B) t (k : B → M K V A) : (mret a ≫= k) t = k a t.
Proof. done. Qed.

Lemma run_index {A B} (l : list B) i a t (k : B → M K V A) :
  l !! i = Some a → (index l i ≫= k) t = k a t.
Proof. intros H. rewrite bind_unfold. unfold index. by rewrite H. Qed.

Lemma run_guard {A} (b : bool) t (k : unit → M K V A) :
  b = true → (guard b ≫= k) t = k tt t.
Proof. by intros ->. Qed.

Lemma run_bind_Some {A B} (m : M K V B) t b t1 (k : B → M K V A) :
  m t = Some (b, t1) → (m ≫= k) t = k b t1.
Proof. intros H. by rewrite bind_unfold, H. Qed.

Lemma lookup_app_new h n : (h ++ [n]) !! length h = Some n.
Proof. by apply list_lookup_middle. Qed.

(** [setParents] as a function on the heap. *)
Fixpoint reparent (cs : list ptr) (a : ptr) h : list (TreeNode K V) :=
  match cs with
  | [] => h
  | c :: cs' => reparent cs' a (alter (set_parent (Some a)) c h)
  end.

Lemma length_reparent cs a h : length (reparent cs a h) = length h.
Proof.
  revert h. induction cs as [|c cs IH]; intros h; [done|]. simpl.
  by rewrite IH, length_alter.
Qed.

Lemma reparent_lookup_notin cs a h q : q ∉ cs → reparent cs a h !! q = h !! q.
Proof.
  revert h. induction cs as [|c cs IH]; intros h Hq; [done|]. simpl.
  apply not_elem_of_cons in Hq as [Hne Hq]. rewrite IH by done.
  by rewrite list_lookup_alter_ne.
Qed.

Lemma reparent_lookup_in cs a h q :
  q ∈ cs → reparent cs a h !! q = set_parent (Some a) <$> h !! q.
Proof.
  revert h. induction cs as [|c cs IH]; intros h Hq; [by apply elem_of_nil in Hq|].
  simpl. destruct (decide (q ∈ cs)) as [Hin|Hout].
  - rewrite IH by done. destruct (decide (c = q)) as [->|Hne].
    + rewrite list_lookup_alter_eq. by destruct (h !! q).
    + by rewrite list_lookup_alter_ne.
  - rewrite reparent_lookup_notin by done.
    apply elem_of_cons in Hq as [->|Hq]; [|done]. apply list_lookup_alter_eq.
Qed.

Lemma setParents_run cs a t :
  (∀ c, c ∈ cs → (c < length (heap t))%nat) →
  setParents cs a t = Some (tt, set_heap (reparent cs a) t).
Proof.
  revert t. induction cs as [|c cs IH]; intros t Hcs; simpl.
  - by destruct t.
  - destruct (lookup_lt_is_Some_2 (heap t) c) as [n Hn]; [apply Hcs; left|].
    rewrite (run_modNode _ _ _ _ _ Hn), IH; [done|].
    intros c' Hc'. simpl. rewrite length_alter. apply Hcs. by right.
Qed.

Lemma run_setParents {A} cs a t (k : unit → M K V A) :
  (∀ c, c ∈ cs → (c < length (heap t))%nat) →
  (setParents cs a ≫= k) t = k tt (set_heap (reparent cs a) t).
Proof. intros H. by rewrite bind_unfold, setParents_run. Qed.

(** The parts of the tree record no method changes. *)
Definition sameConfig t t' : Prop :=
  order t' = order t ∧ minKeys t' = minKeys t ∧ minChildren t' = minChildren t ∧
  comparator t' = comparator t ∧ count t' = count t.

Lemma sameConfig_refl t : sameConfig t t.
Proof. done. Qed.

Lemma sameConfig_trans t1 t2 t3 : sameConfig t1 t2 → sameConfig t2 t3 → sameConfig t1 t3.
Proof. unfold sameConfig. intuition congruence. Qed.

Lemma sameConfig_heap f t : sameConfig t (set_heap f t).
Proof. done. Qed.

Lemma sameConfig_root r t : sameConfig t (set_root r t).
Proof. done. Qed.

End Run.

(** Lookups in a heap built from [alter], [reparent] and allocation. *)
Ltac addr :=
  first [done | congruence | lia
        | repeat match goal with x := _ |- _ => subst x end; simpl; lia].

Ltac lk :=
  repeat first
    [ rewrite list_lookup_alter_eq
    | rewrite list_lookup_alter_ne by addr
    | rewrite lookup_app_new
    | rewrite list_lookup_middle
        by (rewrite ?length_alter, ?length_reparent, ?length_app; simpl; addr)
    | rewrite lookup_app_l
        by (rewrite ?length_alter, ?length_reparent, ?length_app; simpl; addr)
    | rewrite reparent_lookup_notin by addr ].

Ltac lkH :=
  lk; repeat match goal with
      | H : ?l !! ?i = Some _ |- context [?l !! ?i] => rewrite H
      end.

(** Projections of updated nodes and trees. *)
Ltac fields :=
  cbn [keys values children isLeaf next parent
       set_keys set_values set_children set_next set_parent].
Tactic Notation "fields" "in" hyp(H) :=
  cbn [keys values children isLeaf next parent
       set_keys set_values set_children set_next set_parent] in H.
Ltac heaps :=
  cbn [heap root order minKeys minChildren comparator count
       set_heap set_root set_count].

(** ** [Insert]: splits keep the invariant *)

Section InsertPath.
Context {K V : Type}.
Implicit Types (t : BPlusTree K V) (n : TreeNode K V) (h : list (TreeNode K V)).
Implicit Types (p q c : ptr) (A B L : list ptr) (all : list (list ptr)).

Lemma node_lt h all q : levelsOK h all → q ∈ mjoin all → (q < length h)%nat.
Proof.
  intros Hlv Hq. destruct (node_lookup _ _ Hlv q Hq) as [n Hn].
  by eapply lookup_lt_Some.
Qed.

Lemma inner_lookup h all i A B q :
  levelsOK h all → all !! i = Some A → all !! S i = Some B → q ∈ A →
  ∃ n, h !! q = Some n ∧ isLeaf n = false ∧
       length (children n) = S (length (keys n)).
Proof. intros Hlv Hi HB Hq. by destruct (level_inner h all Hlv i A B q Hi HB Hq) as [? _]. Qed.

(** An Internal node of the tree is not on the last level. *)
Lemma inner_has_level h all i A q n :
  levelsOK h all → all !! i = Some A → q ∈ A → h !! q = Some n → isLeaf n = false →
  ∃ B, all !! S i = Some B ∧ B = A ≫= kids h ∧
       length (children n) = S (length (keys n)).
Proof.
  intros Hlv Hi Hq Hn Hl. pose proof (Hlv i A Hi) as H.
  destruct (all !! S i) as [B|].
  - destruct H as [Hin ->]. exists (A ≫= kids h). split; [done|]. split; [done|].
    rewrite Forall_forall in Hin. destruct (Hin q Hq) as (n' & Hn' & _ & ?). congruence.
  - rewrite Forall_forall in H. destruct (H q Hq) as (n' & Hn' & ? & _). congruence.
Qed.

Lemma length_insertAt {X} i (x : X) l : length (insertAt i x l) = S (length l).
Proof.
  unfold insertAt. rewrite length_app. simpl. rewrite length_take, length_drop. lia.
Qed.

Lemma length_removeAt {X} i (l : list X) :
  (i < length l)%nat → S (length (removeAt i l)) = length l.
Proof.
  intros Hi. unfold removeAt. rewrite length_app, length_take, length_drop. lia.
Qed.

Lemma top_level_root under h r all A p n :
  Shape under h r all → all !! 0%nat = Some A → p ∈ A → h !! p = Some n →
  p = r ∧ parent n = None.
Proof.
  intros Hs HA Hp Hn. rewrite (sh_top _ _ _ _ Hs) in HA. simplify_eq.
  apply list_elem_of_singleton in Hp as ->. split; [done|].
  pose proof (sh_root _ _ _ _ Hs) as E. rewrite (parentOf_lookup _ _ _ Hn) in E.
  congruence.
Qed.

(** [splitInternalNode] on an Internal node with at least three separators
    returns, keeps the shape and the entries, and changes neither [order]
    nor [count]. *)
Lemma splitInternalNode_ok fuel : ∀ t all i A p np,
  3 ≤ order t →
  Shape None (heap t) (root t) all →
  all !! i = Some A → p ∈ A → heap t !! p = Some np → isLeaf np = false →
  (3 ≤ length (keys np))%nat → (i < fuel)%nat →
  ∃ t' all', splitInternalNode fuel p t = Some (tt, t') ∧
     Shape None (heap t') (root t') all' ∧
     entries (heap t') (leafLevel all') = entries (heap t) (leafLevel all) ∧
     sameConfig t t' ∧
     (length all ≤ length all' ≤ S (length all))%nat.
Proof.
  induction fuel as [|fuel IH]; intros t all i A p np Hord Hs HA Hp Hnp Hleaf Hlen Hfuel; [lia|].
  pose proof (sh_levels _ _ _ _ Hs) as Hlv.
  pose proof (sh_nodup _ _ _ _ Hs) as Hnd.
  destruct (inner_has_level _ _ _ _ _ _ Hlv HA Hp Hnp Hleaf) as (B & HB & HBA & Har).
  set (h := heap t) in *. set (a := length h).
  set (sp := (length (keys np) / 2)%nat).
  assert (sp < length (keys np))%nat as Hsp by (subst sp; apply Nat.div_lt; lia).
  assert (1 ≤ sp)%nat as Hsp1.
  { subst sp. change 1%nat with (2 / 2)%nat. apply Nat.Div0.div_le_mono. lia. }
  assert (1 ≤ length (keys np) - S sp)%nat as Hsp2.
  { subst sp. pose proof (Nat.div_mod_eq (length (keys np)) 2).
    pose proof (Nat.mod_upper_bound (length (keys np)) 2). lia. }
  destruct (lookup_lt_is_Some_2 (keys np) sp Hsp) as [midKey HmidKey].
  set (moved := drop (S sp) (children np)).
  assert (∀ c, c ∈ moved → c ∈ kids h p) as Hmoved_kids.
  { intros c Hc. rewrite (kids_lookup _ _ _ Hnp). subst moved.
    by apply (subseteq_drop (S sp) (children np)). }
  assert (p ∈ mjoin all) as Hpin by solve_in.
  assert (∀ c, c ∈ kids h p → c ∈ B ∧ c ∈ mjoin all ∧ (c < length h)%nat ∧ c ≠ p) as Hkid.
  { intros c Hc. assert (c ∈ B) as HcB.
    { rewrite HBA. apply list_elem_of_bind. eauto. }
    split; [done|]. split; [solve_in|]. split; [eapply node_lt; [done|solve_in]|].
    intros ->. pose proof (levels_disjoint all _ _ _ _ p Hnd HB HA HcB Hp). lia. }
  assert (p < length h)%nat as Hplt by (by eapply node_lt).
  cbn [splitInternalNode]. rewrite (run_getNode _ _ _ _ Hnp).
  fold sp. rewrite (run_index _ _ _ _ _ HmidKey).
  rewrite run_guard by (apply Nat.leb_le; lia).
  rewrite run_newNode. fold h a moved.
  rewrite run_setParents; cycle 1.
  { intros c Hc. heaps. rewrite length_app. simpl.
    destruct (Hkid c (Hmoved_kids c Hc)) as (_ & _ & ? & _). fold h. lia. }
  assert (p ∉ moved) as Hpmoved.
  { intros Hin. destruct (Hkid p (Hmoved_kids p Hin)); tauto. }
  erewrite run_modNode by (heaps; lk; done).
  destruct (parent np) as [par|] eqn:Epar.
  - (* the node has a parent *)
    destruct i as [|j].
    { destruct (top_level_root _ _ _ _ _ _ _ Hs HA Hp Hnp). congruence. }
    destruct (parent_level _ _ _ _ _ _ _ _ _ Hs HA Hp Hnp Epar) as (P & HP & Hpar & Hpk).
    destruct (inner_lookup _ _ _ _ _ _ Hlv HP HA Hpar) as (npar & Hnpar & Hparleaf & Hparar).
    rewrite (kids_lookup _ _ _ Hnpar) in Hpk.
    destruct (childPos_elem _ _ Hpk) as [pos Hpos].
    destruct (childPos_Some _ _ _ Hpos) as [Hposl _].
    assert (pos < length (children npar))%nat as Hposlt by (by eapply lookup_lt_Some).
    assert (par ∈ mjoin all) as Hparin by solve_in.
    assert (par < length h)%nat as Hparlt by (by eapply node_lt).
    assert (par ≠ p) as Hparp.
    { intros ->. pose proof (levels_disjoint all _ _ _ _ p Hnd HP HA Hpar Hp). lia. }
    assert (par ∉ moved) as Hparmoved.
    { intros Hin. destruct (Hkid par (Hmoved_kids par Hin)) as (HinB & _).
      pose proof (levels_disjoint all _ _ _ _ par Hnd HP HB Hpar HinB). lia. }
    assert (a ∉ moved) as Hamoved.
    { intros Hin. destruct (Hkid a (Hmoved_kids a Hin)) as (_ & _ & Hlt & _).
      subst a. lia. }
    assert (a ≠ p) as Hap by (subst a; lia).
    assert (a ≠ par) as Hapar by (subst a; lia).
    erewrite run_getNode by (heaps; fold h; lkH; done).
    rewrite Hpos. rewrite run_guard by (apply Nat.leb_le; lia).
    erewrite run_modNode by (heaps; fold h; lkH; done).
    erewrite run_modNode by (heaps; fold h; lkH; done).
    erewrite run_getNode by (heaps; fold h; lkH; done).
    rewrite run_gets.
    set (t2 := set_heap (alter (set_parent (Some par)) a) _).
    set (newN := mkNode (drop (S sp) (keys np)) [] moved false None (Some par)) in t2.
    assert (SplitPre None h (heap t2) (root t) all j P A par p a npar np
              (set_children (insertAt (S pos) a) (set_keys (insertAt pos midKey) npar))
              (set_children (take (S sp)) (set_keys (take sp) np))
              (set_parent (Some par) newN)) as Hpre.
    { split; try done.
      - by left.
      - intros Hin. pose proof (node_lt _ _ _ Hlv Hin). subst a. lia.
      - subst t2. heaps. fold h. lkH. done.
      - subst t2. heaps. fold h. lkH. done.
      - subst t2. heaps. fold h. lkH. done.
      - intros c cn Hc Hcn. subst newN. fields in Hc.
        destruct (Hkid c (Hmoved_kids c Hc)) as (_ & _ & Hclt & Hcp).
        assert (c ≠ par) by (by intros ->). assert (c ≠ a) by (subst a; lia).
        subst t2. heaps. fold h. lk.
        rewrite reparent_lookup_in by done. lk. by rewrite Hcn.
      - intros q Hq Hqp Hqpar Hqm. subst newN. fields in Hqm.
        pose proof (node_lt _ _ _ Hlv Hq). assert (q ≠ a) by (subst a; lia).
        subst t2. heaps. fold h. by lk.
      - fields. by apply childPos_insertAt.
      - fields. apply length_insertAt.
      - congruence.
      - intros _. subst newN. fields. subst moved. rewrite take_drop. split; [done|].
        rewrite !length_take, !length_drop. lia. }
    destruct (Shape_split_inner _ _ _ _ _ _ _ _ _ _ _ _ _ _ _ _ Hpre) as [Hs2 He2].
    change (order t2) with (order t).
    match goal with |- context [if ?b then _ else _] => destruct b eqn:Htest end;
      [apply Z.ltb_lt in Htest as Hfull|clear Htest].
    + fields in Hfull. rewrite length_insertAt in Hfull.
      destruct (IH t2 (<[S j := insertAfter p a A]> all) j P par
                  (set_children (insertAt (S pos) a) (set_keys (insertAt pos midKey) npar)))
        as (t' & all' & Hrun & Hs' & He' & Hc' & Hd'); try done.
      * by rewrite list_lookup_insert_ne by lia.
      * apply (sp_h'pp _ _ _ _ _ _ _ _ _ _ _ _ _ _ _ _ Hpre).
      * fields. rewrite length_insertAt. lia.
      * lia.
      * exists t', all'. split; [done|]. split; [done|]. split; [congruence|].
        split; [eapply sameConfig_trans; [|done]; done|].
        by rewrite length_insert in Hd'.
    + exists t2, (<[S j := insertAfter p a A]> all).
      repeat (split; [done|]). rewrite length_insert. lia.
  - (* the node is the root *)
    destruct (root_level _ _ _ _ _ _ _ _ Hs HA Hp Hnp Epar) as [-> Hpr].
    set (rt := S a).
    assert (a ∉ moved) as Hamoved.
    { intros Hin. destruct (Hkid a (Hmoved_kids a Hin)) as (_ & _ & Hlt & _).
      subst a. lia. }
    assert (rt ∉ moved) as Hrtmoved.
    { intros Hin. destruct (Hkid rt (Hmoved_kids rt Hin)) as (_ & _ & Hlt & _).
      subst rt a. lia. }
    assert (a ≠ p) as Hap by (subst a; lia).
    assert (rt ≠ p) as Hrtp by (subst rt a; lia).
    assert (rt ≠ a) as Hrta by (subst rt; lia).
    assert (∀ q, q ∈ mjoin all → q ≠ a ∧ q ≠ rt) as Hold.
    { intros q Hq. pose proof (node_lt _ _ _ Hlv Hq). subst rt a. lia. }
    rewrite run_newNode. heaps. rewrite !length_alter, !length_reparent, !length_app.
    fold h a. simpl length. replace (a + 1)%nat with rt by (subst rt; lia).
    erewrite run_modNode by (heaps; fold h; lkH; done).
    erewrite run_modNode by (heaps; fold h; lkH; done).
    unfold modify.
    set (t2 := set_root rt _).
    set (newN := mkNode (drop (S sp) (keys np)) [] moved false None None) in t2.
    set (nrt := mkNode (K:=K) (V:=V) [] [] [p] false None None).
    set (h1 := alter (set_parent (Some rt)) p ((h ++ [newN]) ++ [nrt])).
    assert (h1 !! rt = Some nrt) as Hh1rt.
    { subst h1. by lk. }
    assert (∀ q, q ∈ mjoin all → q ≠ p → h1 !! q = h !! q) as Hh1.
    { intros q Hq Hne. pose proof (node_lt _ _ _ Hlv Hq). subst h1. by lk. }
    assert (h1 !! p = Some (set_parent (Some rt) np)) as Hh1p.
    { subst h1. lk. by rewrite Hnp. }
    destruct (Shape_push_root h h1 (root t) rt all nrt) as [Hs1 He1]; try done.
    { intros Hin. destruct (Hold rt Hin). done. }
    { subst nrt. fields. by rewrite Hpr. }
    { intros q n Hq Hn. destruct (decide (q = root t)) as [->|Hne].
      - rewrite <-Hpr, Hh1p. congruence.
      - rewrite Hh1 by congruence. done. }
    assert (SplitPre (Some rt) h1 (heap t2) rt ([rt] :: all) 0 [rt] A rt p a nrt
              (set_parent (Some rt) np)
              (mkNode [midKey] [] [p; a] false None None)
              (set_parent (Some rt)
                 (set_children (take (S sp)) (set_keys (take sp) np)))
              (set_parent (Some rt) newN)) as Hpre.
    { split; try done.
      - by right.
      - apply list_elem_of_singleton. done.
      - subst nrt. fields. by left.
      - change (mjoin ([rt] :: all)) with (rt :: mjoin all).
        intros [Hin|Hin]%elem_of_cons; [done|]. by destruct (Hold a Hin).
      - subst t2. heaps. fold h. lkH. done.
      - subst t2. heaps. fold h. lkH. done.
      - subst t2. heaps. fold h. lkH. done.
      - intros c cn Hc Hcn. subst newN. fields in Hc.
        destruct (Hkid c (Hmoved_kids c Hc)) as (_ & Hcin & Hclt & Hcp).
        destruct (Hold c Hcin). rewrite Hh1 in Hcn by done.
        subst t2. heaps. fold h. lk.
        rewrite reparent_lookup_in by done. lk. by rewrite Hcn.
      - change (mjoin ([rt] :: all)) with (rt :: mjoin all).
        intros q [Hq|Hq]%elem_of_cons Hqp Hqrt Hqm; [done|].
        subst newN. fields in Hqm. destruct (Hold q Hq).
        pose proof (node_lt _ _ _ Hlv Hq). rewrite Hh1 by done.
        subst t2. heaps. fold h. by lk.
      - subst nrt. fields. simpl. by rewrite decide_True.
      - fields. congruence.
      - intros _. subst newN. fields. subst moved. rewrite take_drop. split; [done|].
        rewrite !length_take, !length_drop. lia. }
    destruct (Shape_split_inner _ _ _ _ _ _ _ _ _ _ _ _ _ _ _ _ Hpre) as [Hs2 He2].
    exists t2, (<[1%nat := insertAfter p a A]> ([rt] :: all)).
    split; [done|]. split; [done|]. split; [congruence|]. split; [done|].
    rewrite length_insert. simpl. lia.
Qed.

Lemma leafLevel_index all :
  all ≠ [] → ∃ i, all !! i = Some (leafLevel all) ∧ all !! S i = None.
Proof.
  induction all as [|X all IH]; [done|]. intros _. destruct all as [|Y all].
  - by exists 0%nat.
  - destruct IH as (i & Hi & Hn); [done|]. by exists (S i).
Qed.

Lemma leaf_lookup under h r all q :
  Shape under h r all → q ∈ leafLevel all →
  ∃ i n, all !! i = Some (leafLevel all) ∧ all !! S i = None ∧
    h !! q = Some n ∧ isLeaf n = true ∧ children n = [] ∧
    Key <$> values n = keys n.
Proof.
  intros Hs Hq.
  assert (all ≠ []) as Hne by (pose proof (sh_top _ _ _ _ Hs); by destruct all).
  destruct (leafLevel_index all Hne) as (i & Hi & Hn).
  destruct (level_leaf _ _ (sh_levels _ _ _ _ Hs) i _ q Hi Hn Hq) as (n & ? & ? & ? & ?).
  by exists i, n.
Qed.

(** [splitLeafNode] on a Leaf with at least one key. *)
Lemma splitLeafNode_ok t all leaf l :
  3 ≤ order t →
  Shape None (heap t) (root t) all →
  leaf ∈ leafLevel all → heap t !! leaf = Some l → (1 ≤ length (keys l))%nat →
  ∃ t' all', splitLeafNode leaf t = Some (tt, t') ∧
     Shape None (heap t') (root t') all' ∧
     entries (heap t') (leafLevel all') = entries (heap t) (leafLevel all) ∧
     sameConfig t t' ∧
     (length all ≤ length all' ≤ S (length all))%nat.
Proof.
  intros Hord Hs Hleaf Hl Hlen.
  pose proof (sh_levels _ _ _ _ Hs) as Hlv.
  pose proof (sh_nodup _ _ _ _ Hs) as Hnd.
  destruct (leaf_lookup _ _ _ _ _ Hs Hleaf) as (i & l' & HA & HB & Hl' & Hisleaf & Hnokids & Hkv).
  assert (l' = l) as -> by congruence. clear Hl'.
  set (h := heap t) in *. set (a := length h).
  set (sp := (length (keys l) / 2)%nat).
  assert (length (values l) = length (keys l)) as Hvl.
  { by rewrite <-Hkv, length_fmap. }
  assert (sp < length (keys l))%nat as Hsp by (subst sp; apply Nat.div_lt; lia).
  destruct (lookup_lt_is_Some_2 (drop sp (keys l)) 0) as [sep Hsep].
  { rewrite length_drop. lia. }
  assert (leaf ∈ mjoin all) as Hpin by solve_in.
  assert (leaf < length h)%nat as Hplt by (by eapply node_lt).
  assert (a ≠ leaf) as Hap by (subst a; lia).
  unfold splitLeafNode. rewrite (run_getNode _ _ _ _ Hl).
  fold sp. rewrite run_guard by (apply Nat.leb_le; lia).
  rewrite run_newNode. fold h a.
  erewrite run_modNode by (heaps; fold h; lkH; done).
  rewrite (run_index _ _ _ _ _ Hsep).
  destruct (parent l) as [par|] eqn:Epar.
  - (* the leaf has a parent *)
    destruct i as [|j].
    { destruct (top_level_root _ _ _ _ _ _ _ Hs HA Hleaf Hl). congruence. }
    destruct (parent_level _ _ _ _ _ _ _ _ _ Hs HA Hleaf Hl Epar) as (P & HP & Hpar & Hpk).
    destruct (inner_lookup _ _ _ _ _ _ Hlv HP HA Hpar) as (npar & Hnpar & Hparleaf & Hparar).
    rewrite (kids_lookup _ _ _ Hnpar) in Hpk.
    destruct (childPos_elem _ _ Hpk) as [pos Hpos].
    destruct (childPos_Some _ _ _ Hpos) as [Hposl _].
    assert (pos < length (children npar))%nat as Hposlt by (by eapply lookup_lt_Some).
    assert (par ∈ mjoin all) as Hparin by solve_in.
    assert (par < length h)%nat as Hparlt by (by eapply node_lt).
    assert (par ≠ leaf) as Hparp.
    { intros ->. pose proof (levels_disjoint all _ _ _ _ leaf Hnd HP HA Hpar Hleaf). lia. }
    assert (a ≠ par) as Hapar by (subst a; lia).
    erewrite run_getNode by (heaps; fold h; lkH; done).
    rewrite Hpos. rewrite run_guard by (apply Nat.leb_le; lia).
    erewrite run_modNode by (heaps; fold h; lkH; done).
    erewrite run_modNode by (heaps; fold h; lkH; done).
    erewrite run_getNode by (heaps; fold h; lkH; done).
    rewrite !run_gets.
    set (t2 := set_heap (alter (set_parent (Some par)) a) _).
    set (newN := mkNode (drop sp (keys l)) (drop sp (values l)) [] true (next l) (Some par)) in t2.
    assert (SplitPre None h (heap t2) (root t) all j P (leafLevel all) par leaf a npar l
              (set_children (insertAt (S pos) a) (set_keys (insertAt pos sep) npar))
              (set_next (Some a) (set_values (take sp) (set_keys (take sp) l)))
              (set_parent (Some par) newN)) as Hpre.
    { split; try done.
      - by left.
      - intros Hin. pose proof (node_lt _ _ _ Hlv Hin). subst a. lia.
      - subst t2. heaps. fold h. lkH. done.
      - subst t2. heaps. fold h. lkH. done.
      - subst t2. heaps. fold h. lkH. done.
      - intros c cn Hc. subst newN. fields in Hc. by apply elem_of_nil in Hc.
      - intros q Hq Hqp Hqpar _.
        pose proof (node_lt _ _ _ Hlv Hq). assert (q ≠ a) by (subst a; lia).
        subst t2. heaps. fold h. by lk.
      - fields. by apply childPos_insertAt.
      - fields. apply length_insertAt.
      - intros _. subst newN. fields. rewrite <-Hkv, <-!fmap_take, <-!fmap_drop.
        by rewrite take_drop.
      - congruence. }
    destruct (Shape_split_inner _ _ _ _ _ _ _ _ _ _ _ _ _ _ _ _ Hpre) as [Hs2 He2].
    change (order t2) with (order t).
    match goal with |- context [if ?b then _ else _] => destruct b eqn:Htest end;
      [apply Z.ltb_lt in Htest as Hfull|clear Htest].
    + fields in Hfull. rewrite length_insertAt in Hfull.
      destruct (splitInternalNode_ok (length (heap t2)) t2
                  (<[S j := insertAfter leaf a (leafLevel all)]> all) j P par
                  (set_children (insertAt (S pos) a) (set_keys (insertAt pos sep) npar)))
        as (t' & all' & Hrun & Hs' & He' & Hc' & Hd'); try done.
      * by rewrite list_lookup_insert_ne by lia.
      * apply (sp_h'pp _ _ _ _ _ _ _ _ _ _ _ _ _ _ _ _ Hpre).
      * fields. rewrite length_insertAt. lia.
      * pose proof (wf_depth_bounded _ t2 _ Hs2) as Hd.
        rewrite length_insert in Hd. apply lookup_lt_Some in HP. lia.
      * exists t', all'. split; [done|]. split; [done|]. split; [congruence|].
        split; [eapply sameConfig_trans; [|done]; done|].
        by rewrite length_insert in Hd'.
    + exists t2, (<[S j := insertAfter leaf a (leafLevel all)]> all).
      repeat (split; [done|]). rewrite length_insert. lia.
  - (* the leaf is the root *)
    destruct (root_level _ _ _ _ _ _ _ _ Hs HA Hleaf Hl Epar) as [-> Hpr].
    set (rt := S a).
    assert (rt ≠ leaf) as Hrtp by (subst rt a; lia).
    assert (rt ≠ a) as Hrta by (subst rt; lia).
    assert (∀ q, q ∈ mjoin all → q ≠ a ∧ q ≠ rt) as Hold.
    { intros q Hq. pose proof (node_lt _ _ _ Hlv Hq). subst rt a. lia. }
    rewrite run_newNode. heaps. rewrite !length_alter, !length_app.
    fold h a. simpl length. replace (a + 1)%nat with rt by (subst rt; lia).
    erewrite run_modNode by (heaps; fold h; lkH; done).
    erewrite run_modNode by (heaps; fold h; lkH; done).
    unfold modify.
    set (t2 := set_root rt _).
    set (newN := mkNode (drop sp (keys l)) (drop sp (values l)) [] true (next l) None) in t2.
    set (nrt := mkNode (K:=K) (V:=V) [] [] [leaf] false None None).
    set (h1 := alter (set_parent (Some rt)) leaf ((h ++ [newN]) ++ [nrt])).
    assert (h1 !! rt = Some nrt) as Hh1rt.
    { subst h1. by lk. }
    assert (∀ q, q ∈ mjoin all → q ≠ leaf → h1 !! q = h !! q) as Hh1.
    { intros q Hq Hne. pose proof (node_lt _ _ _ Hlv Hq). subst h1. by lk. }
    assert (h1 !! leaf = Some (set_parent (Some rt) l)) as Hh1p.
    { subst h1. lk. by rewrite Hl. }
    destruct (Shape_push_root h h1 (root t) rt all nrt) as [Hs1 He1]; try done.
    { intros Hin. destruct (Hold rt Hin). done. }
    { subst nrt. fields. by rewrite Hpr. }
    { intros q n Hq Hn. destruct (decide (q = root t)) as [->|Hne].
      - rewrite <-Hpr, Hh1p. congruence.
      - rewrite Hh1 by congruence. done. }
    assert (SplitPre (Some rt) h1 (heap t2) rt ([rt] :: all) 0 [rt] (leafLevel all)
              rt leaf a nrt
              (set_parent (Some rt) l)
              (mkNode [sep] [] [leaf; a] false None None)
              (set_parent (Some rt)
                 (set_next (Some a) (set_values (take sp) (set_keys (take sp) l))))
              (set_parent (Some rt) newN)) as Hpre.
    { split; try done.
      - by right.
      - apply list_elem_of_singleton. done.
      - subst nrt. fields. by left.
      - change (mjoin ([rt] :: all)) with (rt :: mjoin all).
        intros [Hin|Hin]%elem_of_cons; [done|]. by destruct (Hold a Hin).
      - subst t2. heaps. fold h. lkH. done.
      - subst t2. heaps. fold h. lkH. done.
      - subst t2. heaps. fold h. lkH. done.
      - intros c cn Hc. subst newN. fields in Hc. by apply elem_of_nil in Hc.
      - change (mjoin ([rt] :: all)) with (rt :: mjoin all).
        intros q [Hq|Hq]%elem_of_cons Hqp Hqrt _; [done|].
        destruct (Hold q Hq).
        pose proof (node_lt _ _ _ Hlv Hq). rewrite Hh1 by done.
        subst t2. heaps. fold h. by lk.
      - subst nrt. fields. simpl. by rewrite decide_True.
      - intros _. subst newN. fields. rewrite <-Hkv, <-!fmap_take, <-!fmap_drop.
        by rewrite take_drop.
      - fields. congruence. }
    destruct (Shape_split_inner _ _ _ _ _ _ _ _ _ _ _ _ _ _ _ _ Hpre) as [Hs2 He2].
    exists t2, (<[1%nat := insertAfter leaf a (leafLevel all)]> ([rt] :: all)).
    split; [done|]. split; [done|]. split; [congruence|]. split; [done|].
    rewrite length_insert. simpl. lia.
Qed.

End InsertPath.

Section InsertOk.
Context {K V : Type}.
Implicit Types (t : BPlusTree K V) (n : TreeNode K V) (h : list (TreeNode K V)).
Implicit Types (p q c : ptr) (A B L : list ptr) (all : list (list ptr)).

Lemma wrap64_add_l x y : wrap64 (wrap64 x + y) = wrap64 (x + y).
Proof.
  unfold wrap64. f_equal.
  replace ((x + 2 ^ 63) mod 2 ^ 64 - 2 ^ 63 + y + 2 ^ 63)
    with ((x + 2 ^ 63) mod 2 ^ 64 + y) by lia.
  rewrite Z.add_mod_idemp_l by lia. f_equal. lia.
Qed.

Lemma wrap64_small z : - 2 ^ 63 ≤ z < 2 ^ 63 → wrap64 z = z.
Proof. intros Hz. unfold wrap64. rewrite Z.mod_small; lia. Qed.

Lemma findKey_Some (cmp : Comparator) (key : option K) ks i :
  findKey cmp key ks = Some i → ∃ k, ks !! i = Some k ∧ cmp k key = 0.
Proof.
  revert i. induction ks as [|k ks IH]; intros i; simpl; [done|].
  destruct (Z.eqb_spec (cmp k key) 0) as [Heq|Hne].
  - intros [= <-]. eauto.
  - destruct (findKey cmp key ks) as [j|]; [|done]. simpl. intros [= <-].
    by apply IH.
Qed.

Lemma findKey_None (cmp : Comparator) (key : option K) ks k :
  findKey cmp key ks = None → k ∈ ks → cmp k key ≠ 0.
Proof.
  induction ks as [|k' ks IH]; simpl; [by intros _ ?%elem_of_nil|].
  destruct (Z.eqb_spec (cmp k' key) 0) as [Heq|Hne]; [done|].
  destruct (findKey cmp key ks) as [j|] eqn:E; [done|]. intros _.
  intros [->|Hin]%elem_of_cons; auto.
Qed.

Lemma findKey_None_intro (cmp : Comparator) (key : option K) ks :
  (∀ k, k ∈ ks → cmp k key ≠ 0) → findKey cmp key ks = None.
Proof.
  induction ks as [|k' ks IH]; intros Hks; simpl; [done|].
  destruct (Z.eqb_spec (cmp k' key) 0) as [Heq|Hne].
  - destruct (Hks k'); [left|done].
  - rewrite IH; [done|]. intros k Hk. apply Hks. by right.
Qed.

Lemma insertPosition_le (cmp : Comparator) (key : option K) ks :
  (insertPosition cmp key ks ≤ length ks)%nat.
Proof.
  induction ks as [|k ks IH]; simpl; [lia|]. destruct (cmp k key <? 0); lia.
Qed.

Lemma fmap_insertAt {X Y} (f : X → Y) i x (l : list X) :
  f <$> insertAt i x l = insertAt i (f x) (f <$> l).
Proof. unfold insertAt. by rewrite fmap_app, fmap_cons, fmap_take, fmap_drop. Qed.

Lemma fmap_removeAt {X Y} (f : X → Y) i (l : list X) :
  f <$> removeAt i l = removeAt i (f <$> l).
Proof. unfold removeAt. by rewrite fmap_app, fmap_take, fmap_drop. Qed.

(** [insertIntoLeaf] adds one entry to the leaf level. *)
Lemma insertIntoLeaf_ok t all leaf l key value :
  3 ≤ order t →
  Shape None (heap t) (root t) all →
  leaf ∈ leafLevel all → heap t !! leaf = Some l →
  ∃ t' all' es1 es2, insertIntoLeaf leaf key value t = Some (tt, t') ∧
     Shape None (heap t') (root t') all' ∧
     entries (heap t) (leafLevel all) = es1 ++ es2 ∧
     entries (heap t') (leafLevel all') = es1 ++ mkKV key value :: es2 ∧
     sameConfig t t' ∧
     (length all ≤ length all' ≤ S (length all))%nat.
Proof.
  intros Hord Hs Hleaf Hl.
  destruct (leaf_lookup _ _ _ _ _ Hs Hleaf) as (i & l' & HA & HB & Hl' & Hisleaf & Hnokids & Hkv).
  assert (l' = l) as -> by congruence. clear Hl'.
  assert (length (values l) = length (keys l)) as Hvl.
  { by rewrite <-Hkv, length_fmap. }
  unfold insertIntoLeaf. rewrite (run_getNode _ _ _ _ Hl), run_gets.
  set (pos := insertPosition (comparator t) key (keys l)).
  pose proof (insertPosition_le (comparator t) key (keys l)) as Hpos. fold pos in Hpos.
  rewrite run_guard by (apply Nat.leb_le; lia).
  rewrite (run_modNode _ _ _ _ _ Hl).
  set (g := λ x : TreeNode K V, set_values (insertAt pos (mkKV key value))
                                   (set_keys (insertAt pos key) x)).
  set (t1 := set_heap (alter g leaf) t).
  assert (Shape None (heap t1) (root t1) all) as Hs1.
  { apply Shape_alter; [done|]. intros n Hn. assert (n = l) as -> by congruence.
    subst g. repeat split; try done.
    - intros ?. congruence.
    - fields. intros _ _. by rewrite fmap_insertAt, Hkv. }
  assert (heap t1 !! leaf = Some (g l)) as Hl1.
  { subst t1. heaps. by rewrite list_lookup_alter_eq, Hl. }
  assert (∃ es1 es2, entries (heap t) (leafLevel all) = es1 ++ es2 ∧
            entries (heap t1) (leafLevel all) = es1 ++ mkKV key value :: es2)
    as (es1 & es2 & He0 & He1).
  { assert (NoDup (leafLevel all)) as Hnd by (eapply levels_NoDup; [apply Hs|done]).
    destruct (list_elem_of_split _ _ Hleaf) as (L1 & L2 & HL). rewrite HL in Hnd |- *.
    destruct (entries_alter_split (heap t) L1 leaf L2 g l Hnd Hl) as [E0 E1].
    exists (entries (heap t) L1 ++ take pos (values l)),
           (drop pos (values l) ++ entries (heap t) L2).
    subst t1. heaps. rewrite E0, E1. subst g. fields. unfold insertAt.
    rewrite <-(take_drop pos (values l)) at 1. by rewrite <-!(assoc_L (++)). }
  rewrite (run_getNode _ _ _ _ Hl1), run_gets.
  change (order t1) with (order t).
  destruct (order t - 1 <? Z.of_nat (length (keys (g l)))).
  - destruct (splitLeafNode_ok t1 all leaf (g l))
      as (t' & all' & Hrun & Hs' & He' & Hc' & Hd'); try done.
    { subst g. fields. rewrite length_insertAt. lia. }
    exists t', all', es1, es2. split; [done|]. split; [done|]. split; [done|].
    split; [congruence|]. split; [|done].
    eapply sameConfig_trans; [|done]. done.
  - exists t1, all, es1, es2. repeat (split; [done|]). lia.
Qed.

(** The invariant of the public methods. *)
Definition consistent t : Prop := ∃ all, WF None t all ∧ counted t all.

(** [Insert] returns and keeps the invariant. *)
Lemma Insert_ok t key value :
  consistent t → ∃ e t', Insert key value t = Some (e, t') ∧ consistent t'.
Proof.
  intros (all & [Hord Hs] & Hcnt). destruct key as [k|]; simpl.
  2:{ exists (Errorf "key cannot be nil"), t. split; [done|]. by exists all. }
  destruct (findLeafNode_ok _ t all Hs (Some k)) as (leaf & Hfind & Hleaf).
  rewrite (run_bind_Some _ _ _ _ _ Hfind).
  destruct (leaf_lookup _ _ _ _ _ Hs Hleaf) as (i & l & HA & HB & Hl & Hisleaf & Hnokids & Hkv).
  rewrite (run_getNode _ _ _ _ Hl), run_gets.
  destruct (findKey (comparator t) (Some k) (keys l)) as [idx|] eqn:Hfk.
  - destruct (findKey_Some _ _ _ _ Hfk) as (k' & Hk' & _).
    rewrite <-Hkv, list_lookup_fmap in Hk'.
    destruct (values l !! idx) as [kv|] eqn:Hkv'; [|done].
    rewrite (run_index _ _ _ _ _ Hkv'), (run_modNode _ _ _ _ _ Hl).
    eexists _, _. split; [done|].
    exists all. split; [split; [done|]|].
    + heaps. apply Shape_alter; [done|]. intros n Hn. assert (n = l) as -> by congruence.
      repeat split; try done. intros _ _. fields.
      rewrite list_fmap_insert. simpl. rewrite Hkv. apply list_insert_id.
      by rewrite <-Hkv, list_lookup_fmap, Hkv'.
    + unfold counted. heaps. rewrite Hcnt. do 2 f_equal.
      pose proof (entries_alter_length (heap t) (leafLevel all) leaf
                    (set_values (λ vs, <[idx := mkKV (Key kv) value]> vs)) l) as He.
      fields in He. rewrite length_insert in He.
      apply Nat.add_cancel_r with (p := length (values l)). rewrite He; [lia| |done|done].
      eapply levels_NoDup; [apply Hs|done].
  - destruct (insertIntoLeaf_ok t all leaf l (Some k) value Hord Hs Hleaf Hl)
      as (t' & all' & es1 & es2 & Hrun & Hs' & He & He' & Hc' & _).
    rewrite (run_bind_Some _ _ _ _ _ Hrun), run_modify.
    eexists _, _. split; [done|].
    destruct Hc' as (Ho & _ & _ & _ & Hcount).
    exists all'. split; [split|].
    + heaps. by rewrite Ho.
    + done.
    + unfold counted. heaps. rewrite Hcount, Hcnt, He, He', wrap64_add_l. f_equal.
      rewrite !length_app. simpl. lia.
Qed.

End InsertOk.

(** ** What deletion needs to know about a node and its siblings *)

Section DeleteFacts.
Context {K V : Type}.
Implicit Types (t : BPlusTree K V) (n : TreeNode K V) (h : list (TreeNode K V)).
Implicit Types (p q c : ptr) (A B L : list ptr) (all : list (list ptr)).

Lemma set_parent_id n x : parent n = x → set_parent x n = n.
Proof. intros <-. by destruct n. Qed.

Lemma sameLinks_set_keys n (f : list (option K) → list (option K)) :
  isLeaf n = false → length (f (keys n)) = length (keys n) →
  sameLinks n (set_keys f n).
Proof. intros Hl Hf. repeat split; try done. congruence. Qed.

Lemma length_dropLast {X} (l : list X) : length (dropLast l) = (length l - 1)%nat.
Proof. unfold dropLast. rewrite length_take. lia. Qed.

Lemma dropLast_snoc {X} (l : list X) x :
  l !! (length l - 1)%nat = Some x → l = dropLast l ++ [x].
Proof.
  intros Hx. unfold dropLast. rewrite <-(take_drop_middle l _ x Hx) at 1.
  f_equal. rewrite drop_ge; [done|]. apply lookup_lt_Some in Hx. lia.
Qed.

Lemma drop1_cons {X} (l : list X) x : l !! 0%nat = Some x → l = x :: drop 1 l.
Proof. destruct l; [done|]. simpl. intros [= ->]. by rewrite drop_0. Qed.

Lemma fmap_dropLast {X Y} (f : X → Y) (l : list X) : f <$> dropLast l = dropLast (f <$> l).
Proof. unfold dropLast. by rewrite fmap_take, length_fmap. Qed.

Lemma kids_NoDup h all q :
  levelsOK h all → NoDup (mjoin all) → q ∈ mjoin all → NoDup (kids h q).
Proof.
  intros Hlv Hnd (A & Hq & HA)%list_elem_of_join.
  apply list_elem_of_lookup in HA as [i Hi].
  pose proof (Hlv i A Hi) as Hl. destruct (all !! S i) as [B|] eqn:EB.
  - destruct Hl as [_ HB]. eapply NoDup_bind_elem; [|apply Hq].
    rewrite <-HB. by eapply levels_NoDup.
  - rewrite Forall_forall in Hl. destruct (Hl q Hq) as (n & Hn & _ & Hc & _).
    rewrite (kids_lookup _ _ _ Hn), Hc. apply NoDup_nil_2.
Qed.

(** Running the sibling tests. *)
Lemma run_derefParent {X} n par t (k : ptr → M K V X) :
  parent n = Some par → (derefParent n ≫= k) t = k par t.
Proof. intros H. unfold derefParent. by rewrite H. Qed.

Lemma run_hasSpare {X} cs i s sn t (k : bool → M K V X) :
  cs !! i = Some s → heap t !! s = Some sn →
  (hasSpare cs i ≫= k) t = k (minKeys t <? Z.of_nat (length (keys sn))) t.
Proof.
  intros Hs Hsn. unfold hasSpare. rewrite bind_unfold.
  rewrite (run_index _ _ _ _ _ Hs), (run_getNode _ _ _ _ Hsn). done.
Qed.

Lemma leftHasSpare_run {X} cs pos t (k : bool → M K V X) :
  (∀ c, c ∈ cs → is_Some (heap t !! c)) → (pos < length cs)%nat →
  ∃ b, (leftHasSpare cs pos ≫= k) t = k b t ∧
    (b = true → ∃ pos' ls nls, pos = S pos' ∧ cs !! pos' = Some ls ∧
       heap t !! ls = Some nls ∧ minKeys t < Z.of_nat (length (keys nls))).
Proof.
  intros Hcs Hpos. destruct pos as [|pos']; simpl.
  - exists false. split; [done|]. done.
  - destruct (lookup_lt_is_Some_2 cs pos') as [ls Hls]; [lia|].
    destruct (Hcs ls) as [nls Hnls]; [by eapply list_elem_of_lookup_2|].
    rewrite (run_hasSpare _ _ _ _ _ _ Hls Hnls). eexists. split; [done|].
    intros Hb%Z.ltb_lt. by exists pos', ls, nls.
Qed.

Lemma rightHasSpare_run {X} cs pos t (k : bool → M K V X) :
  (∀ c, c ∈ cs → is_Some (heap t !! c)) →
  ∃ b, (rightHasSpare cs pos ≫= k) t = k b t ∧
    (b = true → ∃ rs nrs, cs !! S pos = Some rs ∧
       heap t !! rs = Some nrs ∧ minKeys t < Z.of_nat (length (keys nrs))).
Proof.
  intros Hcs. unfold rightHasSpare.
  destruct (Nat.ltb_spec (S pos) (length cs)) as [Hlt|Hge].
  - destruct (lookup_lt_is_Some_2 cs (S pos)) as [rs Hrs]; [lia|].
    destruct (Hcs rs) as [nrs Hnrs]; [by eapply list_elem_of_lookup_2|].
    rewrite (run_hasSpare _ _ _ _ _ _ Hrs Hnrs). eexists. split; [done|].
    intros Hb%Z.ltb_lt. by exists rs, nrs.
  - exists false. split; [done|]. done.
Qed.

(** One node below its bound does not matter when it has a key. *)
Lemma Shape_settled p h r all :
  Shape (Some p) h r all →
  (∀ n, h !! p = Some n → isLeaf n = false → (1 ≤ length (keys n))%nat) →
  Shape None h r all.
Proof.
  intros [Htop Hlv Hnd Hroot Hpar Hchain Hkeys] Hp. split; try done.
  intros q n Hq Hn Hl _. destruct (decide (q = p)) as [->|Hne]; [by apply Hp|].
  apply (Hkeys q n Hq Hn Hl). congruence.
Qed.

Lemma Shape_unsettled under h r all : Shape None h r all → Shape under h r all.
Proof.
  intros [Htop Hlv Hnd Hroot Hpar Hchain Hkeys]. split; try done.
  intros q n Hq Hn Hl _. by apply (Hkeys q n Hq Hn Hl).
Qed.

(** What a restructuring at level [j] leaves alone: the nodes outside the
    tree, and the keys of the nodes below level [j]. *)
Definition keeps (j : nat) all h h' : Prop :=
  (∀ q, q ∉ mjoin all → h' !! q = h !! q) ∧
  (∀ i X q n, all !! i = Some X → q ∈ X → (j < i)%nat → h !! q = Some n →
     ∃ n', h' !! q = Some n' ∧ keys n' = keys n).

Lemma keeps_refl j all h : keeps j all h h.
Proof. split; [done|]. intros i X q n _ _ _ Hn. eauto. Qed.

Lemma keeps_trans j j1 all all1 h h1 h2 :
  keeps j all h h1 → keeps j1 all1 h1 h2 →
  (∀ q, q ∈ mjoin all1 → q ∈ mjoin all) →
  (∀ i X q, all !! i = Some X → q ∈ X → (j < i)%nat →
     ∃ i1 X1, all1 !! i1 = Some X1 ∧ q ∈ X1 ∧ (j1 < i1)%nat) →
  keeps j all h h2.
Proof.
  intros [Ho Hk] [Ho1 Hk1] Hsub Hlev. split.
  - intros q Hq. rewrite Ho1, Ho; [done..|]. intros ?. by apply Hq, Hsub.
  - intros i X q n Hi Hq Hji Hn.
    destruct (Hk i X q n Hi Hq Hji Hn) as (n1 & Hn1 & Hk1').
    destruct (Hlev i X q Hi Hq Hji) as (i1 & X1 & Hi1 & Hq1 & Hj1).
    destruct (Hk1 i1 X1 q n1 Hi1 Hq1 Hj1 Hn1) as (n2 & Hn2 & Hk2).
    exists n2. split; [done|congruence].
Qed.

Lemma keeps_alter_keys j all h h1 p (g : TreeNode K V → TreeNode K V) :
  keeps j all h h1 → p ∈ mjoin all → (∀ n, keys (g n) = keys n) →
  keeps j all h (alter g p h1).
Proof.
  intros [Ho Hk] Hp Hg. split.
  - intros q Hq. rewrite list_lookup_alter_ne; [by apply Ho|]. by intros ->.
  - intros i X q n Hi Hq Hji Hn. destruct (Hk i X q n Hi Hq Hji Hn) as (n1 & Hn1 & Hk1).
    destruct (decide (p = q)) as [->|Hne].
    + exists (g n1). rewrite list_lookup_alter_eq, Hn1. split; [done|]. by rewrite Hg.
    + exists n1. by rewrite list_lookup_alter_ne.
Qed.

Lemma keeps_alter_level j all h h1 p (g : TreeNode K V → TreeNode K V) i X :
  NoDup (mjoin all) → keeps j all h h1 → all !! i = Some X → p ∈ X → (i ≤ j)%nat →
  keeps j all h (alter g p h1).
Proof.
  intros Hnd [Ho Hk] HX Hp Hij. split.
  - intros q Hq. rewrite list_lookup_alter_ne; [by apply Ho|]. intros ->.
    apply Hq. by eapply level_in.
  - intros i' X' q n Hi Hq Hji Hn. destruct (Hk i' X' q n Hi Hq Hji Hn) as (n1 & Hn1 & Hk1).
    exists n1. rewrite list_lookup_alter_ne; [done|]. intros ->.
    pose proof (levels_disjoint all _ _ _ _ q Hnd HX Hi Hp Hq). lia.
Qed.

Lemma keeps_reparent j all h h1 cs a :
  keeps j all h h1 → (∀ c, c ∈ cs → c ∈ mjoin all) →
  keeps j all h (reparent cs a h1).
Proof.
  revert h1. induction cs as [|c cs IH]; intros h1 Hk Hcs; [done|]. simpl.
  apply IH; [|intros c' Hc'; apply Hcs; by right].
  apply keeps_alter_keys; [done|apply Hcs; left|done].
Qed.

(** The part of [deleteFromInternalNode] after the removal of the
    separator and the child. *)
Definition fixup (fuel : nat) (par : ptr) : M K V unit :=
  p1 ← getNode par;
  mk ← gets minKeys;
  (if (Z.of_nat (length (keys p1)) <? mk) && bool_decide (parent p1 ≠ None)
   then rebalanceInternalNode (deleteFromInternalNode fuel) par
   else mret tt);;
  p2 ← getNode par;
  if (length (keys p2) =? 0)%nat && bool_decide (parent p2 = None)
  then
    c0 ← index (children p2) 0;
    modify (set_root c0);;
    modNode c0 (set_parent None)
  else mret tt.

Lemma deleteFromInternalNode_S fuel par pos child t np :
  heap t !! par = Some np →
  (S pos ≤ length (keys np))%nat → (S (S pos) ≤ length (children np))%nat →
  deleteFromInternalNode (S fuel) par pos child t =
  fixup fuel par
    (set_heap (alter (λ x, set_children (removeAt (S pos)) (set_keys (removeAt pos) x)) par) t).
Proof.
  intros Hp Hk Hc. cbn [deleteFromInternalNode].
  rewrite (run_getNode _ _ _ _ Hp).
  rewrite run_guard by (apply Nat.leb_le; lia).
  rewrite run_guard by (apply Nat.leb_le; lia).
  by rewrite (run_modNode _ _ _ _ _ Hp).
Qed.

Definition fixupSpec (fuel : nat) : Prop := ∀ t all j P par np,
  1 ≤ minKeys t → Shape (Some par) (heap t) (root t) all →
  all !! j = Some P → par ∈ P → heap t !! par = Some np → isLeaf np = false →
  (j ≤ fuel)%nat →
  ∃ t' all', fixup fuel par t = Some (tt, t') ∧
    Shape None (heap t') (root t') all' ∧
    entries (heap t') (leafLevel all') = entries (heap t) (leafLevel all) ∧
    sameConfig t t' ∧ keeps j all (heap t) (heap t') ∧
    (length all' ≤ length all ≤ S (length all'))%nat.

(** A node with a parent, seen from the parent. *)
Lemma family under h r all j A node n gp :
  Shape under h r all → all !! S j = Some A → node ∈ A →
  h !! node = Some n → parent n = Some gp → under ≠ Some gp →
  ∃ P ngp, all !! j = Some P ∧ gp ∈ P ∧ h !! gp = Some ngp ∧
    isLeaf ngp = false ∧ length (children ngp) = S (length (keys ngp)) ∧
    (1 ≤ length (keys ngp))%nat ∧ NoDup (children ngp) ∧
    children ngp !! scanPos node (children ngp) = Some node ∧
    gp ≠ node ∧ A = P ≫= kids h ∧
    (∀ c, c ∈ children ngp → c ∈ A ∧ c ≠ gp ∧
        ∃ nc, h !! c = Some nc ∧ parent nc = Some gp).
Proof.
  intros Hs HA Hnode Hn Hpar Hu.
  pose proof (sh_levels _ _ _ _ Hs) as Hlv. pose proof (sh_nodup _ _ _ _ Hs) as Hnd.
  destruct (parent_level _ _ _ _ _ _ _ _ _ Hs HA Hnode Hn Hpar) as (P & HP & Hgp & Hk).
  destruct (inner_lookup _ _ _ _ _ _ Hlv HP HA Hgp) as (ngp & Hngp & Hleaf & Har).
  assert (gp ∈ mjoin all) as Hgpin by solve_in.
  rewrite (kids_lookup _ _ _ Hngp) in Hk.
  exists P, ngp. split; [done|]. split; [done|]. split; [done|]. split; [done|].
  split; [done|]. split; [by apply (sh_keys _ _ _ _ Hs gp ngp)|].
  split; [rewrite <-(kids_lookup _ _ _ Hngp); by eapply kids_NoDup|].
  split; [by apply scanPos_lookup|].
  split.
  { intros ->. pose proof (levels_disjoint all _ _ _ _ node Hnd HP HA Hgp Hnode). lia. }
  destruct (level_inner _ _ Hlv j P A gp HP HA Hgp) as [_ HAP]. split; [done|].
  intros c Hc. rewrite <-(kids_lookup _ _ _ Hngp) in Hc.
  assert (c ∈ A) as HcA by (rewrite HAP; apply list_elem_of_bind; eauto).
  split; [done|]. split.
  { intros ->. pose proof (levels_disjoint all _ _ _ _ gp Hnd HP HA Hgp HcA). lia. }
  pose proof (sh_parents _ _ _ _ Hs gp c Hgpin Hc) as Hpc.
  destruct (level_lookup _ _ Hlv _ _ c HA HcA) as [nc Hnc].
  rewrite (parentOf_lookup _ _ _ Hnc) in Hpc. exists nc. split; [done|congruence].
Qed.

End DeleteFacts.

(** ** [rebalanceInternalNode] *)

Section RebalanceInternal.
Context {K V : Type}.
Implicit Types (t : BPlusTree K V) (n : TreeNode K V) (h : list (TreeNode K V)).
Implicit Types (p q c : ptr) (A B L : list ptr) (all : list (list ptr)).

(** [rebalanceInternalNode] on the one node that may be without separator,
    given that the fix-up of its parent behaves. *)
Lemma rebalanceInternalNode_ok fuel t all j A node n gp :
  fixupSpec (K:=K) (V:=V) fuel → 1 ≤ minKeys t →
  Shape (Some node) (heap t) (root t) all →
  all !! S j = Some A → node ∈ A → heap t !! node = Some n → isLeaf n = false →
  parent n = Some gp → (j ≤ fuel)%nat →
  ∃ t' all', rebalanceInternalNode (deleteFromInternalNode (S fuel)) node t = Some (tt, t') ∧
    Shape None (heap t') (root t') all' ∧
    entries (heap t') (leafLevel all') = entries (heap t) (leafLevel all) ∧
    sameConfig t t' ∧ keeps (S j) all (heap t) (heap t') ∧
    (length all' ≤ length all ≤ S (length all'))%nat ∧
    ∃ n2, heap t' !! node = Some n2 ∧ ((1 ≤ length (keys n2))%nat ∨ parent n2 ≠ None).
Proof.
  intros IHfix Hmk Hs HA Hnode Hn Hleaf Hpar Hfuel.
  pose proof (sh_levels _ _ _ _ Hs) as Hlv.
  pose proof (sh_nodup _ _ _ _ Hs) as Hnd.
  set (h := heap t) in *.
  destruct (family _ _ _ _ _ _ _ _ _ Hs HA Hnode Hn Hpar)
    as (P & ngp & HP & Hgp & Hngp & Hgpleaf & Hgpar & Hgpk & Hgpnd & Hpos & Hgpnode & HAP & Hsib).
  { intros [= <-].
    destruct (parent_level _ _ _ _ _ _ _ _ _ Hs HA Hnode Hn Hpar) as (P & HP & Hgp & _).
    pose proof (levels_disjoint all _ _ _ _ node Hnd HP HA Hgp Hnode). lia. }
  destruct (inner_has_level _ _ _ _ _ _ Hlv HA Hnode Hn Hleaf) as (B & HB & HBA & Har).
  remember (scanPos node (children ngp)) as pos eqn:Epos.
  assert (pos < length (children ngp))%nat as Hposlt by (by eapply lookup_lt_Some).
  assert (∀ c, c ∈ children ngp → is_Some (h !! c)) as Hsibs.
  { intros c Hc. destruct (Hsib c Hc) as (_ & _ & nc & Hnc & _). eauto. }
  assert (node ∈ mjoin all) as Hnodein by solve_in.
  assert (gp ∈ mjoin all) as Hgpin by solve_in.
  assert (∀ c, c ∈ children ngp → c ≠ node → ∃ nc, h !! c = Some nc ∧ parent nc = Some gp ∧
            isLeaf nc = false ∧ length (children nc) = S (length (keys nc)) ∧
            (1 ≤ length (keys nc))%nat ∧ c ∈ A ∧ c ≠ gp ∧
            (∀ d, d ∈ children nc → d ∈ B ∧ (d ∉ children n) ∧ d ≠ c ∧ d ≠ node ∧ d ≠ gp ∧
               ∃ nd, h !! d = Some nd ∧ parent nd = Some c)) as Hsibling.
  { intros c Hc Hcn. destruct (Hsib c Hc) as (HcA & Hcgp & nc & Hnc & Hpc).
    destruct (inner_lookup _ _ _ _ _ _ Hlv HA HB HcA) as (nc' & Hnc' & Hcl & Hca).
    assert (nc' = nc) as -> by congruence.
    assert (c ∈ mjoin all) as Hcin by solve_in.
    exists nc. repeat (split; [done|]). split.
    { apply (sh_keys _ _ _ _ Hs c nc); try done. congruence. }
    repeat (split; [done|]).
    intros d Hd. rewrite <-(kids_lookup _ _ _ Hnc) in Hd.
    assert (d ∈ B) as HdB by (rewrite HBA; apply list_elem_of_bind; eauto).
    split; [done|]. split.
    { intros Hdn. rewrite <-(kids_lookup _ _ _ Hn) in Hdn.
      by pose proof (parent_unique _ _ _ _ _ _ _ Hs Hcin Hnodein Hd Hdn). }
    split. { intros ->. pose proof (levels_disjoint all _ _ _ _ c Hnd HB HA HdB HcA). lia. }
    split. { intros ->. pose proof (levels_disjoint all _ _ _ _ node Hnd HB HA HdB Hnode). lia. }
    split. { intros ->. pose proof (levels_disjoint all _ _ _ _ gp Hnd HB HP HdB Hgp). lia. }
    pose proof (sh_parents _ _ _ _ Hs c d Hcin Hd) as Hpd.
    destruct (level_lookup _ _ Hlv _ _ d HB HdB) as [nd Hnd'].
    rewrite (parentOf_lookup _ _ _ Hnd') in Hpd. exists nd. split; [done|congruence]. }
  assert (∀ d, d ∈ children n → d ∈ B ∧ d ≠ node ∧ d ≠ gp ∧
            (∀ c, c ∈ children ngp → d ≠ c) ∧
            ∃ nd, h !! d = Some nd ∧ parent nd = Some node) as Hnkids.
  { intros d Hd. rewrite <-(kids_lookup _ _ _ Hn) in Hd.
    assert (d ∈ B) as HdB by (rewrite HBA; apply list_elem_of_bind; eauto).
    split; [done|].
    split. { intros ->. pose proof (levels_disjoint all _ _ _ _ node Hnd HB HA HdB Hnode). lia. }
    split. { intros ->. pose proof (levels_disjoint all _ _ _ _ gp Hnd HB HP HdB Hgp). lia. }
    split. { intros c Hc ->. destruct (Hsib c Hc) as (HcA & _).
             pose proof (levels_disjoint all _ _ _ _ c Hnd HB HA HdB HcA). lia. }
    pose proof (sh_parents _ _ _ _ Hs node d Hnodein Hd) as Hpd.
    destruct (level_lookup _ _ Hlv _ _ d HB HdB) as [nd Hnd'].
    rewrite (parentOf_lookup _ _ _ Hnd') in Hpd. exists nd. split; [done|congruence]. }
  unfold rebalanceInternalNode.
  rewrite (run_getNode _ _ _ _ Hn), (run_derefParent _ _ _ _ Hpar), (run_getNode _ _ _ _ Hngp).
  rewrite <-Epos.
  match goal with |- context [(leftHasSpare _ _ ≫= ?k) _] =>
    destruct (leftHasSpare_run (children ngp) pos t k Hsibs Hposlt) as (bl & -> & Hbl) end.
  destruct bl.
  { (* borrow from the left sibling *)
    destruct (Hbl eq_refl) as (pos' & ls & nls & -> & Hls & Hnls & Hspare). clear Hbl.
    fold h in Hnls.
    assert (ls ≠ node) as Hlsnode.
    { intros ->. pose proof (NoDup_lookup _ _ _ _ Hgpnd Hls Hpos). lia. }
    destruct (Hsibling ls) as (nls' & Hnls' & Hlspar & Hlsleaf & Hlsar & _ & HlsA & Hlsgp & Hlskids);
      [by eapply list_elem_of_lookup_2|done|].
    assert (nls' = nls) as -> by congruence. clear Hnls'.
    simpl Nat.sub. rewrite Nat.sub_0_r.
    rewrite (run_index _ _ _ _ _ Hls).
    destruct (lookup_lt_is_Some_2 (keys ngp) pos') as [bk Hbk]; [lia|].
    rewrite (run_index _ _ _ _ _ Hbk).
    rewrite (run_modNode _ _ _ _ _ Hn).
    erewrite run_getNode by (heaps; fold h; lkH; done).
    destruct (lookup_lt_is_Some_2 (children nls) (length (children nls) - 1)) as [lc Hlc]; [lia|].
    rewrite (run_index _ _ _ _ _ Hlc).
    destruct (Hlskids lc) as (HlcB & Hlcn & Hlcls & Hlcnode & Hlcgp & nlc & Hnlc & Hlcpar);
      [by eapply list_elem_of_lookup_2|].
    erewrite run_modNode by (heaps; fold h; lkH; done).
    erewrite run_modNode by (heaps; fold h; lkH; done).
    erewrite run_getNode by (heaps; fold h; lkH; done).
    rewrite run_guard by (apply Nat.leb_le; lia).
    rewrite run_guard by (apply Nat.leb_le; lia).
    erewrite run_modNode by (heaps; fold h; lkH; done).
    erewrite run_getNode by (heaps; fold h; lkH; done).
    fields.
    destruct (lookup_lt_is_Some_2 (dropLast (keys nls)) (length (dropLast (keys nls)) - 1))
      as [newSep HnewSep]; [rewrite length_dropLast; lia|].
    rewrite (run_index _ _ _ _ _ HnewSep).
    erewrite run_getNode by (heaps; fold h; lkH; done).
    rewrite run_guard by (apply Nat.ltb_lt; lia).
    erewrite modNode_lookup by (heaps; fold h; lkH; done).
    set (t2 := set_heap (alter (set_keys (λ ks, <[pos' := newSep]> ks)) gp) _).
    assert (RedistPre (Some node) h (heap t2) (root t) all (S j) A ls node nls n
              (set_children dropLast (set_keys dropLast nls))
              (set_children (λ cs, lc :: cs) (set_keys (λ ks, bk :: ks) n))) as Hpre.
    { split; try done.
      - by right; right.
      - rewrite HAP. eapply bind_adjacent; [apply Hgp|].
        rewrite (kids_lookup _ _ _ Hngp). by apply adjacent_lookup.
      - subst t2. heaps. fold h. lkH. done.
      - subst t2. heaps. fold h. lkH. done.
      - fields. rewrite !length_dropLast. repeat split; try done; lia.
      - fields. simpl. repeat split; try done; lia.
      - fields. rewrite (dropLast_snoc _ _ Hlc) at 2. by rewrite <-(assoc_L (++)).
      - intros c cn Hc Hcn. fields in Hc.
        assert (c ≠ lc) as Hclc.
        { intros ->. assert (NoDup (children nls)) as Hndls.
          { rewrite <-(kids_lookup _ _ _ Hnls). eapply kids_NoDup; [done..|solve_in]. }
          rewrite (dropLast_snoc _ _ Hlc) in Hndls.
          apply NoDup_app in Hndls as (_ & Hd & _). apply (Hd lc Hc). left. }
        destruct (Hlskids c) as (_ & _ & ? & ? & ? & nc & Hnc & Hcpar).
        { rewrite (dropLast_snoc _ _ Hlc). apply elem_of_app. by left. }
        assert (nc = cn) as -> by congruence.
        subst t2. heaps. fold h. lkH. by rewrite set_parent_id.
      - intros c cn [->|Hc]%elem_of_cons Hcn.
        + assert (cn = nlc) as -> by congruence. subst t2. heaps. fold h. lkH. done.
        + destruct (Hnkids c Hc) as (_ & ? & ? & Hcsib & nc & Hnc & Hcpar).
          assert (nc = cn) as -> by congruence.
          assert (c ≠ ls) by (apply Hcsib; by eapply list_elem_of_lookup_2).
          assert (c ≠ lc) by (by intros ->).
          subst t2. heaps. fold h. lkH. by rewrite set_parent_id.
      - intros q nq Hq Hqls Hqnode Hqk Hnq.
        assert (q ≠ lc) as Hqlc.
        { intros ->. apply Hqk, elem_of_app. left. by eapply list_elem_of_lookup_2. }
        destruct (decide (q = gp)) as [->|Hqgp].
        + assert (nq = ngp) as -> by congruence. eexists. split.
          { subst t2. heaps. fold h. lkH. done. }
          split; [|done]. apply sameLinks_set_keys; [done|]. by rewrite length_insert.
        + exists nq. split; [|split; [apply sameLinks_refl|done]].
          subst t2. heaps. fold h. lkH. done. }
    destruct (Shape_redistribute _ _ _ _ _ _ _ _ _ _ _ _ _ Hpre) as [Hs2 He2].
    exists t2, all. split; [done|]. split; [done|]. split; [done|]. split; [done|].
    split.
    { subst t2. heaps. fold h.
      eapply keeps_alter_level; [done| |apply HP|done|lia].
      eapply keeps_alter_level; [done| |apply HA|done|lia].
      eapply keeps_alter_level; [done| |apply HA|done|lia].
      apply keeps_alter_keys; [|solve_in|done].
      eapply keeps_alter_level; [done| |apply HA|done|lia].
      apply keeps_refl. }
    split; [lia|]. eexists. split; [subst t2; heaps; fold h; lkH; done|]. left. fields. simpl. lia. }
  clear Hbl.
  match goal with |- context [(rightHasSpare _ _ ≫= ?k) _] =>
    destruct (rightHasSpare_run (children ngp) pos t k Hsibs) as (br & -> & Hbr) end.
  destruct br.
  { (* borrow from the right sibling *)
    destruct (Hbr eq_refl) as (rs & nrs & Hrs & Hnrs & Hspare). clear Hbr.
    fold h in Hnrs.
    assert (rs ≠ node) as Hrsnode.
    { intros ->. pose proof (NoDup_lookup _ _ _ _ Hgpnd Hrs Hpos). lia. }
    destruct (Hsibling rs) as (nrs' & Hnrs' & Hrspar & Hrsleaf & Hrsar & _ & HrsA & Hrsgp & Hrskids);
      [by eapply list_elem_of_lookup_2|done|].
    assert (nrs' = nrs) as -> by congruence. clear Hnrs'.
    assert (S pos < length (children ngp))%nat as Hrslt by (by eapply lookup_lt_Some).
    rewrite (run_index _ _ _ _ _ Hrs).
    destruct (lookup_lt_is_Some_2 (keys ngp) pos) as [bk Hbk]; [lia|].
    rewrite (run_index _ _ _ _ _ Hbk).
    rewrite (run_modNode _ _ _ _ _ Hn).
    erewrite run_getNode by (heaps; fold h; lkH; done).
    destruct (lookup_lt_is_Some_2 (children nrs) 0) as [fc Hfc]; [lia|].
    rewrite (run_index _ _ _ _ _ Hfc).
    destruct (Hrskids fc) as (HfcB & Hfcn & Hfcrs & Hfcnode & Hfcgp & nfc & Hnfc & Hfcpar);
      [by eapply list_elem_of_lookup_2|].
    erewrite run_modNode by (heaps; fold h; lkH; done).
    erewrite run_modNode by (heaps; fold h; lkH; done).
    erewrite run_getNode by (heaps; fold h; lkH; done).
    rewrite run_guard by (apply Nat.leb_le; lia).
    rewrite run_guard by (apply Nat.leb_le; lia).
    erewrite run_modNode by (heaps; fold h; lkH; done).
    erewrite run_getNode by (heaps; fold h; lkH; done).
    fields.
    destruct (lookup_lt_is_Some_2 (drop 1 (keys nrs)) 0)
      as [newSep HnewSep]; [rewrite length_drop; lia|].
    rewrite (run_index _ _ _ _ _ HnewSep).
    erewrite run_getNode by (heaps; fold h; lkH; done).
    rewrite run_guard by (apply Nat.ltb_lt; lia).
    erewrite modNode_lookup by (heaps; fold h; lkH; done).
    set (t2 := set_heap (alter (set_keys (λ ks, <[pos := newSep]> ks)) gp) _).
    assert (RedistPre (Some node) h (heap t2) (root t) all (S j) A node rs n nrs
              (set_children (λ cs, cs ++ [fc]) (set_keys (λ ks, ks ++ [bk]) n))
              (set_children (drop 1) (set_keys (drop 1) nrs))) as Hpre.
    { split; try done.
      - by right; left.
      - rewrite HAP. eapply bind_adjacent; [apply Hgp|].
        rewrite (kids_lookup _ _ _ Hngp). by apply adjacent_lookup.
      - subst t2. heaps. fold h. lkH. done.
      - subst t2. heaps. fold h. lkH. done.
      - fields. rewrite !length_app. simpl. repeat split; try done; lia.
      - fields. rewrite !length_drop. repeat split; try done; lia.
      - fields. rewrite (drop1_cons _ _ Hfc) at 2. by rewrite <-(assoc_L (++)).
      - intros c cn [Hc|Hc]%elem_of_app Hcn.
        + destruct (Hnkids c Hc) as (_ & ? & ? & Hcsib & nc & Hnc & Hcpar).
          assert (nc = cn) as -> by congruence.
          assert (c ≠ rs) by (apply Hcsib; by eapply list_elem_of_lookup_2).
          assert (c ≠ fc) by (by intros ->).
          subst t2. heaps. fold h. lkH. by rewrite set_parent_id.
        + apply list_elem_of_singleton in Hc as ->.
          assert (cn = nfc) as -> by congruence. subst t2. heaps. fold h. lkH. done.
      - intros c cn Hc Hcn. fields in Hc.
        assert (c ≠ fc) as Hcfc.
        { intros ->. assert (NoDup (children nrs)) as Hndrs.
          { rewrite <-(kids_lookup _ _ _ Hnrs). eapply kids_NoDup; [done..|solve_in]. }
          rewrite (drop1_cons _ _ Hfc) in Hndrs.
          apply NoDup_cons in Hndrs as [Hd _]. done. }
        destruct (Hrskids c) as (_ & _ & ? & ? & ? & nc & Hnc & Hcpar).
        { rewrite (drop1_cons _ _ Hfc). by right. }
        assert (nc = cn) as -> by congruence.
        subst t2. heaps. fold h. lkH. by rewrite set_parent_id.
      - intros q nq Hq Hqnode Hqrs Hqk Hnq.
        assert (q ≠ fc) as Hqfc.
        { intros ->. apply Hqk, elem_of_app. right. by eapply list_elem_of_lookup_2. }
        destruct (decide (q = gp)) as [->|Hqgp].
        + assert (nq = ngp) as -> by congruence. eexists. split.
          { subst t2. heaps. fold h. lkH. done. }
          split; [|done]. apply sameLinks_set_keys; [done|]. by rewrite length_insert.
        + exists nq. split; [|split; [apply sameLinks_refl|done]].
          subst t2. heaps. fold h. lkH. done. }
    destruct (Shape_redistribute _ _ _ _ _ _ _ _ _ _ _ _ _ Hpre) as [Hs2 He2].
    exists t2, all. split; [done|]. split; [done|]. split; [done|]. split; [done|].
    split.
    { subst t2. heaps. fold h.
      eapply keeps_alter_level; [done| |apply HP|done|lia].
      eapply keeps_alter_level; [done| |apply HA|done|lia].
      eapply keeps_alter_level; [done| |apply HA|done|lia].
      apply keeps_alter_keys; [|solve_in|done].
      eapply keeps_alter_level; [done| |apply HA|done|lia].
      apply keeps_refl. }
    split; [lia|]. eexists. split; [subst t2; heaps; fold h; lkH; done|]. left. fields.
    rewrite length_app. simpl. lia. }
  clear Hbr. destruct pos as [|pos'].
  - (* merge the right sibling into the node *)
    destruct (lookup_lt_is_Some_2 (children ngp) 1) as [rs Hrs]; [lia|].
    assert (rs ≠ node) as Hrsnode.
    { intros ->. pose proof (NoDup_lookup _ _ _ _ Hgpnd Hrs Hpos). lia. }
    destruct (Hsibling rs) as (nrs & Hnrs & Hrspar & Hrsleaf & Hrsar & _ & HrsA & Hrsgp & Hrskids);
      [by eapply list_elem_of_lookup_2|done|].
    rewrite (run_index _ _ _ _ _ Hrs).
    destruct (lookup_lt_is_Some_2 (keys ngp) 0) as [pk Hpk]; [lia|].
    rewrite (run_index _ _ _ _ _ Hpk).
    rewrite (run_modNode _ _ _ _ _ Hn).
    erewrite run_getNode by (heaps; fold h; lkH; done).
    erewrite run_modNode by (heaps; fold h; lkH; done).
    erewrite run_getNode by (heaps; fold h; lkH; done).
    erewrite run_modNode by (heaps; fold h; lkH; done).
    erewrite run_getNode by (heaps; fold h; lkH; done).
    rewrite run_setParents; cycle 1.
    { intros c Hc. heaps. rewrite !length_alter. fold h.
      destruct (Hrskids c Hc) as (HcB & _). eapply node_lt; [done|solve_in]. }
    assert (gp ∉ children nrs) as Hgpnrs.
    { intros Hc. by destruct (Hrskids gp Hc) as (_ & _ & _ & _ & ? & _). }
    assert (node ∉ children nrs) as Hnodenrs.
    { intros Hc. by destruct (Hrskids node Hc) as (_ & _ & _ & ? & _). }
    erewrite deleteFromInternalNode_S; [|heaps; fold h; lkH; done|lia|lia].
    set (t1 := set_heap (alter _ gp) _).
    assert (RemovePre (Some node) h (heap t1) (root t) all j P A gp node rs ngp n nrs
              (set_children (removeAt 1) (set_keys (removeAt 0) ngp))
              (set_children (λ cs, cs ++ children nrs)
                 (set_keys (λ ks, ks ++ keys nrs) (set_keys (λ ks, ks ++ [pk]) n)))) as Hpre.
    { split; try done.
      - by right; left.
      - eexists _, _. by apply adjacent_lookup.
      - subst t1. heaps. fold h. lkH. done.
      - subst t1. heaps. fold h. lkH. done.
      - intros c cn Hc Hcn.
        destruct (Hrskids c Hc) as (_ & _ & ? & ? & ? & _).
        subst t1. heaps. fold h. lk. rewrite reparent_lookup_in by done. lkH. done.
      - intros q Hq Hqnode Hqrs Hqgp Hqk.
        subst t1. heaps. fold h. by lk.
      - fields. by apply removeAt_without.
      - fields. apply length_removeAt. lia.
      - congruence.
      - intros _. fields. rewrite !length_app. simpl. lia. }
    destruct (Shape_remove _ _ _ _ _ _ _ _ _ _ _ _ _ _ _ _ Hpre) as [Hs1 He1].
    destruct (IHfix t1 (<[S j := without rs A]> all) j P gp
                (set_children (removeAt 1) (set_keys (removeAt 0) ngp)))
      as (t' & all' & Hrun & Hs' & He' & Hc' & Hk' & Hd'); try done.
    { by rewrite list_lookup_insert_ne by lia. }
    { apply (rp_h'pp _ _ _ _ _ _ _ _ _ _ _ _ _ _ _ _ Hpre). }
    exists t', all'. split; [done|]. split; [done|]. split; [congruence|].
    split; [by eapply sameConfig_trans|].
    assert (keeps (S j) all h (heap t1)) as Hk1.
    { subst t1. heaps. fold h.
      eapply keeps_alter_level; [done| |apply HP|done|lia].
      apply keeps_reparent.
      2:{ intros c Hc. destruct (Hrskids c Hc) as (HcB & _). solve_in. }
      eapply keeps_alter_level; [done| |apply HA|done|lia].
      eapply keeps_alter_level; [done| |apply HA|done|lia].
      eapply keeps_alter_level; [done| |apply HA|done|lia].
      apply keeps_refl. }
    split.
    { eapply keeps_trans; [apply Hk1|apply Hk'| |].
      - intros q Hq. by apply (rm_nodes _ _ _ _ _ _ _ _ _ _ _ _ _ _ _ _ Hpre).
      - intros i X q Hi Hq Hji. exists i, X.
        rewrite list_lookup_insert_ne by lia. split; [done|]. split; [done|lia]. }
    split; [by rewrite length_insert in Hd'|].
    destruct Hk' as [_ Hk'].
    destruct (Hk' (S j) (without rs A) node
                (set_children (λ cs, cs ++ children nrs)
                   (set_keys (λ ks, ks ++ keys nrs) (set_keys (λ ks, ks ++ [pk]) n))))
      as (n2 & Hn2 & Hkeys2).
    { apply list_lookup_insert_eq. by eapply lookup_lt_Some. }
    { apply elem_of_without. split; [done|congruence]. }
    { lia. }
    { apply (rp_h's _ _ _ _ _ _ _ _ _ _ _ _ _ _ _ _ Hpre). }
    exists n2. split; [done|]. left. rewrite Hkeys2. fields. rewrite !length_app. simpl. lia.
  - (* merge the node into the left sibling *)
    destruct (lookup_lt_is_Some_2 (children ngp) pos') as [ls Hls]; [lia|].
    assert (ls ≠ node) as Hlsnode.
    { intros ->. pose proof (NoDup_lookup _ _ _ _ Hgpnd Hls Hpos). lia. }
    destruct (Hsibling ls) as (nls & Hnls & Hlspar & Hlsleaf & Hlsar & _ & HlsA & Hlsgp & Hlskids);
      [by eapply list_elem_of_lookup_2|done|].
    rewrite (run_index _ _ _ _ _ Hls).
    destruct (lookup_lt_is_Some_2 (keys ngp) pos') as [pk Hpk]; [lia|].
    rewrite (run_index _ _ _ _ _ Hpk).
    rewrite (run_modNode _ _ _ _ _ Hnls).
    erewrite run_getNode by (heaps; fold h; lkH; done).
    erewrite run_modNode by (heaps; fold h; lkH; done).
    erewrite run_getNode by (heaps; fold h; lkH; done).
    erewrite run_modNode by (heaps; fold h; lkH; done).
    erewrite run_getNode by (heaps; fold h; lkH; done).
    rewrite run_setParents; cycle 1.
    { intros c Hc. heaps. rewrite !length_alter. fold h.
      destruct (Hnkids c Hc) as (HcB & _). eapply node_lt; [done|solve_in]. }
    assert (gp ∉ children n) as Hgpn.
    { intros Hc. by destruct (Hnkids gp Hc) as (_ & _ & ? & _). }
    assert (node ∉ children n) as Hnoden.
    { intros Hc. by destruct (Hnkids node Hc) as (_ & ? & _). }
    assert (ls ∉ children n) as Hlsn.
    { intros Hc. destruct (Hnkids ls Hc) as (_ & _ & _ & Hcsib & _).
      eapply Hcsib; [|done]. by eapply list_elem_of_lookup_2. }
    erewrite deleteFromInternalNode_S; [|heaps; fold h; lkH; done|lia|lia].
    set (t1 := set_heap (alter _ gp) _).
    assert (RemovePre (Some node) h (heap t1) (root t) all j P A gp ls node ngp nls n
              (set_children (removeAt (S pos')) (set_keys (removeAt pos') ngp))
              (set_children (λ cs, cs ++ children n)
                 (set_keys (λ ks, ks ++ keys n) (set_keys (λ ks, ks ++ [pk]) nls)))) as Hpre.
    { split; try done.
      - by right; right.
      - eexists _, _. by apply adjacent_lookup.
      - subst t1. heaps. fold h. lkH. done.
      - subst t1. heaps. fold h. lkH. done.
      - intros c cn Hc Hcn.
        destruct (Hnkids c Hc) as (_ & ? & ? & Hcsib & _).
        assert (c ≠ ls) by (apply Hcsib; by eapply list_elem_of_lookup_2).
        subst t1. heaps. fold h. lk. rewrite reparent_lookup_in by done. lkH. done.
      - intros q Hq Hqls Hqnode Hqgp Hqk.
        subst t1. heaps. fold h. by lk.
      - fields. by apply removeAt_without.
      - fields. apply length_removeAt. lia.
      - congruence.
      - intros _. fields. rewrite !length_app. simpl. lia. }
    destruct (Shape_remove _ _ _ _ _ _ _ _ _ _ _ _ _ _ _ _ Hpre) as [Hs1 He1].
    destruct (IHfix t1 (<[S j := without node A]> all) j P gp
                (set_children (removeAt (S pos')) (set_keys (removeAt pos') ngp)))
      as (t' & all' & Hrun & Hs' & He' & Hc' & Hk' & Hd'); try done.
    { by rewrite list_lookup_insert_ne by lia. }
    { apply (rp_h'pp _ _ _ _ _ _ _ _ _ _ _ _ _ _ _ _ Hpre). }
    exists t', all'. split; [done|]. split; [done|]. split; [congruence|].
    split; [by eapply sameConfig_trans|].
    assert (keeps (S j) all h (heap t1)) as Hk1.
    { subst t1. heaps. fold h.
      eapply keeps_alter_level; [done| |apply HP|done|lia].
      apply keeps_reparent.
      2:{ intros c Hc. destruct (Hnkids c Hc) as (HcB & _). solve_in. }
      eapply keeps_alter_level; [done| |apply HA|done|lia].
      eapply keeps_alter_level; [done| |apply HA|done|lia].
      eapply keeps_alter_level; [done| |apply HA|done|lia].
      apply keeps_refl. }
    split.
    { eapply keeps_trans; [apply Hk1|apply Hk'| |].
      - intros q Hq. by apply (rm_nodes _ _ _ _ _ _ _ _ _ _ _ _ _ _ _ _ Hpre).
      - intros i X q Hi Hq Hji. exists i, X.
        rewrite list_lookup_insert_ne by lia. split; [done|]. split; [done|lia]. }
    split; [by rewrite length_insert in Hd'|].
    destruct Hk' as [Hk' _].
    exists n. split.
    { rewrite Hk'.
      - subst t1. heaps. fold h. lkH. done.
      - intros Hin. by destruct (rm_nodes _ _ _ _ _ _ _ _ _ _ _ _ _ _ _ _ Hpre node Hin). }
    right. congruence.
Qed.

End RebalanceInternal.

(** ** The fix-up of a parent after a merge *)

Section Fixup.
Context {K V : Type}.
Implicit Types (t : BPlusTree K V) (n : TreeNode K V) (h : list (TreeNode K V)).
Implicit Types (p q c : ptr) (A B L : list ptr) (all : list (list ptr)).

(** The fix-up after a removal: rebalance, then collapse the root. *)
Lemma fixup_step fuel :
  (∀ f, fuel = S f → fixupSpec (K:=K) (V:=V) f) → fixupSpec (K:=K) (V:=V) fuel.
Proof.
  intros IH t all j P par np Hmk Hs HP Hpar Hnp Hleaf Hfuel.
  pose proof (sh_levels _ _ _ _ Hs) as Hlv.
  destruct (inner_has_level _ _ _ _ _ _ Hlv HP Hpar Hnp Hleaf) as (B & HB & HBP & Har).
  unfold fixup. rewrite (run_getNode _ _ _ _ Hnp), run_gets.
  destruct ((Z.of_nat (length (keys np)) <? minKeys t) && bool_decide (parent np ≠ None))
    eqn:Htest1.
  - (* the node is below its bound and has a parent *)
    apply andb_prop in Htest1 as [_ Hhaspar]. apply bool_decide_eq_true in Hhaspar.
    destruct (parent np) as [gp|] eqn:Epar; [|done].
    destruct j as [|j'].
    { destruct (top_level_root _ _ _ _ _ _ _ Hs HP Hpar Hnp). congruence. }
    destruct fuel as [|f]; [lia|].
    destruct (rebalanceInternalNode_ok f t all j' P par np gp)
      as (t1 & all1 & Hrun & Hs1 & He1 & Hc1 & Hk1 & Hd1 & n2 & Hn2 & HN); try done.
    { by apply IH. }
    { lia. }
    rewrite (run_bind_Some _ _ _ _ _ Hrun), (run_getNode _ _ _ _ Hn2).
    assert ((length (keys n2) =? 0)%nat && bool_decide (parent n2 = None) = false) as ->.
    { apply andb_false_iff. destruct HN as [HN|HN].
      - left. apply Nat.eqb_neq. lia.
      - right. by apply bool_decide_eq_false. }
    by exists t1, all1.
  - rewrite run_ret, (run_getNode _ _ _ _ Hnp).
    destruct ((length (keys np) =? 0)%nat && bool_decide (parent np = None)) eqn:Htest2.
    + (* the root has no separator left *)
      apply andb_prop in Htest2 as [Hk0%Nat.eqb_eq Hnopar%bool_decide_eq_true].
      destruct (root_level _ _ _ _ _ _ _ _ Hs HP Hpar Hnp Hnopar) as [-> Hroot].
      subst par.
      destruct (children np) as [|c0 [|? ?]] eqn:Ecs; simpl in Har; try lia.
      rewrite (run_index _ 0%nat c0) by done. rewrite run_modify.
      assert (c0 ∈ B) as Hc0.
      { rewrite HBP. apply list_elem_of_bind. exists (root t). split; [|done].
        rewrite (kids_lookup _ _ _ Hnp), Ecs. left. }
      destruct (level_lookup _ _ Hlv _ _ c0 HB Hc0) as [nc0 Hnc0].
      rewrite (modNode_lookup _ _ _ nc0) by done.
      eexists _, (tail all). split; [done|]. heaps.
      destruct (Shape_collapse (heap t) (alter (set_parent None) c0 (heap t)) (root t)
                  c0 all np) as [Hs' He']; try done.
      { intros q n Hq Hqr Hn. destruct (decide (q = c0)) as [->|Hne].
        - by rewrite list_lookup_alter_eq, Hn.
        - by rewrite list_lookup_alter_ne. }
      split; [done|]. split; [done|]. split; [done|].
      split; [apply keeps_alter_keys; [apply keeps_refl|solve_in|done]|].
      destruct all; simpl; [done|lia].
    + exists t, all. split; [done|].
      split; [|split; [done|split; [done|split; [apply keeps_refl|lia]]]].
      apply (Shape_settled par); [done|]. intros n Hn _. assert (n = np) as -> by congruence.
      destruct (length (keys np)) as [|k] eqn:Ek; [|lia]. exfalso.
      apply andb_false_iff in Htest1 as [Hlt|Hp1].
      * apply Z.ltb_ge in Hlt. lia.
      * apply bool_decide_eq_false in Hp1.
        apply andb_false_iff in Htest2 as [Hz|Hp2]; [done|].
        apply bool_decide_eq_false in Hp2. done.
Qed.

Theorem fixup_ok fuel : fixupSpec (K:=K) (V:=V) fuel.
Proof.
  induction fuel as [|f IH]; apply fixup_step.
  - by intros f.
  - by intros f' [= <-].
Qed.

End Fixup.

(** ** [Delete] keeps the invariant *)

Section DeleteOk.
Context {K V : Type}.
Implicit Types (t : BPlusTree K V) (n : TreeNode K V) (h : list (TreeNode K V)).
Implicit Types (p q c : ptr) (A B L : list ptr) (all : list (list ptr)).

Lemma sameLinks_leaf n (f : list (option K) → list (option K))
    (g : list (KeyValue K V) → list (KeyValue K V)) :
  isLeaf n = true → (Key <$> values n = keys n → Key <$> g (values n) = f (keys n)) →
  sameLinks n (set_values g (set_keys f n)).
Proof. intros Hl Hf. repeat split; try done. intros ?. congruence. Qed.

Lemma Shape_alter_count under h r all p g n :
  Shape under h r all → h !! p = Some n → sameLinks n (g n) →
  p ∈ leafLevel all ∨ values (g n) = values n →
  Shape under (alter g p h) r all ∧
  (length (entries (alter g p h) (leafLevel all)) + length (values n) =
   length (entries h (leafLevel all)) + length (values (g n)))%nat.
Proof.
  intros Hs Hn Hg Hp. split.
  - apply Shape_alter; [done|]. intros n' Hn'. by assert (n' = n) as -> by congruence.
  - destruct Hp as [Hp|Hv].
    + apply entries_alter_length; [|done..].
      assert (all ≠ []) as Hne by (pose proof (sh_top _ _ _ _ Hs); by destruct all).
      destruct (leafLevel_index all Hne) as (i & Hi & _).
      eapply levels_NoDup; [apply Hs|done].
    + rewrite entries_alter_same, Hv; [done|].
      intros n' Hn'. by assert (n' = n) as -> by congruence.
Qed.

(** Two neighbouring leaves share out their entries anew. *)
Lemma entries_redistribute h h' L X Y x y nx ny nx' ny' :
  L = X ++ x :: y :: Y → NoDup L →
  h !! x = Some nx → h !! y = Some ny → h' !! x = Some nx' → h' !! y = Some ny' →
  (∀ q, q ∈ L → q ≠ x → q ≠ y → vals h' q = vals h q) →
  values nx' ++ values ny' = values nx ++ values ny →
  entries h' L = entries h L.
Proof.
  intros -> Hnd Hx Hy Hx' Hy' Hfr Hv.
  assert ((x ∉ X) ∧ (y ∉ X) ∧ (x ∉ Y) ∧ (y ∉ Y)) as (HxX & HyX & HxY & HyY).
  { apply NoDup_app in Hnd as (_ & Hd & Hnd). apply NoDup_cons in Hnd as [Hxy Hnd].
    apply NoDup_cons in Hnd as [HyY _]. repeat split; try done.
    - intros ?. eapply Hd; [done|]. left.
    - intros ?. eapply Hd; [done|]. right; left.
    - intros ?. apply Hxy. by right. }
  unfold entries. rewrite !bind_app, !bind_cons.
  assert (∀ Z, Z ⊆ X ++ x :: y :: Y → x ∉ Z → y ∉ Z → Z ≫= vals h' = Z ≫= vals h) as Hext.
  { intros Z HZ HxZ HyZ. apply bind_ext_in. intros q Hq.
    apply Hfr; [by apply HZ|by intros ->..]. }
  rewrite (Hext X), (Hext Y); try done.
  2:{ intros q Hq. apply elem_of_app. right. by do 2 right. }
  2:{ intros q Hq. apply elem_of_app. by left. }
  f_equal. rewrite !(assoc_L (++)). f_equal.
  unfold vals. by rewrite Hx, Hy, Hx', Hy'.
Qed.

(** [rebalanceLeafNode] keeps the shape and the number of entries. *)
Lemma rebalanceLeafNode_ok t all leaf lf par :
  1 ≤ minKeys t → Shape None (heap t) (root t) all →
  leaf ∈ leafLevel all → heap t !! leaf = Some lf → parent lf = Some par →
  ∃ t' all', rebalanceLeafNode leaf t = Some (tt, t') ∧
    Shape None (heap t') (root t') all' ∧
    entries (heap t') (leafLevel all') = entries (heap t) (leafLevel all) ∧
    sameConfig t t' ∧
    (length all' ≤ length all ≤ S (length all'))%nat.
Proof.
  intros Hmk Hs Hleaf Hlf Hpar.
  pose proof (sh_levels _ _ _ _ Hs) as Hlv.
  pose proof (sh_nodup _ _ _ _ Hs) as Hnd.
  destruct (leaf_lookup _ _ _ _ _ Hs Hleaf) as (i & lf' & HA & HB & Hlf' & Hisleaf & Hnokids & Hkv).
  assert (lf' = lf) as -> by congruence. clear Hlf'.
  destruct i as [|j].
  { destruct (top_level_root _ _ _ _ _ _ _ Hs HA Hleaf Hlf). congruence. }
  set (h := heap t) in *. set (A := leafLevel all) in *.
  destruct (family _ _ _ _ _ _ _ _ _ Hs HA Hleaf Hlf Hpar)
    as (P & npar & HP & Hparin & Hnpar & Hparleaf & Hparar & Hpark & Hparnd & Hpos & Hparleaf' & HAP & Hsib);
    [done|].
  remember (scanPos leaf (children npar)) as pos eqn:Epos.
  assert (pos < length (children npar))%nat as Hposlt by (by eapply lookup_lt_Some).
  assert (∀ c, c ∈ children npar → is_Some (h !! c)) as Hsibs.
  { intros c Hc. destruct (Hsib c Hc) as (_ & _ & nc & Hnc & _). eauto. }
  assert (NoDup A) as HndA by (by eapply levels_NoDup).
  assert (leaf ∈ mjoin all) as Hleafin by solve_in.
  assert (par ∈ mjoin all) as Hparin' by solve_in.
  assert (par ∉ A) as HparA.
  { intros Hin. pose proof (levels_disjoint all _ _ _ _ par Hnd HP HA Hparin Hin). lia. }
  assert (∀ c, c ∈ children npar → ∃ nc, h !! c = Some nc ∧ parent nc = Some par ∧
            isLeaf nc = true ∧ children nc = [] ∧ Key <$> values nc = keys nc ∧
            c ∈ A ∧ c ≠ par) as Hsibling.
  { intros c Hc. destruct (Hsib c Hc) as (HcA & Hcgp & nc & Hnc & Hpc).
    destruct (level_leaf _ _ Hlv _ _ c HA HB HcA) as (nc' & Hnc' & ? & ? & ?).
    assert (nc' = nc) as -> by congruence. by exists nc. }
  assert (length (heap t) ≠ 0)%nat as Hheap.
  { apply lookup_lt_Some in Hlf. fold h. lia. }
  assert (j ≤ length (heap t) - 1)%nat as Hdepth.
  { pose proof (wf_depth_bounded _ t _ Hs). apply lookup_lt_Some in HA. lia. }
  unfold rebalanceLeafNode.
  rewrite (run_getNode _ _ _ _ Hlf), (run_derefParent _ _ _ _ Hpar), (run_getNode _ _ _ _ Hnpar).
  rewrite run_gets. rewrite <-Epos.
  match goal with |- context [(leftHasSpare _ _ ≫= ?k) _] =>
    destruct (leftHasSpare_run (children npar) pos t k Hsibs Hposlt) as (bl & -> & Hbl) end.
  destruct bl.
  { (* borrow from the left sibling *)
    destruct (Hbl eq_refl) as (pos' & ls & nls & -> & Hls & Hnls & Hspare). clear Hbl.
    fold h in Hnls.
    assert (ls ≠ leaf) as Hlsleaf.
    { intros ->. pose proof (NoDup_lookup _ _ _ _ Hparnd Hls Hpos). lia. }
    destruct (Hsibling ls) as (nls' & Hnls' & Hlspar & Hlsleaf' & Hlskids & Hlskv & HlsA & Hlspar');
      [by eapply list_elem_of_lookup_2|].
    assert (nls' = nls) as -> by congruence. clear Hnls'.
    assert (length (values nls) = length (keys nls)) as Hlsvl by (by rewrite <-Hlskv, length_fmap).
    simpl Nat.sub. rewrite Nat.sub_0_r.
    rewrite (run_index _ _ _ _ _ Hls), (run_getNode _ _ _ _ Hnls).
    destruct (lookup_lt_is_Some_2 (values nls) (length (values nls) - 1)) as [bv Hbv]; [lia|].
    assert (keys nls !! (length (keys nls) - 1)%nat = Some (Key bv)) as Hbk.
    { by rewrite <-Hlskv, list_lookup_fmap, length_fmap, Hbv. }
    rewrite (run_index _ _ _ _ _ Hbk), (run_index _ _ _ _ _ Hbv).
    rewrite (run_modNode _ _ _ _ _ Hlf).
    erewrite run_modNode by (heaps; fold h; lkH; done).
    erewrite run_getNode by (heaps; fold h; lkH; done).
    fields. rewrite (run_index _ 0%nat (Key bv)) by done.
    erewrite run_getNode by (heaps; fold h; lkH; done).
    rewrite run_guard by (apply Nat.ltb_lt; lia).
    erewrite modNode_lookup by (heaps; fold h; lkH; done).
    eexists _, all. split; [done|]. heaps. fold h.
    set (g1 := λ x : TreeNode K V, set_values (λ vs, bv :: vs) (set_keys (λ ks, Key bv :: ks) x)).
    set (g2 := λ x : TreeNode K V, set_values dropLast (set_keys dropLast x)).
    set (g3 := set_keys (V:=V) (λ ks, <[pos' := Key bv]> ks)).
    destruct (Shape_alter_count None h (root t) all leaf g1 lf) as [Hs1 He1]; try done.
    { apply sameLinks_leaf; [done|]. intros <-. done. }
    { by left. }
    destruct (Shape_alter_count None (alter g1 leaf h) (root t) all ls g2 nls) as [Hs2 He2];
      try done.
    { by lk. }
    { apply sameLinks_leaf; [done|]. intros <-. apply fmap_dropLast. }
    { by left. }
    destruct (Shape_alter_count None (alter g2 ls (alter g1 leaf h)) (root t) all par g3 npar)
      as [Hs3 He3]; try done.
    { by lk. }
    { apply sameLinks_set_keys; [done|]. by rewrite length_insert. }
    { by right. }
    split; [done|]. split; [|split; [done|lia]].
    assert (∃ X Y, A = X ++ ls :: leaf :: Y) as (X & Y & HXY).
    { rewrite HAP. eapply bind_adjacent; [apply Hparin|].
      rewrite (kids_lookup _ _ _ Hnpar). by apply adjacent_lookup. }
    apply (entries_redistribute h _ A X Y ls leaf nls lf (g2 nls) (g1 lf)); try done.
    + by lkH.
    + by lkH.
    + intros q Hq Hqls Hqleaf. unfold vals. by lk.
    + subst g1 g2. fields. rewrite (dropLast_snoc _ _ Hbv) at 2.
      by rewrite <-(assoc_L (++)). }
  clear Hbl.
  match goal with |- context [(rightHasSpare _ _ ≫= ?k) _] =>
    destruct (rightHasSpare_run (children npar) pos t k Hsibs) as (br & -> & Hbr) end.
  destruct br.
  { (* borrow from the right sibling *)
    destruct (Hbr eq_refl) as (rs & nrs & Hrs & Hnrs & Hspare). clear Hbr.
    fold h in Hnrs.
    assert (rs ≠ leaf) as Hrsleaf.
    { intros ->. pose proof (NoDup_lookup _ _ _ _ Hparnd Hrs Hpos). lia. }
    destruct (Hsibling rs) as (nrs' & Hnrs' & Hrspar & Hrsleaf' & Hrskids & Hrskv & HrsA & Hrspar');
      [by eapply list_elem_of_lookup_2|].
    assert (nrs' = nrs) as -> by congruence. clear Hnrs'.
    assert (length (values nrs) = length (keys nrs)) as Hrsvl by (by rewrite <-Hrskv, length_fmap).
    assert (S pos < length (children npar))%nat as Hrslt by (by eapply lookup_lt_Some).
    rewrite (run_index _ _ _ _ _ Hrs), (run_getNode _ _ _ _ Hnrs).
    destruct (lookup_lt_is_Some_2 (values nrs) 0) as [bv Hbv]; [lia|].
    assert (keys nrs !! 0%nat = Some (Key bv)) as Hbk.
    { by rewrite <-Hrskv, list_lookup_fmap, Hbv. }
    rewrite (run_index _ _ _ _ _ Hbk), (run_index _ _ _ _ _ Hbv).
    rewrite (run_modNode _ _ _ _ _ Hlf).
    erewrite run_getNode by (heaps; fold h; lkH; done).
    rewrite run_guard by (apply Nat.leb_le; lia).
    rewrite run_guard by (apply Nat.leb_le; lia).
    erewrite run_modNode by (heaps; fold h; lkH; done).
    erewrite run_getNode by (heaps; fold h; lkH; done).
    fields.
    destruct (lookup_lt_is_Some_2 (drop 1 (keys nrs)) 0)
      as [newSep HnewSep]; [rewrite length_drop; lia|].
    rewrite (run_index _ _ _ _ _ HnewSep).
    erewrite run_getNode by (heaps; fold h; lkH; done).
    rewrite run_guard by (apply Nat.ltb_lt; lia).
    erewrite modNode_lookup by (heaps; fold h; lkH; done).
    eexists _, all. split; [done|]. heaps. fold h.
    set (g1 := λ x : TreeNode K V, set_values (λ vs, vs ++ [bv]) (set_keys (λ ks, ks ++ [Key bv]) x)).
    set (g2 := λ x : TreeNode K V, set_values (drop 1) (set_keys (drop 1) x)).
    set (g3 := set_keys (V:=V) (λ ks, <[pos := newSep]> ks)).
    destruct (Shape_alter_count None h (root t) all leaf g1 lf) as [Hs1 He1]; try done.
    { apply sameLinks_leaf; [done|]. intros <-. by rewrite fmap_app. }
    { by left. }
    destruct (Shape_alter_count None (alter g1 leaf h) (root t) all rs g2 nrs) as [Hs2 He2];
      try done.
    { by lk. }
    { apply sameLinks_leaf; [done|]. intros <-. apply fmap_drop. }
    { by left. }
    destruct (Shape_alter_count None (alter g2 rs (alter g1 leaf h)) (root t) all par g3 npar)
      as [Hs3 He3]; try done.
    { by lk. }
    { apply sameLinks_set_keys; [done|]. by rewrite length_insert. }
    { by right. }
    split; [done|]. split; [|split; [done|lia]].
    assert (∃ X Y, A = X ++ leaf :: rs :: Y) as (X & Y & HXY).
    { rewrite HAP. eapply bind_adjacent; [apply Hparin|].
      rewrite (kids_lookup _ _ _ Hnpar). by apply adjacent_lookup. }
    apply (entries_redistribute h _ A X Y leaf rs lf nrs (g1 lf) (g2 nrs)); try done.
    + by lkH.
    + by lkH.
    + intros q Hq Hqleaf Hqrs. unfold vals. by lk.
    + subst g1 g2. fields. rewrite (drop1_cons _ _ Hbv) at 2.
      by rewrite <-(assoc_L (++)). }
  clear Hbr. destruct pos as [|pos'].
  - (* merge the right sibling into the leaf *)
    destruct (lookup_lt_is_Some_2 (children npar) 1) as [rs Hrs]; [lia|].
    assert (rs ≠ leaf) as Hrsleaf.
    { intros ->. pose proof (NoDup_lookup _ _ _ _ Hparnd Hrs Hpos). lia. }
    destruct (Hsibling rs) as (nrs & Hnrs & Hrspar & Hrsleaf' & Hrskids & Hrskv & HrsA & Hrspar');
      [by eapply list_elem_of_lookup_2|].
    destruct (length (heap t)) as [|f] eqn:Ef; [done|].
    rewrite (run_index _ _ _ _ _ Hrs), (run_getNode _ _ _ _ Hnrs).
    rewrite (run_modNode _ _ _ _ _ Hlf).
    erewrite run_getNode by (heaps; fold h; lkH; done).
    erewrite run_modNode by (heaps; fold h; lkH; done).
    erewrite run_getNode by (heaps; fold h; lkH; done).
    erewrite run_modNode by (heaps; fold h; lkH; done).
    erewrite deleteFromInternalNode_S; [|heaps; fold h; lkH; done|lia|lia].
    set (t1 := set_heap (alter _ par) _).
    assert (RemovePre None h (heap t1) (root t) all j P A par leaf rs npar lf nrs
              (set_children (removeAt 1) (set_keys (removeAt 0) npar))
              (set_next (next nrs) (set_values (λ vs, vs ++ values nrs)
                 (set_keys (λ ks, ks ++ keys nrs) lf)))) as Hpre.
    { split; try done.
      - by left.
      - eexists _, _. by apply adjacent_lookup.
      - subst t1. heaps. fold h. lkH. done.
      - subst t1. heaps. fold h. lkH. done.
      - intros c cn Hc. rewrite Hrskids in Hc. by apply elem_of_nil in Hc.
      - intros q Hq Hqleaf Hqrs Hqpar _. subst t1. heaps. fold h. by lk.
      - fields. by apply removeAt_without.
      - fields. apply length_removeAt. lia.
      - fields. by rewrite Hnokids, Hrskids.
      - intros _. fields. by rewrite fmap_app, Hkv, Hrskv.
      - congruence. }
    destruct (Shape_remove _ _ _ _ _ _ _ _ _ _ _ _ _ _ _ _ Hpre) as [Hs1 He1].
    destruct (fixup_ok f t1 (<[S j := without rs A]> all) j P par
                (set_children (removeAt 1) (set_keys (removeAt 0) npar)))
      as (t' & all' & Hrun & Hs' & He' & Hc' & _ & Hd'); try done.
    { by rewrite list_lookup_insert_ne by lia. }
    { apply (rp_h'pp _ _ _ _ _ _ _ _ _ _ _ _ _ _ _ _ Hpre). }
    { lia. }
    exists t', all'. split; [done|]. split; [done|].
    split; [by rewrite He', He1|]. split; [by eapply sameConfig_trans|].
    by rewrite length_insert in Hd'.
  - (* merge the leaf into the left sibling *)
    destruct (lookup_lt_is_Some_2 (children npar) pos') as [ls Hls]; [lia|].
    assert (ls ≠ leaf) as Hlsleaf.
    { intros ->. pose proof (NoDup_lookup _ _ _ _ Hparnd Hls Hpos). lia. }
    destruct (Hsibling ls) as (nls & Hnls & Hlspar & Hlsleaf' & Hlskids & Hlskv & HlsA & Hlspar');
      [by eapply list_elem_of_lookup_2|].
    destruct (length (heap t)) as [|f] eqn:Ef; [done|].
    rewrite (run_index _ _ _ _ _ Hls), (run_getNode _ _ _ _ Hlf).
    rewrite (run_modNode _ _ _ _ _ Hnls).
    erewrite run_getNode by (heaps; fold h; lkH; done).
    erewrite run_modNode by (heaps; fold h; lkH; done).
    erewrite run_getNode by (heaps; fold h; lkH; done).
    erewrite run_modNode by (heaps; fold h; lkH; done).
    erewrite deleteFromInternalNode_S; [|heaps; fold h; lkH; done|lia|lia].
    set (t1 := set_heap (alter _ par) _).
    assert (RemovePre None h (heap t1) (root t) all j P A par ls leaf npar nls lf
              (set_children (removeAt (S pos')) (set_keys (removeAt pos') npar))
              (set_next (next lf) (set_values (λ vs, vs ++ values lf)
                 (set_keys (λ ks, ks ++ keys lf) nls)))) as Hpre.
    { split; try done.
      - by left.
      - eexists _, _. by apply adjacent_lookup.
      - subst t1. heaps. fold h. lkH. done.
      - subst t1. heaps. fold h. lkH. done.
      - intros c cn Hc. rewrite Hnokids in Hc. by apply elem_of_nil in Hc.
      - intros q Hq Hqls Hqleaf Hqpar _. subst t1. heaps. fold h. by lk.
      - fields. by apply removeAt_without.
      - fields. apply length_removeAt. lia.
      - fields. by rewrite Hnokids, Hlskids.
      - intros _. fields. by rewrite fmap_app, Hkv, Hlskv.
      - congruence. }
    destruct (Shape_remove _ _ _ _ _ _ _ _ _ _ _ _ _ _ _ _ Hpre) as [Hs1 He1].
    destruct (fixup_ok f t1 (<[S j := without leaf A]> all) j P par
                (set_children (removeAt (S pos')) (set_keys (removeAt pos') npar)))
      as (t' & all' & Hrun & Hs' & He' & Hc' & _ & Hd'); try done.
    { by rewrite list_lookup_insert_ne by lia. }
    { apply (rp_h'pp _ _ _ _ _ _ _ _ _ _ _ _ _ _ _ _ Hpre). }
    { lia. }
    exists t', all'. split; [done|]. split; [done|].
    split; [by rewrite He', He1|]. split; [by eapply sameConfig_trans|].
    by rewrite length_insert in Hd'.
Qed.

(** [deleteFromLeaf] removes one entry from the leaf level. *)
Lemma deleteFromLeaf_ok t all leaf l idx :
  Shape None (heap t) (root t) all →
  leaf ∈ leafLevel all → heap t !! leaf = Some l → (idx < length (keys l))%nat →
  ∃ t' all' e es1 es2, deleteFromLeaf leaf idx t = Some (tt, t') ∧
    Shape None (heap t') (root t') all' ∧
    values l !! idx = Some e ∧
    entries (heap t) (leafLevel all) = es1 ++ e :: es2 ∧
    entries (heap t') (leafLevel all') = es1 ++ es2 ∧
    sameConfig t t' ∧
    (length all' ≤ length all ≤ S (length all'))%nat.
Proof.
  intros Hs Hleaf Hl Hidx.
  destruct (leaf_lookup _ _ _ _ _ Hs Hleaf) as (i & l' & HA & HB & Hl' & Hisleaf & Hnokids & Hkv).
  assert (l' = l) as -> by congruence. clear Hl'.
  assert (length (values l) = length (keys l)) as Hvl by (by rewrite <-Hkv, length_fmap).
  unfold deleteFromLeaf. rewrite (run_getNode _ _ _ _ Hl).
  rewrite run_guard by (apply Nat.leb_le; lia).
  rewrite run_guard by (apply Nat.leb_le; lia).
  rewrite (run_modNode _ _ _ _ _ Hl).
  set (g := λ x : TreeNode K V, set_values (removeAt idx) (set_keys (removeAt idx) x)).
  set (t1 := set_heap (alter g leaf) t).
  destruct (Shape_alter_count None (heap t) (root t) all leaf g l) as [Hs1 He1]; try done.
  { apply sameLinks_leaf; [done|]. intros <-. apply fmap_removeAt. }
  { by left. }
  assert (heap t1 !! leaf = Some (g l)) as Hl1.
  { subst t1. heaps. by rewrite list_lookup_alter_eq, Hl. }
  destruct (lookup_lt_is_Some_2 (values l) idx) as [e Hidxv]; [lia|].
  assert (∃ es1 es2, entries (heap t) (leafLevel all) = es1 ++ e :: es2 ∧
            entries (heap t1) (leafLevel all) = es1 ++ es2) as (es1 & es2 & He0 & He1').
  { assert (NoDup (leafLevel all)) as Hnd by (eapply levels_NoDup; [apply Hs|done]).
    destruct (list_elem_of_split _ _ Hleaf) as (L1 & L2 & HL). rewrite HL in Hnd |- *.
    destruct (entries_alter_split (heap t) L1 leaf L2 g l Hnd Hl) as [E0 E1].
    exists (entries (heap t) L1 ++ take idx (values l)),
           (drop (S idx) (values l) ++ entries (heap t) L2).
    subst t1. heaps. rewrite E0, E1. subst g. fields. unfold removeAt.
    rewrite <-(take_drop_middle (values l) idx e Hidxv) at 1.
    by rewrite <-!(assoc_L (++)). }
  rewrite (run_getNode _ _ _ _ Hl1), run_gets.
  destruct ((Z.of_nat (length (keys (g l))) <? minKeys t1) && bool_decide (parent (g l) ≠ None))
    eqn:Htest.
  - apply andb_prop in Htest as [Hlow%Z.ltb_lt Hhaspar%bool_decide_eq_true].
    destruct (parent (g l)) as [par|] eqn:Epar; [|done].
    destruct (rebalanceLeafNode_ok t1 all leaf (g l) par)
      as (t' & all' & Hrun & Hs' & He' & Hc' & Hd'); try done.
    { lia. }
    exists t', all', e, es1, es2. split; [done|]. split; [done|]. split; [done|].
    split; [done|]. split; [by rewrite He'|]. split; [|done].
    by eapply sameConfig_trans.
  - exists t1, all, e, es1, es2. repeat (split; [done|]). lia.
Qed.

Lemma wrap64_pred (n : nat) :
  wrap64 (wrap64 (Z.of_nat (S n)) - 1) = wrap64 (Z.of_nat n).
Proof.
  replace (wrap64 (Z.of_nat (S n)) - 1) with (wrap64 (Z.of_nat (S n)) + -1) by lia.
  rewrite wrap64_add_l. f_equal. lia.
Qed.

(** [Delete] returns and keeps the invariant. *)
Lemma Delete_ok t key :
  consistent t → ∃ b t', Delete key t = Some (b, t') ∧ consistent t'.
Proof.
  intros (all & [Hord Hs] & Hcnt). destruct key as [k|]; simpl.
  2:{ exists false, t. split; [done|]. by exists all. }
  destruct (findLeafNode_ok _ t all Hs (Some k)) as (leaf & Hfind & Hleaf).
  rewrite (run_bind_Some _ _ _ _ _ Hfind).
  destruct (leaf_lookup _ _ _ _ _ Hs Hleaf) as (i & l & HA & HB & Hl & Hisleaf & Hnokids & Hkv).
  rewrite (run_getNode _ _ _ _ Hl), run_gets.
  destruct (findKey (comparator t) (Some k) (keys l)) as [idx|] eqn:Hfk.
  - destruct (findKey_Some _ _ _ _ Hfk) as (k' & Hk' & _).
    apply lookup_lt_Some in Hk'.
    destruct (deleteFromLeaf_ok t all leaf l idx Hs Hleaf Hl Hk')
      as (t' & all' & e & es1 & es2 & Hrun & Hs' & _ & He & He' & Hc' & _).
    rewrite (run_bind_Some _ _ _ _ _ Hrun), run_modify.
    eexists _, _. split; [done|].
    destruct Hc' as (Ho & _ & _ & _ & Hcount).
    exists all'. split; [split|].
    + heaps. by rewrite Ho.
    + done.
    + unfold counted. heaps. rewrite Hcount, Hcnt, He, He'.
      replace (length (es1 ++ e :: es2)) with (S (length (es1 ++ es2)))
        by (rewrite !length_app; simpl; lia).
      apply wrap64_pred.
  - exists false, t. split; [done|]. by exists all.
Qed.

(** [Delete] of a key that no entry of the leaf chain carries. *)
Lemma Delete_absent t all key :
  Shape None (heap t) (root t) all →
  key = None ∨ (∀ e, e ∈ entries (heap t) (leafLevel all) → comparator t (Key e) key ≠ 0) →
  Delete key t = Some (false, t).
Proof.
  intros Hs Habs. destruct key as [k|]; simpl; [|done].
  destruct Habs as [|Habs]; [done|].
  destruct (findLeafNode_ok _ t all Hs (Some k)) as (leaf & Hfind & Hleaf).
  rewrite (run_bind_Some _ _ _ _ _ Hfind).
  destruct (leaf_lookup _ _ _ _ _ Hs Hleaf) as (i & l & HA & HB & Hl & Hisleaf & Hnokids & Hkv).
  rewrite (run_getNode _ _ _ _ Hl), run_gets.
  rewrite findKey_None_intro; [done|].
  intros k' Hk'. rewrite <-Hkv in Hk'. apply list_elem_of_fmap in Hk' as (e & -> & He).
  apply Habs. apply list_elem_of_bind. exists leaf. split; [|done].
  by rewrite (vals_lookup _ _ _ Hl).
Qed.

End DeleteOk.

(** ** Reachable trees *)

Section Reachable.
Context {K V : Type}.
Implicit Types (t : BPlusTree K V) (n : TreeNode K V) (h : list (TreeNode K V)).
Implicit Types (p q c : ptr) (A B L : list ptr) (all : list (list ptr)).

(** The empty tree: one Leaf, which is the root. *)
Lemma NewBPlusTree_ok order (cmp : Comparator) t :
  NewBPlusTree (V:=V) order cmp = Some t → consistent t.
Proof.
  unfold NewBPlusTree. destruct (Z.ltb_spec order 3) as [|Hord]; [done|].
  intros [= <-]. exists [[0%nat]]. split; [split; [done|]|done]. heaps.
  split; try done.
  - intros [|[|i]] A; simpl; try done. intros [= <-].
    apply Forall_singleton. by eexists.
  - simpl. apply NoDup_singleton.
  - intros q c _ Hc. unfold kids in Hc. destruct q as [|[|q]]; simpl in Hc;
      by apply elem_of_nil in Hc.
  - simpl. split; [|done]. by eexists.
  - intros p n [->|[]%elem_of_nil]%elem_of_cons [= <-]. done.
Qed.

Lemma applyOps_ok (os : list (op (K:=K) (V:=V))) t :
  consistent t → ∃ t', applyOps os t = Some (tt, t') ∧ consistent t'.
Proof.
  revert t. induction os as [|o os IH]; intros t Ht; simpl.
  - by exists t.
  - destruct o as [key value|key]; simpl.
    + destruct (Insert_ok t key value Ht) as (e & t1 & Hrun & Ht1).
      rewrite (run_bind_Some _ _ _ _ _ (run_bind_Some _ _ _ _ _ Hrun)).
      by apply IH.
    + destruct (Delete_ok t key Ht) as (b & t1 & Hrun & Ht1).
      rewrite (run_bind_Some _ _ _ _ _ (run_bind_Some _ _ _ _ _ Hrun)).
      by apply IH.
Qed.

(** No sequence of calls panics, and all of them keep the invariant. *)
Theorem treeAfter_ok order (cmp : Comparator) (os : list (op (K:=K) (V:=V))) :
  3 ≤ order → ∃ t, treeAfter order cmp os = Some t ∧ consistent t.
Proof.
  intros Hord. unfold treeAfter.
  destruct (NewBPlusTree (V:=V) order cmp) as [t0|] eqn:Hnew.
  2:{ unfold NewBPlusTree in Hnew. destruct (Z.ltb_spec order 3); [lia|done]. }
  destruct (applyOps_ok os t0 (NewBPlusTree_ok _ _ _ Hnew)) as (t & Hrun & Ht).
  exists t. simpl. by rewrite Hrun.
Qed.

Lemma treeAfter_consistent order (cmp : Comparator) (os : list (op (K:=K) (V:=V))) t :
  treeAfter order cmp os = Some t → consistent t.
Proof.
  intros Ht. assert (3 ≤ order) as Hord.
  { unfold treeAfter, NewBPlusTree in Ht. destruct (Z.ltb_spec order 3); [done|lia]. }
  destruct (treeAfter_ok order cmp os Hord) as (t' & Ht' & Hc). congruence.
Qed.

End Reachable.

(** ** Claims about every reachable tree *)

Section GlobalClaims.
Context {K V : Type}.
Implicit Types (t : BPlusTree K V) (key : option K).

(** C3. For every order [≥ 3], comparator and sequence of [Insert] and
    [Delete] calls, no call panics, [ScanAll()] returns the entries of the
    leaf chain and leaves the tree as it is, and [Size()] returns the length
    of that list as a 64-bit [int]: the number itself whenever it fits. *)
Theorem C3_size_is_scan_length order (cmp : Comparator) (os : list (op (K:=K) (V:=V))) :
  3 ≤ order →
  ∃ t es,
    treeAfter order cmp os = Some t ∧
    ScanAll t = Some (es, t) ∧
    Size t = Some (wrap64 (Z.of_nat (length es)), t) ∧
    (Z.of_nat (length es) < 2 ^ 63 → Size t = Some (Z.of_nat (length es), t)).
Proof.
  intros Hord.
  destruct (treeAfter_ok order cmp os Hord) as (t & Ht & all & [_ Hs] & Hcnt).
  exists t, (entries (heap t) (leafLevel all)).
  split; [done|]. split; [by apply ScanAll_ok with (under := None)|].
  unfold Size, gets. rewrite Hcnt. split; [done|].
  intros Hfits. rewrite wrap64_small; [done|]. lia.
Qed.

(** C7. On every tree reached by [Insert] and [Delete] calls, [Delete] of
    the nil key, or of a key that no entry returned by [ScanAll()] compares
    equal to, returns [false] and the tree it was given: [Size()] and
    [ScanAll()] after the call are what they were before. *)
Theorem C7_delete_absent_key order (cmp : Comparator) (os : list (op (K:=K) (V:=V)))
    t key es :
  treeAfter order cmp os = Some t →
  ScanAll t = Some (es, t) →
  key = None ∨ Forall (λ e, comparator t (Key e) key ≠ 0) es →
  Delete key t = Some (false, t) ∧
  (Delete key ≫= λ _, Size) t = Size t ∧
  (Delete key ≫= λ _, ScanAll) t = ScanAll t.
Proof.
  intros Ht Hscan Habs.
  destruct (treeAfter_consistent _ _ _ _ Ht) as (all & [_ Hs] & _).
  assert (Delete key t = Some (false, t)) as Hdel.
  { apply (Delete_absent t all); [done|]. destruct Habs as [|Habs]; [by left|right].
    rewrite (ScanAll_ok None t all Hs) in Hscan. injection Hscan as <-.
    by apply Forall_forall. }
  split; [done|]. by rewrite !bind_unfold, Hdel.
Qed.

End GlobalClaims.

(** * Claims settled on integer-keyed trees *)

Module IntTreeFacts.
Import IntTree.

(** C6. [RangeQuery(start, end)] returns an error exactly when [start] is
    nil, [end] is nil, or [start ≥ end] under the comparator; the rejected
    call returns no entries and hands back the tree it was given; every
    [RangeQuery] is read-only; and [RangeQuery(7, 3)] is rejected on every
    integer-keyed tree. *)
Theorem C6_RangeQuery_error_contract :
  (∀ (K V : Type) (t : BPlusTree K V) (start end_ : option K),
     (rejected (RangeQuery start end_ t) ↔
        start = None ∨ end_ = None ∨ 0 ≤ comparator t start end_) ∧
     (rejected (RangeQuery start end_ t) ↔
        ∃ msg, RangeQuery start end_ t = Some (([], Errorf msg), t)) ∧
     readOnly (RangeQuery (K:=K) (V:=V) start end_)) ∧
  (∀ (V : Type) h r o mk mc c,
     let t := mkTree (V:=V) h r o mk mc intComparator c in
     RangeQuery (Some 7) (Some 3) t =
       Some (([], Errorf "start must be less than end"), t)).
Proof.
  split.
  - intros K V t start end_.
    destruct (RangeQuery_rejected_iff t start end_) as [H1 H2].
    split; [done|]. split; [done|]. apply readOnly_RangeQuery.
  - reflexivity.
Qed.

(** C1 (fails on the code). Order 4: after inserting 1..10 and deleting 8, 7
    and 9, key 3 has been inserted and never deleted, yet [Search(3)] returns
    [(nil, false)]. *)
Theorem C1_search_loses_key_after_internal_borrow :
  (t ← treeAfter 4 intComparator borrowLeftOps; fst <$> Search (Some 3) t)
  = Some (None, false).
Proof. vm_compute. reflexivity. Qed.

(** C2 (fails on the code). In the same tree the root has the single
    separator 3, but its first child holds the keys 3 and 4: the separator
    ordering is violated at the root, although it held before the last
    [Delete]. *)
Theorem C2_separator_order_broken_after_internal_borrow :
  (t ← treeAfter 4 intComparator (insertAll (upto 10 1) ++ deleteAll [8; 7]);
   Some (separatorsOrdered (length (heap t)) t (root t))) = Some true ∧
  (t ← treeAfter 4 intComparator borrowLeftOps;
   Some (separatorsOrdered (length (heap t)) t (root t))) = Some false ∧
  (t ← treeAfter 4 intComparator borrowLeftOps;
   r ← heap t !! root t;
   c0 ← children r !! 0%nat;
   Some (keys r, subtreeKeys (length (heap t)) (heap t) c0))
  = Some ([Some 3], [Some 1; Some 2; Some 3; Some 4]).
Proof. vm_compute. auto. Qed.

(** C4 (fails on the code). After the same calls followed by
    [Insert(3, 3)], [ScanAll()] yields the keys 1 2 3 4 3 5 6 10, which are
    not in strictly increasing order (key 3 occurs twice). *)
Theorem C4_scan_not_increasing_after_internal_borrow :
  (t ← treeAfter 4 intComparator (borrowLeftOps ++ insertAll [3]);
   es ← fst <$> ScanAll t;
   Some (Key <$> es, strictlyIncreasing intComparator (Key <$> es)))
  = Some (Some <$> [1; 2; 3; 4; 3; 5; 6; 10], false).
Proof. vm_compute. reflexivity. Qed.

(** C5 (fails on the code). In the tree of C1, [RangeQuery(3, 5)] succeeds
    with no entries, while the entries of [ScanAll()] with [3 ≤ key < 5] are
    those of keys 3 and 4. *)
Theorem C5_range_misses_entries_after_internal_borrow :
  (t ← treeAfter 4 intComparator borrowLeftOps;
   r ← fst <$> RangeQuery (Some 3) (Some 5) t;
   es ← fst <$> ScanAll t;
   Some (r, filter (λ e, inRange intComparator (Some 3) (Some 5) (Key e) = true) es))
  = Some (([], ErrNil), [mkKV (Some 3) (Some 3); mkKV (Some 4) (Some 4)]).
Proof. vm_compute. reflexivity. Qed.

(** The 10,000 keys of the scenario, deleted upper half first. *)
Definition upperHalfFirst : list (@op Z Z) :=
  insertAll (upto 10000 0) ++ deleteAll (upto 5000 5000 ++ upto 5000 0).

(** C9 (fails on the code). Order 64: after inserting the keys 0..9999 in
    ascending order and deleting every one of them, 5000..9999 first and then
    0..4999, [Size()] is 968 and [Height()] is 2. *)
Theorem C9_delete_all_leaves_entries :
  (t ← treeAfter 64 intComparator upperHalfFirst;
   n ← fst <$> Size t;
   h ← fst <$> Height t;
   Some (n, h))
  = Some (968, 2).
Proof. vm_compute. reflexivity. Qed.

(** Deleting the same keys in ascending order does empty the tree. *)
Example delete_all_ascending :
  (t ← treeAfter 64 intComparator
         (insertAll (upto 10000 0) ++ deleteAll (upto 10000 0));
   n ← fst <$> Size t;
   h ← fst <$> Height t;
   Some (n, h))
  = Some (0, 1).
Proof. vm_compute. reflexivity. Qed.


(** C3 at order 4 with the calls of [borrowLeftOps]. *)
Lemma C3_size_is_scan_length_witness :
  3 ≤ 4 ∧
  ∃ t es,
    treeAfter 4 intComparator borrowLeftOps = Some t ∧
    ScanAll t = Some (es, t) ∧
    Size t = Some (wrap64 (Z.of_nat (length es)), t) ∧
    (Z.of_nat (length es) < 2 ^ 63 → Size t = Some (Z.of_nat (length es), t)).
Proof.
  split; [lia|]. apply (C3_size_is_scan_length 4 intComparator borrowLeftOps). lia.
Defined.

(** C7 at a concrete tree: order 4 holding 3, 5 and 7; key 100 is absent. *)
Lemma C7_delete_absent_key_witness :
  ∃ t es,
    treeAfter 4 intComparator (insertAll [5; 3; 7]) = Some t ∧
    ScanAll t = Some (es, t) ∧
    (Some 100 = None ∨ Forall (λ e, comparator t (Key e) (Some 100) ≠ 0) es) ∧
    Delete (Some 100) t = Some (false, t) ∧
    (Delete (Some 100) ≫= λ _, Size) t = Size t ∧
    (Delete (Some 100) ≫= λ _, ScanAll) t = ScanAll t.
Proof.
  assert (∀ t es, treeAfter 4 intComparator (insertAll [5; 3; 7]) = Some t →
            ScanAll t = Some (es, t) →
            Forall (λ e, comparator t (Key e) (Some 100) ≠ 0) es) as Habs.
  { intros t es [= <-] [= <-]. by repeat constructor. }
  eexists _, _. split; [reflexivity|]. split; [reflexivity|].
  split; [right; by apply Habs|].
  apply (C7_delete_absent_key 4 intComparator (insertAll [5; 3; 7]) _ (Some 100) _
           eq_refl eq_refl).
  right. by apply Habs.
Defined.

End IntTreeFacts.

(** ** Keys that compare equal without being equal *)

Module PairTree.

(** Keys are pairs compared on their first component only. *)
Definition fstComparator : @Comparator (Z * Z) := λ a b,
  match a, b with
  | Some x, Some y => if x.1 <? y.1 then -1 else if y.1 <? x.1 then 1 else 0
  | _, _ => 0
  end.


(** The entry emitted after the update still carries [(1, 0)]. *)
Example update_keeps_first_key :
  (t ← treeAfter 4 fstComparator
         [OpInsert (Some (1, 0)) (Some 10); OpInsert (Some (1, 9)) (Some 20)];
   fst <$> ScanAll t)
  = Some [mkKV (Some (1, 0)) (Some 20)].
Proof. reflexivity. Qed.

End PairTree.

(** * What each method does to a tree that has the shape invariant *)

Section MethodSpecs.
Context {K V : Type}.
Implicit Types (t : BPlusTree K V) (n : TreeNode K V) (h : list (TreeNode K V)).
Implicit Types (p q c : ptr) (A B L : list ptr) (all : list (list ptr)).
Implicit Types (key : option K) (value : option V) (e : KeyValue K V).

(** ** The queries *)

Lemma heightFrom_ok under t all fuel i p A acc :
  Shape under (heap t) (root t) all →
  all !! i = Some (p :: A) → (length all - i ≤ fuel)%nat →
  heightFrom fuel p acc t = Some (acc + Z.of_nat (length all - S i), t).
Proof.
  intros Hs. revert i A p acc. induction fuel as [|fuel IH]; intros i A p acc Hi Hfuel.
  { apply lookup_lt_Some in Hi. lia. }
  simpl. rewrite bind_unfold. destruct (all !! S i) as [B|] eqn:EB.
  - destruct (level_inner _ _ (sh_levels _ _ _ _ Hs) i _ B p Hi EB)
      as [(n & Hn & Hleaf & Har) HB]; [apply list_elem_of_here|].
    rewrite (getNode_lookup _ _ _ Hn), Hleaf. rewrite bind_unfold.
    destruct (children n) as [|c cs] eqn:Ecs; [done|]. simpl.
    rewrite (IH (S i) (cs ++ A ≫= kids (heap t)) c); [| |lia].
    + apply lookup_lt_Some in EB.
      by replace (acc + 1 + Z.of_nat (length all - S (S i)))
        with (acc + Z.of_nat (length all - S i)) by lia.
    + rewrite EB, HB, bind_cons. unfold kids at 1. rewrite Hn. simpl. by rewrite Ecs.
  - destruct (level_leaf _ _ (sh_levels _ _ _ _ Hs) i _ p Hi EB)
      as (n & Hn & Hleaf & _); [apply list_elem_of_here|].
    rewrite (getNode_lookup _ _ _ Hn), Hleaf. simpl.
    apply lookup_ge_None in EB. apply lookup_lt_Some in Hi.
    replace (length all - S i)%nat with 0%nat by lia. by rewrite Z.add_0_r.
Qed.

(** [Height()] is the number of levels. *)
Lemma Height_ok under t all :
  Shape under (heap t) (root t) all → Height t = Some (Z.of_nat (length all), t).
Proof.
  intros Hs. unfold Height. rewrite !run_gets.
  rewrite (heightFrom_ok under t all _ 0 (root t) []); [| done |apply Hs|].
  - pose proof (wf_all_nonempty _ _ _ Hs).
    by replace (1 + Z.of_nat (length all - 1)) with (Z.of_nat (length all))
      by (destruct all; [done|simpl length; lia]).
  - pose proof (wf_depth_bounded _ _ _ Hs). lia.
Qed.

(** The inner loop of [RangeQuery] on a leaf is a filter of its entries. *)
Lemma rangeLeaf_filter (cmp : Comparator) (a b : option K) (vs acc : list (KeyValue K V)) :
  rangeLeaf cmp a b (Key <$> vs) vs acc =
  Some (acc ++ filter (λ e, inRange cmp a b (Key e) = true) vs).
Proof.
  revert acc. induction vs as [|v vs IH]; intros acc; simpl.
  - by rewrite app_nil_r.
  - rewrite filter_cons. destruct (inRange cmp a b (Key v)) eqn:E.
    + rewrite decide_True by done. rewrite IH. by rewrite <-(assoc_L (++)).
    + rewrite decide_False by done. apply IH.
Qed.

Lemma rangeChain_ok t fuel (a b : option K) L acc :
  chainOK (heap t) L None → Forall (leafAt (heap t)) L → (length L ≤ fuel)%nat →
  rangeChain fuel a b (hdOr None L) acc t =
  Some (acc ++ filter (λ e, inRange (comparator t) a b (Key e) = true)
                  (entries (heap t) L), t).
Proof.
  revert fuel acc. induction L as [|l L IH]; intros fuel acc Hc Hl Hfuel; simpl.
  { destruct fuel; simpl; by rewrite app_nil_r. }
  destruct fuel as [|fuel]; [simpl in Hfuel; lia|]. simpl.
  destruct Hc as [(n & Hn & Hnext) Hc]. apply Forall_cons in Hl as [(n' & Hn' & _ & _ & Hkv) Hl].
  assert (n' = n) as -> by congruence.
  rewrite (run_getNode _ _ _ _ Hn), run_gets.
  rewrite <-Hkv, rangeLeaf_filter, Hnext.
  rewrite IH by (done || simpl in Hfuel; lia).
  rewrite filter_app, (vals_lookup _ _ _ Hn). by rewrite <-(assoc_L (++)).
Qed.

Lemma leafLevel_leaves under h r all : Shape under h r all → Forall (leafAt h) (leafLevel all).
Proof.
  intros Hs. apply Forall_forall. intros l Hl.
  destruct (leaf_lookup _ _ _ _ _ Hs Hl) as (i & n & _ & _ & Hn & ? & ? & ?).
  by exists n.
Qed.

(** [RangeQuery] with valid bounds returns the entries in range of the leaf
    chain from the leaf of [start] on. *)
Lemma RangeQuery_ok under t all (a b : option K) :
  Shape under (heap t) (root t) all →
  a ≠ None → b ≠ None → comparator t a b < 0 →
  ∃ L1 L2, leafLevel all = L1 ++ L2 ∧
    RangeQuery a b t =
    Some ((filter (λ e, inRange (comparator t) a b (Key e) = true) (entries (heap t) L2),
           ErrNil), t).
Proof.
  intros Hs Ha Hb Hab. destruct a as [a|]; [|done]. destruct b as [b|]; [|done].
  unfold RangeQuery. rewrite run_gets.
  destruct (Z.leb_spec 0 (comparator t (Some a) (Some b))) as [?|_]; [lia|].
  destruct (findLeafNode_ok _ t all Hs (Some a)) as (leaf & Hfind & Hleaf).
  rewrite (run_bind_Some _ _ _ _ _ Hfind), run_gets.
  destruct (list_elem_of_split _ _ Hleaf) as (L1 & L2 & HL).
  exists L1, (leaf :: L2). split; [done|].
  pose proof (sh_chain _ _ _ _ Hs) as Hc. rewrite HL in Hc.
  apply chainOK_app in Hc as [_ Hc].
  pose proof (leafLevel_leaves _ _ _ _ Hs) as Hlv. rewrite HL in Hlv.
  apply Forall_app in Hlv as [_ Hlv].
  assert (length (leaf :: L2) ≤ length (heap t))%nat as Hlen.
  { pose proof (wf_leafLevel_bounded _ _ _ Hs) as Hb'. rewrite HL, length_app in Hb'. lia. }
  pose proof (rangeChain_ok t (length (heap t)) (Some a) (Some b) (leaf :: L2) []
                Hc Hlv Hlen) as Hr.
  simpl hdOr in Hr. by rewrite (run_bind_Some _ _ _ _ _ Hr).
Qed.

(** [Search] returns, and what it finds is an entry of the leaf level. *)
Lemma Search_ok under t all key :
  Shape under (heap t) (root t) all →
  ∃ v (b : bool), Search key t = Some ((v, b), t) ∧
    if b then ∃ e, e ∈ entries (heap t) (leafLevel all) ∧
                   comparator t (Key e) key = 0 ∧ Value e = v
    else v = None.
Proof.
  intros Hs. destruct key as [k|]; [|by exists None, false].
  destruct (findLeafNode_ok _ t all Hs (Some k)) as (leaf & Hfind & Hleaf).
  destruct (leaf_lookup _ _ _ _ _ Hs Hleaf) as (i & l & HA & HB & Hl & Hisleaf & Hnokids & Hkv).
  unfold Search. rewrite (run_bind_Some _ _ _ _ _ Hfind), (run_getNode _ _ _ _ Hl), run_gets.
  destruct (findKey (comparator t) (Some k) (keys l)) as [idx|] eqn:Hfk.
  - destruct (findKey_Some _ _ _ _ Hfk) as (k' & Hk' & Hcmp).
    rewrite <-Hkv, list_lookup_fmap in Hk'.
    destruct (values l !! idx) as [kv|] eqn:Hkv'; [|done]. simpl in Hk'.
    rewrite (run_index _ _ _ _ _ Hkv'). exists (Value kv), true. split; [done|].
    exists kv. split; [|split; [congruence|done]].
    apply list_elem_of_bind. exists leaf. split; [|done].
    rewrite (vals_lookup _ _ _ Hl). by eapply list_elem_of_lookup_2.
  - by exists None, false.
Qed.

(** ** The mutations *)

Lemma findLeafNode_leaf under t all key leaf :
  Shape under (heap t) (root t) all → findLeafNode key t = Some (leaf, t) →
  leaf ∈ leafLevel all.
Proof.
  intros Hs Hf. destruct (findLeafNode_ok _ t all Hs key) as (leaf' & Hf' & Hleaf).
  congruence.
Qed.

(** [Insert] of a key that the leaf of its descent does not hold: one new
    entry, all others stay in place. *)
Lemma Insert_miss t all key value leaf l :
  WF None t all → counted t all → key ≠ None →
  findLeafNode key t = Some (leaf, t) → heap t !! leaf = Some l →
  findKey (comparator t) key (keys l) = None →
  ∃ t' all' es1 es2,
    Insert key value t = Some (ErrNil, t') ∧ WF None t' all' ∧ counted t' all' ∧
    entries (heap t) (leafLevel all) = es1 ++ es2 ∧
    entries (heap t') (leafLevel all') = es1 ++ mkKV key value :: es2 ∧
    comparator t' = comparator t ∧ order t' = order t ∧ minKeys t' = minKeys t ∧
    count t' = wrap64 (count t + 1) ∧
    (length all ≤ length all' ≤ S (length all))%nat.
Proof.
  intros [Hord Hs] Hcnt Hkey Hfind Hl Hfk.
  pose proof (findLeafNode_leaf _ _ _ _ _ Hs Hfind) as Hleaf.
  destruct key as [k|]; [|done]. unfold Insert.
  rewrite (run_bind_Some _ _ _ _ _ Hfind), (run_getNode _ _ _ _ Hl), run_gets, Hfk.
  destruct (insertIntoLeaf_ok t all leaf l (Some k) value Hord Hs Hleaf Hl)
    as (t' & all' & es1 & es2 & Hrun & Hs' & He & He' & Hc' & Hd').
  rewrite (run_bind_Some _ _ _ _ _ Hrun), run_modify.
  destruct Hc' as (Ho & Hmk & _ & Hcmp & Hcount).
  eexists _, all', es1, es2. split; [done|]. heaps.
  split; [split; [heaps; by rewrite Ho|done]|].
  split.
  { unfold counted. heaps. rewrite Hcount, Hcnt, He, He', wrap64_add_l. f_equal.
    rewrite !length_app. simpl. lia. }
  repeat (split; [done|]). split; [by rewrite Hcount|done].
Qed.

(** [Insert] of a key that the leaf of its descent holds: the entry keeps
    its key and its place and gets the new value. *)
Lemma Insert_hit t all key value leaf l i kv :
  WF None t all → counted t all → key ≠ None →
  findLeafNode key t = Some (leaf, t) → heap t !! leaf = Some l →
  findKey (comparator t) key (keys l) = Some i → values l !! i = Some kv →
  ∃ es1 es2,
    Insert key value t = Some (ErrNil, updated t leaf i kv value) ∧
    WF None (updated t leaf i kv value) all ∧ counted (updated t leaf i kv value) all ∧
    comparator t (Key kv) key = 0 ∧
    entries (heap t) (leafLevel all) = es1 ++ kv :: es2 ∧
    entries (heap (updated t leaf i kv value)) (leafLevel all) =
      es1 ++ mkKV (Key kv) value :: es2.
Proof.
  intros [Hord Hs] Hcnt Hkey Hfind Hl Hfk Hkv.
  pose proof (findLeafNode_leaf _ _ _ _ _ Hs Hfind) as Hleaf.
  destruct (leaf_lookup _ _ _ _ _ Hs Hleaf) as (j & l' & HA & HB & Hl' & Hisleaf & Hnokids & Hkvs).
  assert (l' = l) as -> by congruence. clear Hl'.
  assert (NoDup (leafLevel all)) as Hnd by (eapply levels_NoDup; [apply Hs|done]).
  destruct (list_elem_of_split _ _ Hleaf) as (L1 & L2 & HL). rewrite HL in Hnd |- *.
  set (g := set_values (K:=K) (λ vs, <[i := mkKV (Key kv) value]> vs)).
  destruct (entries_alter_split (heap t) L1 leaf L2 g l Hnd Hl) as [E0 E1].
  exists (entries (heap t) L1 ++ take i (values l)),
         (drop (S i) (values l) ++ entries (heap t) L2).
  assert (entries (heap t) (L1 ++ leaf :: L2) =
          (entries (heap t) L1 ++ take i (values l)) ++
            kv :: drop (S i) (values l) ++ entries (heap t) L2) as He.
  { rewrite E0. rewrite <-(take_drop_middle (values l) i kv Hkv) at 1.
    by rewrite <-!(assoc_L (++)). }
  assert (entries (alter g leaf (heap t)) (L1 ++ leaf :: L2) =
          (entries (heap t) L1 ++ take i (values l)) ++
            mkKV (Key kv) value :: drop (S i) (values l) ++ entries (heap t) L2) as He'.
  { rewrite E1. subst g. fields.
    rewrite (insert_take_drop (values l)) by (by eapply lookup_lt_Some).
    by rewrite <-!(assoc_L (++)). }
  split; [by eapply Insert_update|].
  split; [split; [done|]|].
  { unfold updated, revalue. heaps.
    apply Shape_alter; [done|]. intros n Hn. assert (n = l) as -> by congruence.
    repeat split; try done. intros _ _. fields.
    rewrite list_fmap_insert. simpl. rewrite Hkvs. apply list_insert_id.
    by rewrite <-Hkvs, list_lookup_fmap, Hkv. }
  split.
  { unfold counted, updated, revalue. heaps. fold g. rewrite HL, He'.
    rewrite Hcnt, HL, He. by rewrite !length_app. }
  split.
  { destruct (findKey_Some _ _ _ _ Hfk) as (k' & Hk' & Hcmp).
    rewrite <-Hkvs, list_lookup_fmap, Hkv in Hk'. simpl in Hk'. congruence. }
  split; [done|]. unfold updated, revalue. heaps. done.
Qed.

(** [Delete] of a key that the leaf of its descent holds: its first entry
    with that key goes, all others stay in place. *)
Lemma Delete_hit t all key leaf l idx :
  WF None t all → counted t all → key ≠ None →
  findLeafNode key t = Some (leaf, t) → heap t !! leaf = Some l →
  findKey (comparator t) key (keys l) = Some idx →
  ∃ t' all' e es1 es2,
    Delete key t = Some (true, t') ∧ WF None t' all' ∧ counted t' all' ∧
    values l !! idx = Some e ∧ comparator t (Key e) key = 0 ∧
    entries (heap t) (leafLevel all) = es1 ++ e :: es2 ∧
    entries (heap t') (leafLevel all') = es1 ++ es2 ∧
    comparator t' = comparator t ∧ order t' = order t ∧ minKeys t' = minKeys t ∧
    count t' = wrap64 (count t - 1) ∧
    (length all' ≤ length all ≤ S (length all'))%nat.
Proof.
  intros [Hord Hs] Hcnt Hkey Hfind Hl Hfk.
  pose proof (findLeafNode_leaf _ _ _ _ _ Hs Hfind) as Hleaf.
  destruct (leaf_lookup _ _ _ _ _ Hs Hleaf) as (j & l' & HA & HB & Hl' & Hisleaf & Hnokids & Hkvs).
  assert (l' = l) as -> by congruence. clear Hl'.
  destruct key as [k|]; [|done]. unfold Delete.
  rewrite (run_bind_Some _ _ _ _ _ Hfind), (run_getNode _ _ _ _ Hl), run_gets, Hfk.
  destruct (findKey_Some _ _ _ _ Hfk) as (k' & Hk' & Hcmp).
  pose proof (lookup_lt_Some _ _ _ Hk') as Hidx.
  destruct (deleteFromLeaf_ok t all leaf l idx Hs Hleaf Hl Hidx)
    as (t' & all' & e & es1 & es2 & Hrun & Hs' & He0 & He & He' & Hc' & Hd').
  rewrite (run_bind_Some _ _ _ _ _ Hrun), run_modify.
  destruct Hc' as (Ho & Hmk & _ & Hcmp' & Hcount).
  eexists _, all', e, es1, es2. split; [done|]. heaps.
  split; [split; [heaps; by rewrite Ho|done]|].
  split.
  { unfold counted. heaps. rewrite Hcount, Hcnt, He, He'.
    replace (length (es1 ++ e :: es2)) with (S (length (es1 ++ es2)))
      by (rewrite !length_app; simpl; lia).
    apply wrap64_pred. }
  split; [done|]. split.
  { rewrite <-Hkvs, list_lookup_fmap, He0 in Hk'. simpl in Hk'. congruence. }
  repeat (split; [done|]). split; [by rewrite Hcount|done].
Qed.

(** ** One call on a tree with the invariant, by what [Search] says *)

Lemma Search_false t key (v : option V) :
  Search key t = Some ((v, false), t) → v = None.
Proof.
  unfold Search. destruct key as [k|]; [|by intros [= <-]].
  rewrite bind_unfold. destruct (findLeafNode _ t) as [[leaf t1]|]; [|done].
  rewrite bind_unfold. destruct (getNode leaf t1) as [[l t2]|]; [|done].
  rewrite bind_unfold. simpl. destruct (findKey _ _ _) as [i|]; [|by intros [= <-]].
  rewrite bind_unfold. by destruct (index (values l) i t2) as [[kv t3]|].
Qed.

Lemma Insert_step t all key value :
  WF None t all → counted t all → key ≠ None →
  ∃ v (b : bool) t' all' es1 es2 k',
    Search key t = Some ((v, b), t) ∧
    Insert key value t = Some (ErrNil, t') ∧ WF None t' all' ∧ counted t' all' ∧
    comparator t' = comparator t ∧ order t' = order t ∧ minKeys t' = minKeys t ∧
    (length all ≤ length all' ≤ S (length all))%nat ∧
    entries (heap t') (leafLevel all') = es1 ++ mkKV k' value :: es2 ∧
    if b then ∃ e, entries (heap t) (leafLevel all) = es1 ++ e :: es2 ∧ k' = Key e ∧
                   Value e = v ∧ comparator t (Key e) key = 0 ∧ count t' = count t
    else entries (heap t) (leafLevel all) = es1 ++ es2 ∧ k' = key ∧
         count t' = wrap64 (count t + 1).
Proof.
  intros Hwf Hcnt Hkey.
  destruct (Search_ok None t all key (proj2 Hwf)) as (v & b & HS & _).
  exists v, b. destruct b.
  - apply Search_found in HS as HS'.
    destruct HS' as (leaf & l & i & kv & Hk & Hf & Hl & Hi & Hkv & Hv).
    destruct (Insert_hit t all key value leaf l i kv Hwf Hcnt Hk Hf Hl Hi Hkv)
      as (es1 & es2 & Hrun & Hwf' & Hcnt' & Hcmp & He & He').
    exists (updated t leaf i kv value), all, es1, es2, (Key kv).
    repeat (split; [done|]). split; [lia|]. split; [done|]. by exists kv.
  - pose proof (Search_false _ _ _ HS) as ->.
    apply Search_not_found in HS as HS'. destruct HS' as [|(leaf & l & Hf & Hl & Hi)]; [done|].
    destruct (Insert_miss t all key value leaf l Hwf Hcnt Hkey Hf Hl Hi)
      as (t' & all' & es1 & es2 & Hrun & Hwf' & Hcnt' & He & He' & Hc' & Ho' & Hm' & Hn' & Hd').
    by exists t', all', es1, es2, key.
Qed.

Lemma Delete_step t all key :
  WF None t all → counted t all →
  ∃ v (b : bool) t' all',
    Search key t = Some ((v, b), t) ∧
    Delete key t = Some (b, t') ∧ WF None t' all' ∧ counted t' all' ∧
    comparator t' = comparator t ∧ order t' = order t ∧ minKeys t' = minKeys t ∧
    (length all' ≤ length all ≤ S (length all'))%nat ∧
    if b then ∃ e es1 es2, entries (heap t) (leafLevel all) = es1 ++ e :: es2 ∧
                entries (heap t') (leafLevel all') = es1 ++ es2 ∧
                Value e = v ∧ comparator t (Key e) key = 0 ∧
                count t' = wrap64 (count t - 1)
    else t' = t ∧ all' = all.
Proof.
  intros Hwf Hcnt.
  destruct (Search_ok None t all key (proj2 Hwf)) as (v & b & HS & _).
  exists v, b. destruct b.
  - apply Search_found in HS as HS'.
    destruct HS' as (leaf & l & i & kv & Hk & Hf & Hl & Hi & Hkv & Hv).
    destruct (Delete_hit t all key leaf l i Hwf Hcnt Hk Hf Hl Hi)
      as (t' & all' & e & es1 & es2 & Hrun & Hwf' & Hcnt' & He0 & Hcmp & He & He'
          & Hc' & Ho' & Hm' & Hn' & Hd').
    assert (e = kv) as -> by congruence.
    exists t', all'. repeat (split; [done|]). by exists kv, es1, es2.
  - pose proof (Search_false _ _ _ HS) as ->.
    exists t, all. split; [done|]. split; [|repeat (split; [done|]); split; [lia|done]].
    apply Search_not_found in HS as [->|(leaf & l & Hf & Hl & Hi)]; [done|].
    destruct key as [k|]; [|done]. unfold Delete.
    by rewrite (run_bind_Some _ _ _ _ _ Hf), (run_getNode _ _ _ _ Hl), run_gets, Hi.
Qed.

End MethodSpecs.

(** * The methods on reachable trees *)

Section ReachableMethods.
Context {K V : Type}.
Implicit Types (t : BPlusTree K V) (key : option K) (value : option V).
Implicit Types (e : KeyValue K V) (os : list (op (K:=K) (V:=V))).

Lemma applyOps_snoc os o t :
  applyOps (os ++ [o]) t =
  match applyOps os t with
  | Some (_, t1) => applyOp o t1
  | None => None
  end.
Proof.
  revert t. induction os as [|o' os IH]; intros t; simpl.
  - rewrite bind_unfold. by destruct (applyOp o t) as [[[] ?]|].
  - rewrite !bind_unfold. destruct (applyOp o' t) as [[[] t1]|]; [apply IH|done].
Qed.

Lemma treeAfter_snoc order (cmp : Comparator) os o :
  treeAfter order cmp (os ++ [o]) =
  match treeAfter order cmp os with
  | Some t => snd <$> applyOp o t
  | None => None
  end.
Proof.
  unfold treeAfter. destruct (NewBPlusTree order cmp) as [t0|]; [|done]. simpl.
  rewrite applyOps_snoc. by destruct (applyOps os t0) as [[[] t1]|].
Qed.

(** Induction over the calls that lead to a tree. *)
Lemma treeAfter_rev_ind (I : list op → BPlusTree K V → Prop) order (cmp : Comparator) :
  (∀ t0, NewBPlusTree order cmp = Some t0 → I [] t0) →
  (∀ os o t t', treeAfter order cmp os = Some t → I os t →
     applyOp o t = Some (tt, t') → I (os ++ [o]) t') →
  ∀ os t, treeAfter order cmp os = Some t → I os t.
Proof.
  intros H0 Hstep os. induction os as [|o os IH] using rev_ind; intros t Ht.
  - apply H0. unfold treeAfter in Ht.
    destruct (NewBPlusTree order cmp) as [t0|]; [|done]. simpl in Ht. congruence.
  - rewrite treeAfter_snoc in Ht. destruct (treeAfter order cmp os) as [t1|] eqn:E; [|done].
    destruct (applyOp o t1) as [[[] t2]|] eqn:Eo; simplify_eq/=.
    eapply Hstep; [done|by apply IH|done].
Qed.

Lemma applyOp_Insert key value t t' :
  applyOp (OpInsert key value) t = Some (tt, t') ↔ ∃ r, Insert key value t = Some (r, t').
Proof.
  simpl. rewrite bind_unfold. destruct (Insert key value t) as [[r t1]|].
  - split; [intros [= <-]; eauto|by intros [r' [= _ <-]]].
  - split; [done|by intros [r' ?]].
Qed.

Lemma applyOp_Delete key t t' :
  applyOp (OpDelete key) t = Some (tt, t') ↔ ∃ b, Delete key t = Some (b, t').
Proof.
  simpl. rewrite bind_unfold. destruct (Delete key t) as [[r t1]|].
  - split; [intros [= <-]; eauto|by intros [r' [= _ <-]]].
  - split; [done|by intros [r' ?]].
Qed.

(** [Insert] and [Delete] never change the configuration of the tree. *)
Lemma treeAfter_inv ord (cmp : Comparator) os t :
  treeAfter ord cmp os = Some t →
  ∃ all, WF None t all ∧ counted t all ∧
         order t = ord ∧ comparator t = cmp ∧ minKeys t = ord ÷ 2 - 1.
Proof.
  revert os t. apply treeAfter_rev_ind with
    (I := λ _ t, ∃ all, WF None t all ∧ counted t all ∧
                        order t = ord ∧ comparator t = cmp ∧ minKeys t = ord ÷ 2 - 1).
  - intros t0 Hnew. destruct (NewBPlusTree_ok _ _ _ Hnew) as (all & Hwf & Hcnt).
    exists all. split; [done|]. split; [done|].
    unfold NewBPlusTree in Hnew. destruct (ord <? 3); by simplify_eq.
  - intros os o t t' _ (all & Hwf & Hcnt & Ho & Hc & Hm) Hop.
    destruct o as [key value|key].
    + apply applyOp_Insert in Hop as [r Hop]. destruct key as [k|].
      2:{ injection Hop as _ <-. by exists all. }
      destruct (Insert_step t all (Some k) value Hwf Hcnt ltac:(done))
        as (v & b & t1 & all' & es1 & es2 & k' & _ & Hrun & Hwf' & Hcnt' & Hc' & Ho' & Hm' & _).
      assert (t1 = t') as -> by congruence.
      exists all'. repeat (split; [done|]). split; [congruence|]. split; congruence.
    + apply applyOp_Delete in Hop as [b' Hop].
      destruct (Delete_step t all key Hwf Hcnt)
        as (v & b & t1 & all' & _ & Hrun & Hwf' & Hcnt' & Hc' & Ho' & Hm' & _).
      assert (t1 = t') as -> by congruence.
      exists all'. repeat (split; [done|]). split; [congruence|]. split; congruence.
Qed.

End ReachableMethods.

(** * Contracts of the methods on reachable trees *)

Section Contracts.
Context {K V : Type}.
Implicit Types (t : BPlusTree K V) (key : option K) (value : option V).
Implicit Types (e : KeyValue K V) (os : list (op (K:=K) (V:=V))).

(** What the read-only methods return on a tree that has the invariant. *)
Lemma WF_view t all :
  WF None t all →
  ScanAll t = Some (entries (heap t) (leafLevel all), t) ∧
  Height t = Some (Z.of_nat (length all), t) ∧ (1 ≤ length all)%nat.
Proof.
  intros [_ Hs]. split; [by apply ScanAll_ok with (under := None)|].
  split; [by apply Height_ok with (under := None)|].
  pose proof (sh_top _ _ _ _ Hs). destruct all; [done|simpl; lia].
Qed.

(** The empty tree.  [NewBPlusTree] panics when [order < 3]; otherwise the
    tree it returns has size 0 and height 1, [ScanAll] and [RangeQuery]
    return no entry, [Search] finds no key and [Delete] returns [false]. *)
Theorem NewBPlusTree_contract order (cmp : Comparator) :
  (order < 3 → NewBPlusTree (K:=K) (V:=V) order cmp = None) ∧
  (3 ≤ order →
   ∃ t, NewBPlusTree order cmp = Some t ∧
     Size t = Some (0, t) ∧ Height t = Some (1, t) ∧ ScanAll t = Some ([], t) ∧
     (∀ key, Search key t = Some ((None, false), t) ∧ Delete key t = Some (false, t)) ∧
     (∀ a b, ∃ r, RangeQuery a b t = Some (([], r), t))).
Proof.
  unfold NewBPlusTree. split; intros Hord.
  - by destruct (Z.ltb_spec order 3); [|lia].
  - destruct (Z.ltb_spec order 3); [lia|]. eexists. split; [done|].
    do 3 (split; [done|]). split.
    + by intros [k|].
    + intros [a|] [b|]; try by eexists.
      unfold RangeQuery. rewrite bind_unfold. simpl.
      destruct (0 <=? cmp (Some a) (Some b)); by eexists.
Qed.

(** The read-only methods return on every reachable tree, and leave it as
    it is; the height is at least 1. *)
Theorem queries_return ord (cmp : Comparator) os t key (a b : option K) :
  treeAfter ord cmp os = Some t →
  (∃ v found, Search key t = Some ((v, found), t)) ∧
  (∃ es, ScanAll t = Some (es, t)) ∧
  (∃ n, Size t = Some (n, t)) ∧
  (∃ n, Height t = Some (n, t) ∧ 1 ≤ n) ∧
  (∃ r, RangeQuery a b t = Some (r, t)).
Proof.
  intros Ht. destruct (treeAfter_inv _ _ _ _ Ht) as (all & Hwf & _).
  destruct (WF_view t all Hwf) as (Hscan & Hh & Hlen). destruct Hwf as [_ Hs].
  split.
  { destruct (Search_ok None t all key Hs) as (v & found & Hrun & _). eauto. }
  split; [eauto|]. split; [by eexists|].
  split; [exists (Z.of_nat (length all)); split; [done|lia]|].
  destruct a as [a|]; [|by eexists]. destruct b as [b|]; [|by eexists].
  destruct (Z.leb_spec 0 (comparator t (Some a) (Some b))) as [Hge|Hlt].
  - eexists. unfold RangeQuery. rewrite bind_unfold. simpl.
    destruct (Z.leb_spec 0 (comparator t (Some a) (Some b))); [done|lia].
  - destruct (RangeQuery_ok None t all (Some a) (Some b) Hs) as (L1 & L2 & _ & Hrun);
      try done.
    eauto.
Qed.

(** [Insert] never panics on a reachable tree.  It returns an error exactly
    for the nil key, and then leaves the tree as it is. *)
Theorem Insert_error_contract ord (cmp : Comparator) os t key value :
  treeAfter ord cmp os = Some t →
  ∃ r t', Insert key value t = Some (r, t') ∧
    (r ≠ ErrNil ↔ key = None) ∧ (key = None → t' = t).
Proof.
  intros Ht. destruct (treeAfter_inv _ _ _ _ Ht) as (all & Hwf & Hcnt & _).
  destruct key as [k|].
  - destruct (Insert_step t all (Some k) value Hwf Hcnt ltac:(done))
      as (v & b & t' & all' & es1 & es2 & k' & _ & Hrun & _).
    exists ErrNil, t'. split; [done|]. split; [|done]. by split.
  - eexists _, t. split; [done|]. by split.
Qed.

(** [Insert] of a key that [Search] does not find adds one entry, which
    holds the key and the value given; the entries before and after it are
    those that were there, in the same order, and the size grows by one. *)
Theorem Insert_absent_key ord (cmp : Comparator) os t key value :
  treeAfter ord cmp os = Some t →
  key ≠ None →
  Search key t = Some ((None, false), t) →
  ∃ t' es1 es2 n,
    Insert key value t = Some (ErrNil, t') ∧
    ScanAll t = Some (es1 ++ es2, t) ∧
    ScanAll t' = Some (es1 ++ mkKV key value :: es2, t') ∧
    Size t = Some (n, t) ∧ Size t' = Some (wrap64 (n + 1), t').
Proof.
  intros Ht Hkey Hmiss. destruct (treeAfter_inv _ _ _ _ Ht) as (all & Hwf & Hcnt & _).
  destruct (Insert_step t all key value Hwf Hcnt Hkey)
    as (v & b & t' & all' & es1 & es2 & k' & Hsearch & Hrun & Hwf' & _ & _ & _ & _ & _ &
        Hes' & Hcase).
  rewrite Hmiss in Hsearch. injection Hsearch as <- <-.
  destruct Hcase as (Hes & -> & Hc).
  exists t', es1, es2, (count t). split; [done|].
  destruct (WF_view t all Hwf) as (-> & _). destruct (WF_view t' all' Hwf') as (-> & _).
  rewrite Hes, Hes'. repeat split. unfold Size, gets. by rewrite Hc.
Qed.

(** [Insert] of a key that [Search] finds replaces the value of one entry,
    the one whose value [Search] returned: its key is kept, all other
    entries, the size and the height stay as they are. *)
Theorem Insert_present_key ord (cmp : Comparator) os t key value v :
  treeAfter ord cmp os = Some t →
  Search key t = Some ((v, true), t) →
  ∃ t' es1 e es2 n h,
    Insert key value t = Some (ErrNil, t') ∧
    ScanAll t = Some (es1 ++ e :: es2, t) ∧
    ScanAll t' = Some (es1 ++ mkKV (Key e) value :: es2, t') ∧
    Value e = v ∧ cmp (Key e) key = 0 ∧
    Size t = Some (n, t) ∧ Size t' = Some (n, t') ∧
    Height t = Some (h, t) ∧ Height t' = Some (h, t').
Proof.
  intros Ht Hhit. destruct (treeAfter_inv _ _ _ _ Ht) as (all & Hwf & Hcnt & _ & Hcmp & _).
  assert (key ≠ None) as Hkey by (by intros ->).
  destruct (proj1 (Search_found _ _ _) Hhit)
    as (leaf & l & i & kv & _ & Hfind & Hl & Hi & Hkv & Hv).
  destruct (Insert_hit t all key value leaf l i kv Hwf Hcnt Hkey Hfind Hl Hi Hkv)
    as (es1 & es2 & Hrun & Hwf' & _ & Heq & Hes & Hes').
  exists (updated t leaf i kv value), es1, kv, es2, (count t), (Z.of_nat (length all)).
  split; [done|].
  destruct (WF_view t all Hwf) as (-> & -> & _).
  destruct (WF_view _ all Hwf') as (-> & -> & _).
  rewrite Hes, Hes', <- Hcmp. by repeat split.
Qed.

(** [Delete] returns the flag that [Search] returns for the key.  When it
    is [true], one entry is removed: it compares equal to the key and holds
    the value that [Search] returned; the other entries keep their order
    and the size drops by one.  When it is [false], the tree is unchanged. *)
Theorem Delete_removes_found_entry ord (cmp : Comparator) os t key :
  treeAfter ord cmp os = Some t →
  ∃ v (found : bool) t',
    Search key t = Some ((v, found), t) ∧
    Delete key t = Some (found, t') ∧
    if found then
      ∃ e es1 es2 n,
        ScanAll t = Some (es1 ++ e :: es2, t) ∧
        ScanAll t' = Some (es1 ++ es2, t') ∧
        Value e = v ∧ cmp (Key e) key = 0 ∧
        Size t = Some (n, t) ∧ Size t' = Some (wrap64 (n - 1), t')
    else t' = t.
Proof.
  intros Ht. destruct (treeAfter_inv _ _ _ _ Ht) as (all & Hwf & Hcnt & _ & Hcmp & _).
  destruct (Delete_step t all key Hwf Hcnt)
    as (v & found & t' & all' & Hsearch & Hrun & Hwf' & _ & _ & _ & _ & _ & Hcase).
  exists v, found, t'. split; [done|]. split; [done|].
  destruct found; [|by destruct Hcase].
  destruct Hcase as (e & es1 & es2 & Hes & Hes' & Hv & Heq & Hc).
  exists e, es1, es2, (count t).
  destruct (WF_view t all Hwf) as (-> & _). destruct (WF_view t' all' Hwf') as (-> & _).
  rewrite Hes, Hes', <- Hcmp. repeat split; try done. unfold Size, gets. by rewrite Hc.
Qed.

(** What [Search] finds is stored: when it returns [(v, true)], [ScanAll]
    holds an entry with value [v] whose key compares equal to the key
    searched; when it returns [false], the value is nil. *)
Theorem Search_sound ord (cmp : Comparator) os t key v (found : bool) :
  treeAfter ord cmp os = Some t →
  Search key t = Some ((v, found), t) →
  if found then
    ∃ es e, ScanAll t = Some (es, t) ∧ e ∈ es ∧ cmp (Key e) key = 0 ∧ Value e = v
  else v = None.
Proof.
  intros Ht Hrun. destruct (treeAfter_inv _ _ _ _ Ht) as (all & Hwf & _ & _ & Hcmp & _).
  destruct (WF_view t all Hwf) as (Hscan & _). destruct Hwf as [_ Hs].
  destruct (Search_ok None t all key Hs) as (v' & b & Hrun' & Hcase).
  rewrite Hrun in Hrun'. injection Hrun' as <- <-.
  destruct found; [|done]. destruct Hcase as (e & He & Heq & Hv).
  exists (entries (heap t) (leafLevel all)), e. by rewrite <- Hcmp.
Qed.

(** [RangeQuery] with non-nil bounds [a < b] returns no error and no entry
    that is not stored and in range: its result is what the range test
    keeps of a final segment of [ScanAll], in the order of [ScanAll]. *)
Theorem RangeQuery_sound ord (cmp : Comparator) os t (a b : option K) :
  treeAfter ord cmp os = Some t →
  a ≠ None → b ≠ None → cmp a b < 0 →
  ∃ es1 es2,
    ScanAll t = Some (es1 ++ es2, t) ∧
    RangeQuery a b t =
      Some ((filter (λ e, 0 ≤ cmp (Key e) a ∧ cmp (Key e) b < 0) es2, ErrNil), t).
Proof.
  intros Ht Ha Hb Hab.
  destruct (treeAfter_inv _ _ _ _ Ht) as (all & Hwf & _ & _ & Hcmp & _).
  destruct (WF_view t all Hwf) as (Hscan & _). destruct Hwf as [_ Hs].
  destruct (RangeQuery_ok None t all a b Hs Ha Hb) as (L1 & L2 & HL & Hrun);
    [by rewrite Hcmp|].
  exists (entries (heap t) L1), (entries (heap t) L2). split.
  - rewrite Hscan, HL. unfold entries. by rewrite bind_app.
  - rewrite Hrun, Hcmp. do 3 f_equal. apply list_filter_iff. intros e.
    unfold inRange. rewrite andb_true_iff, Z.leb_le, Z.ltb_lt. done.
Qed.

(** Nothing is stored that was not inserted: every entry that [ScanAll]
    returns has a non-nil key that was the key of an [Insert] call, and a
    value that was the value of an [Insert] call whose key is that key or
    compares equal to it. *)
Theorem ScanAll_provenance ord (cmp : Comparator) os t es e :
  treeAfter ord cmp os = Some t →
  ScanAll t = Some (es, t) →
  e ∈ es →
  Key e ≠ None ∧
  (∃ v, OpInsert (Key e) v ∈ os) ∧
  (∃ k, OpInsert k (Value e) ∈ os ∧ (k = Key e ∨ cmp (Key e) k = 0)).
Proof.
  intros Ht. revert es e. revert os t Ht.
  apply (treeAfter_rev_ind (λ os t, ∀ es e, ScanAll t = Some (es, t) → e ∈ es →
    Key e ≠ None ∧ (∃ v, OpInsert (Key e) v ∈ os) ∧
    (∃ k, OpInsert k (Value e) ∈ os ∧ (k = Key e ∨ cmp (Key e) k = 0)))).
  - intros t0 Hnew es e Hscan He.
    unfold NewBPlusTree in Hnew. destruct (ord <? 3); [done|]. injection Hnew as <-.
    injection Hscan as <-. by apply elem_of_nil in He.
  - intros os o t t' Ht IH Hop es' e Hscan' He.
    destruct (treeAfter_inv _ _ _ _ Ht) as (all & Hwf & Hcnt & _ & Hcmp & _).
    destruct (WF_view t all Hwf) as (Hscan & _).
    assert (∀ e, e ∈ entries (heap t) (leafLevel all) →
              Key e ≠ None ∧ (∃ v, OpInsert (Key e) v ∈ os ++ [o]) ∧
              (∃ k, OpInsert k (Value e) ∈ os ++ [o] ∧ (k = Key e ∨ cmp (Key e) k = 0)))
      as Hold.
    { intros e0 He0. destruct (IH _ e0 Hscan He0) as (Hk & [v Hv] & (k & Hin & Hor)).
      split; [done|]. split; [exists v|exists k; split; [|done]];
        apply elem_of_app; by left. }
    destruct o as [key value|key].
    + apply applyOp_Insert in Hop as [r Hop]. destruct key as [k|].
      2:{ injection Hop as _ <-. rewrite Hscan in Hscan'. injection Hscan' as <-. auto. }
      destruct (Insert_step t all (Some k) value Hwf Hcnt ltac:(done))
        as (v & b & t1 & all' & es1 & es2 & k' & _ & Hrun & Hwf' & _ & _ & _ & _ & _ &
            Hes' & Hcase).
      assert (t1 = t') as -> by congruence.
      destruct (WF_view t' all' Hwf') as (Hscan1 & _).
      rewrite Hscan1 in Hscan'. injection Hscan' as <-. rewrite Hes' in He.
      assert (∀ e0, e0 ∈ es1 ++ es2 → e0 ∈ entries (heap t) (leafLevel all)) as Hsub.
      { intros e0 He0. destruct b.
        - destruct Hcase as (e1 & -> & _). rewrite elem_of_app, elem_of_cons.
          apply elem_of_app in He0. tauto.
        - by destruct Hcase as (-> & _). }
      apply elem_of_app in He as [He|[->|He]%elem_of_cons].
      * apply Hold, Hsub, elem_of_app. by left.
      * simpl. destruct b.
        -- destruct Hcase as (e1 & Hes & -> & _ & Heq & _).
           destruct (Hold e1) as (Hk & [v1 Hv1] & _).
           { rewrite Hes, elem_of_app, elem_of_cons. auto. }
           split; [done|]. split; [by exists v1|].
           exists (Some k). split; [|right; by rewrite <- Hcmp].
           apply elem_of_app. right. apply list_elem_of_here.
        -- destruct Hcase as (_ & -> & _). split; [done|].
           split; [exists value|exists (Some k); split; [|by left]];
             apply elem_of_app; right; apply list_elem_of_here.
      * apply Hold, Hsub, elem_of_app. by right.
    + apply applyOp_Delete in Hop as [b' Hop].
      destruct (Delete_step t all key Hwf Hcnt)
        as (v & b & t1 & all' & _ & Hrun & Hwf' & _ & _ & _ & _ & _ & Hcase).
      assert (t1 = t') as -> by congruence.
      destruct (WF_view t' all' Hwf') as (Hscan1 & _).
      rewrite Hscan1 in Hscan'. injection Hscan' as <-.
      destruct b.
      * destruct Hcase as (e1 & es1 & es2 & Hes & Hes' & _).
        apply Hold. rewrite Hes, elem_of_app, elem_of_cons.
        rewrite Hes' in He. apply elem_of_app in He. tauto.
      * destruct Hcase as [-> ->]. by apply Hold.
Qed.

(** The height moves by at most one per call: [Insert] keeps it or adds
    one level, [Delete] keeps it or removes one level, and it never drops
    below 1. *)
Theorem Height_step ord (cmp : Comparator) os t key value :
  treeAfter ord cmp os = Some t →
  ∃ h r t1 h1 b t2 h2,
    Height t = Some (h, t) ∧ 1 ≤ h ∧
    Insert key value t = Some (r, t1) ∧ Height t1 = Some (h1, t1) ∧ h ≤ h1 ≤ h + 1 ∧
    Delete key t = Some (b, t2) ∧ Height t2 = Some (h2, t2) ∧ 1 ≤ h2 ∧ h - 1 ≤ h2 ≤ h.
Proof.
  intros Ht. destruct (treeAfter_inv _ _ _ _ Ht) as (all & Hwf & Hcnt & _).
  destruct (WF_view t all Hwf) as (_ & Hh & Hlen).
  destruct (Delete_step t all key Hwf Hcnt)
    as (v & b & t2 & all2 & _ & Hdel & Hwf2 & _ & _ & _ & _ & Hlen2 & _).
  destruct (WF_view t2 all2 Hwf2) as (_ & Hh2 & Hlen2').
  assert (∃ r t1 all1, Insert key value t = Some (r, t1) ∧ WF None t1 all1 ∧
            (length all ≤ length all1 ≤ S (length all))%nat) as (r & t1 & all1 & Hins & Hwf1 & Hlen1).
  { destruct key as [k|]; [|exists (Errorf "key cannot be nil"), t, all; split; [done|split; [done|lia]]].
    destruct (Insert_step t all (Some k) value Hwf Hcnt ltac:(done))
      as (v' & b' & t1 & all1 & es1 & es2 & k' & _ & Hrun & Hwf1 & _ & _ & _ & _ & Hlen1 & _).
    by exists ErrNil, t1, all1. }
  destruct (WF_view t1 all1 Hwf1) as (_ & Hh1 & _).
  exists (Z.of_nat (length all)), r, t1, (Z.of_nat (length all1)), b, t2,
    (Z.of_nat (length all2)).
  repeat split; try done; lia.
Qed.

End Contracts.

(** * The contracts on integer-keyed trees *)

Module IntTreeContracts.
Import IntTree.

(** The contracts at order 4, on the tree holding 1 to 10. *)
Lemma queries_return_witness :
  ∃ t, treeAfter 4 intComparator (insertAll (upto 10 1)) = Some t ∧
    (∃ v found, Search (Some 5) t = Some ((v, found), t)) ∧
    (∃ es, ScanAll t = Some (es, t)) ∧
    (∃ n, Size t = Some (n, t)) ∧
    (∃ n, Height t = Some (n, t) ∧ 1 ≤ n) ∧
    (∃ r, RangeQuery (Some 3) (Some 7) t = Some (r, t)).
Proof.
  eexists. split; [vm_compute; reflexivity|].
  apply (queries_return 4 intComparator (insertAll (upto 10 1)) _ (Some 5) (Some 3) (Some 7)); try done; vm_compute; reflexivity.
Defined.

Lemma Insert_error_contract_witness :
  ∃ t, treeAfter 4 intComparator (insertAll (upto 10 1)) = Some t ∧
    ∃ r t', Insert (Some 11) (Some 11) t = Some (r, t') ∧
      (r ≠ ErrNil ↔ Some 11 = None) ∧ (Some 11 = None → t' = t).
Proof.
  eexists. split; [vm_compute; reflexivity|].
  apply (Insert_error_contract 4 intComparator (insertAll (upto 10 1)) _ (Some 11) (Some 11)); try done; vm_compute; reflexivity.
Defined.

Lemma Insert_absent_key_witness :
  ∃ t, treeAfter 4 intComparator (insertAll [1; 2; 3; 5; 6; 7]) = Some t ∧
    Some 4 ≠ None ∧
    Search (Some 4) t = Some ((None, false), t) ∧
    ∃ t' es1 es2 n,
      Insert (Some 4) (Some 40) t = Some (ErrNil, t') ∧
      ScanAll t = Some (es1 ++ es2, t) ∧
      ScanAll t' = Some (es1 ++ mkKV (Some 4) (Some 40) :: es2, t') ∧
      Size t = Some (n, t) ∧ Size t' = Some (wrap64 (n + 1), t').
Proof.
  eexists. split; [vm_compute; reflexivity|]. split; [done|]. split; [vm_compute; reflexivity|].
  by apply (Insert_absent_key 4 intComparator (insertAll [1; 2; 3; 5; 6; 7]) _
              (Some 4) (Some 40)).
Defined.

Lemma Insert_present_key_witness :
  ∃ t, treeAfter 4 intComparator (insertAll (upto 10 1)) = Some t ∧
    Search (Some 4) t = Some ((Some 4, true), t) ∧
    ∃ t' es1 e es2 n h,
      Insert (Some 4) (Some 40) t = Some (ErrNil, t') ∧
      ScanAll t = Some (es1 ++ e :: es2, t) ∧
      ScanAll t' = Some (es1 ++ mkKV (Key e) (Some 40) :: es2, t') ∧
      Value e = Some 4 ∧ intComparator (Key e) (Some 4) = 0 ∧
      Size t = Some (n, t) ∧ Size t' = Some (n, t') ∧
      Height t = Some (h, t) ∧ Height t' = Some (h, t').
Proof.
  eexists. split; [vm_compute; reflexivity|]. split; [vm_compute; reflexivity|].
  apply (Insert_present_key 4 intComparator (insertAll (upto 10 1)) _
              (Some 4) (Some 40) (Some 4)); try done; vm_compute; reflexivity.
Defined.

Lemma Delete_removes_found_entry_witness :
  ∃ t, treeAfter 4 intComparator borrowLeftOps = Some t ∧
    ∃ v (found : bool) t',
      Search (Some 5) t = Some ((v, found), t) ∧
      Delete (Some 5) t = Some (found, t') ∧
      if found then
        ∃ e es1 es2 n,
          ScanAll t = Some (es1 ++ e :: es2, t) ∧
          ScanAll t' = Some (es1 ++ es2, t') ∧
          Value e = v ∧ intComparator (Key e) (Some 5) = 0 ∧
          Size t = Some (n, t) ∧ Size t' = Some (wrap64 (n - 1), t')
      else t' = t.
Proof.
  eexists. split; [vm_compute; reflexivity|].
  apply (Delete_removes_found_entry 4 intComparator borrowLeftOps _ (Some 5)); try done; vm_compute; reflexivity.
Defined.

Lemma Search_sound_witness :
  ∃ t, treeAfter 4 intComparator borrowLeftOps = Some t ∧
    Search (Some 5) t = Some ((Some 5, true), t) ∧
    ∃ es e, ScanAll t = Some (es, t) ∧ e ∈ es ∧
            intComparator (Key e) (Some 5) = 0 ∧ Value e = Some 5.
Proof.
  eexists. split; [vm_compute; reflexivity|]. split; [vm_compute; reflexivity|].
  apply (Search_sound 4 intComparator borrowLeftOps _ (Some 5) (Some 5) true); try done; vm_compute; reflexivity.
Defined.

Lemma RangeQuery_sound_witness :
  ∃ t, treeAfter 4 intComparator borrowLeftOps = Some t ∧
    Some 3 ≠ None ∧ Some 6 ≠ None ∧ intComparator (Some 3) (Some 6) < 0 ∧
    ∃ es1 es2,
      ScanAll t = Some (es1 ++ es2, t) ∧
      RangeQuery (Some 3) (Some 6) t =
        Some ((filter (λ e, 0 ≤ intComparator (Key e) (Some 3) ∧
                            intComparator (Key e) (Some 6) < 0) es2, ErrNil), t).
Proof.
  eexists. split; [vm_compute; reflexivity|]. do 3 (split; [done|]).
  apply (RangeQuery_sound 4 intComparator borrowLeftOps _ (Some 3) (Some 6)); try done; vm_compute; reflexivity.
Defined.

Lemma ScanAll_provenance_witness :
  ∃ t es,
    treeAfter 4 intComparator borrowLeftOps = Some t ∧
    ScanAll t = Some (es, t) ∧
    mkKV (Some 5) (Some 5) ∈ es ∧
    Some 5 ≠ None ∧
    (∃ v, OpInsert (Some 5) v ∈ borrowLeftOps) ∧
    (∃ k, OpInsert k (Some 5) ∈ borrowLeftOps ∧
          (k = Some 5 ∨ intComparator (Some 5) k = 0)).
Proof.
  assert (∀ es, es = [mkKV (Some 1) (Some 1); mkKV (Some 2) (Some 2); mkKV (Some 3) (Some 3);
                      mkKV (Some 4) (Some 4); mkKV (Some 5) (Some 5); mkKV (Some 6) (Some 6);
                      mkKV (Some 10) (Some 10)] →
            mkKV (Some 5) (Some 5) ∈ es) as Hin.
  { intros es ->. do 4 apply list_elem_of_further. apply list_elem_of_here. }
  eexists _, _. split; [vm_compute; reflexivity|]. split; [vm_compute; reflexivity|].
  split; [by apply Hin|].
  apply (ScanAll_provenance 4 intComparator borrowLeftOps _ _ (mkKV (Some 5) (Some 5))
           ltac:(vm_compute; reflexivity) ltac:(vm_compute; reflexivity)).
  by apply Hin.
Defined.

Lemma Height_step_witness :
  ∃ t, treeAfter 4 intComparator (insertAll (upto 10 1)) = Some t ∧
    ∃ h r t1 h1 b t2 h2,
      Height t = Some (h, t) ∧ 1 ≤ h ∧
      Insert (Some 11) (Some 11) t = Some (r, t1) ∧ Height t1 = Some (h1, t1) ∧
      h ≤ h1 ≤ h + 1 ∧
      Delete (Some 11) t = Some (b, t2) ∧ Height t2 = Some (h2, t2) ∧ 1 ≤ h2 ∧
      h - 1 ≤ h2 ≤ h.
Proof.
  eexists. split; [vm_compute; reflexivity|].
  apply (Height_step 4 intComparator (insertAll (upto 10 1)) _ (Some 11) (Some 11)); try done; vm_compute; reflexivity.
Defined.

End IntTreeContracts.
